(** * Density-matrix simulator core: a shallow embedding

    The development follows the C++ sources

    - [ccsrc/lib/simulator/densitymatrix/detail/cpu_densitymatrix_policy_zlike.cpp]
      (the Z-like kernels on the packed lower triangle),
    - [ccsrc/include/simulator/densitymatrix/densitymatrix_state.tpp]
      (the state container, the gradient engine and the sampler),
    - the runtime gate builder [mindquantum::sim::rt::Gate].

    Numbers of type [calc_type] are kept abstract (a class of operations),
    so that the same definitions run on exact integers and are reasoned
    about on the real numbers; [std::complex<calc_type>] is a pair, with the
    arithmetic of the C++ standard library written out. Indices of type
    [index_t] are 64-bit unsigned integers, modelled in [N] with the
    wrap-around explicit. *)

From Stdlib Require Import ZArith NArith List String Ring Reals Lra.
From stdpp Require Import base list gmap strings pretty sorting.

Open Scope N_scope.

(* ================================================================== *)
(** * Failures *)

(** The exceptions the sources and the standard containers throw, plus the
    two ways a call can leave defined behaviour (an unchecked index past the
    end of a vector, an integer division by zero). *)
Inductive error : Type :=
| InvalidArgument (msg : string)   (* std::invalid_argument *)
| RuntimeError (msg : string)      (* std::runtime_error *)
| OutOfRange (key : string)        (* std::out_of_range, thrown by map::at *)
| LengthError                      (* std::length_error, from a vector of
                                      negative size *)
| Undefined (what : string).       (* undefined behaviour *)

Inductive result (A : Type) : Type :=
| Ok (a : A)
| Err (e : error).
Arguments Ok {A} a.
Arguments Err {A} e.

Definition rbind {A B} (m : result A) (k : A -> result B) : result B :=
  match m with
  | Ok a => k a
  | Err e => Err e
  end.

Declare Scope result_scope.
Delimit Scope result_scope with result.
Notation "'do' x <- m ; k" := (rbind m (fun x => k))
  (at level 10, x name, m at level 100, k at level 200) : result_scope.
Notation "'do' ' p <- m ; k" := (rbind m (fun p => k))
  (at level 10, p pattern, m at level 100, k at level 200) : result_scope.
Open Scope result_scope.

(** A [for] statement over a list whose body may throw. *)
Fixpoint foldM {A S} (body : A -> S -> result S) (l : list A) (s : S)
  : result S :=
  match l with
  | [] => Ok s
  | a :: l' => do s' <- body a s; foldM body l' s'
  end.

(** A [for] statement building one result per element. *)
Fixpoint mapM {A B} (f : A -> result B) (l : list A) : result (list B) :=
  match l with
  | [] => Ok []
  | a :: l' => do b <- f a; do bs <- mapM f l'; Ok (b :: bs)
  end.

Definition is_ok {A} (r : result A) : bool :=
  match r with Ok _ => true | Err _ => false end.

(* ================================================================== *)
(** * Scalars *)

(** [calc_type]: the arithmetic every kernel needs. *)
Class RingOps := {
  real : Type;
  R_zero : real;
  R_one : real;
  R_add : real -> real -> real;
  R_mul : real -> real -> real;
  R_sub : real -> real -> real;
  R_opp : real -> real }.

(** [calc_type] with division, comparison and the <cmath> functions the
    state container and the T and PS gates call. *)
Class CalcOps := {
  calc_ring :: RingOps;
  R_div : real -> real -> real;
  R_ltb : real -> real -> bool;
  R_sqrt : real -> real;
  R_cos : real -> real;
  R_sin : real -> real }.

Section Complex.
Context {RO : RingOps}.

(** [qs_data_t = std::complex<calc_type>] as (real part, imaginary part). *)
Definition C : Type := real * real.

Definition Re (z : C) : real := fst z.
Definition Im (z : C) : real := snd z.
Definition C_zero : C := (R_zero, R_zero).
Definition C_one : C := (R_one, R_zero).
Definition R_two : real := R_add R_one R_one.

(** [operator*=(complex)] *)
Definition Cmul (x y : C) : C :=
  (R_sub (R_mul (Re x) (Re y)) (R_mul (Im x) (Im y)),
   R_add (R_mul (Re x) (Im y)) (R_mul (Im x) (Re y))).
(** [operator*=(calc_type)] *)
Definition Cscale (x : C) (r : real) : C := (R_mul (Re x) r, R_mul (Im x) r).
(** [operator+=(calc_type)] *)
Definition Cadd_real (x : C) (r : real) : C := (R_add (Re x) r, Im x).
(** [std::conj] *)
Definition Cconj (x : C) : C := (Re x, R_opp (Im x)).
(** [std::norm]: the squared magnitude. *)
Definition Cnorm (x : C) : real :=
  R_add (R_mul (Re x) (Re x)) (R_mul (Im x) (Im x)).

End Complex.

(* ================================================================== *)
(** * Index and mask utilities *)

Definition u64 (x : N) : N := x mod 2 ^ 64.
(** Unsigned subtraction of two 64-bit values. *)
Definition sub64 (a b : N) : N := u64 (a + 2 ^ 64 - b).

(** [for (index_t i = 0; i < n; i++) body], sequentially. The OpenMP
    pragma of [THRESHOLD_OMP_FOR] does not change what a race-free loop
    computes. *)
Definition for_N {S} (n : N) (body : N -> S -> S) (s : S) : S :=
  fold_left (fun acc i => body (N.of_nat i) acc) (seq 0 (N.to_nat n)) s.

(** The values [0, 1, ..., n-1] a counting loop visits. *)
Definition N_range (n : N) : list N := map N.of_nat (seq 0 (N.to_nat n)).

(** [int] arithmetic: conversion of a wider value to [int], and the
    conversion of an [int] to [size_t] in mixed arithmetic. *)
Definition static_cast_int (x : Z) : Z := ((x + 2 ^ 31) mod 2 ^ 32 - 2 ^ 31)%Z.
Definition to_size_t (x : Z) : N := Z.to_N (x mod 2 ^ 64).

(** Modelled from the spec: [IdxMap] is declared in
    cpu_densitymatrix_policy.hpp, which is not among the sources.  Section
    4.A: "IdxMap(r,c) returns r*(r+1)/2 + c when r >= c". *)
Definition IdxMap (x y : N) : N := u64 (u64 (x * u64 (x + 1)) / 2 + y).

Record SingleQubitGateMask_t := {
  obj_mask : N;
  obj_low_mask : N;
  obj_high_mask : N;
  ctrl_mask : N }.

(** Modelled from the spec: [SingleQubitGateMask] lives in
    simulator/utils.hpp, which is not among the sources.  Section 3:
    "obj_mask = 1<<q, obj_low_mask = obj_mask - 1, obj_high_mask =
    ~obj_low_mask" and "Control mask: bitwise-OR of 1<<c for every control
    qubit c".  The object qubit is [objs[0]] (read as 0 on an empty list,
    where C++ is undefined). *)
Definition SingleQubitGateMask (objs ctrls : list N) : SingleQubitGateMask_t :=
  let om := u64 (N.shiftl 1 (List.nth 0 objs 0)) in
  let low := sub64 om 1 in
  {| obj_mask := om;
     obj_low_mask := low;
     obj_high_mask := N.lnot low 64;
     ctrl_mask := fold_left (fun m c => N.lor m (u64 (N.shiftl 1 c))) ctrls 0 |}.

(** The number of stored entries in the rows before row [n]:
    1 + 2 + ... + n. *)
Fixpoint tri (n : nat) : nat :=
  match n with
  | O => O
  | S m => (tri m + S m)%nat
  end.

(** The packed lower triangle of [n] rows with [entry r c] at (r,c),
    row-major. *)
Definition triangle {A} (entry : nat -> nat -> A) (n : nat) : list A :=
  concat (map (fun r => map (entry r) (seq 0 (S r))) (seq 0 n)).

(** The row (or column) index with the object bit clear that base [k]
    expands to: [((k & obj_high_mask) << 1) + (k & obj_low_mask)]. *)
Definition expand (mask : SingleQubitGateMask_t) (k : N) : N :=
  u64 (u64 (N.shiftl (N.land k (obj_high_mask mask)) 1)
       + N.land k (obj_low_mask mask)).

(* ================================================================== *)
(** * The packed buffer *)

(** [qs_data_p_t]: the packed lower triangle, row-major.  A subscript past
    the end of the buffer is undefined in C++; the kernels below are only
    called with [dim = 2^n] and qubits below [n], where every subscript is
    in range, and the model leaves the buffer alone otherwise. *)
Abbreviation buffer := (list C).

Section Buffer.
Context {RO : RingOps}.

(** [qs[i] *= c] for a complex [c]. *)
Definition mul_at (i : N) (c : C) (qs : buffer) : buffer :=
  alter (fun x => Cmul x c) (N.to_nat i) qs.
(** [qs[i] *= r] for a real [r]. *)
Definition scale_at (i : N) (r : real) (qs : buffer) : buffer :=
  alter (fun x => Cscale x r) (N.to_nat i) qs.
(** [qs[i] = c]. *)
Definition set_at (i : N) (c : C) (qs : buffer) : buffer :=
  <[N.to_nat i := c]> qs.
(** Reading [qs[i]]. *)
Definition get_at (qs : buffer) (i : N) : C :=
  List.nth (N.to_nat i) qs C_zero.

(** Modelled from the spec: [SelfMultiply] is declared in
    cpu_densitymatrix_policy.hpp, which is not among the sources.  Section 3
    stores only the entries with r >= c and asks that "for r < c the caller
    must read rho[c,r] and conjugate": multiplying the entry (x,y) by
    [coeff] multiplies the stored entry (y,x) by the conjugate when x < y. *)
Definition SelfMultiply (qs : buffer) (x y : N) (coeff : C) : buffer :=
  if y <=? x then mul_at (IdxMap x y) coeff qs
  else mul_at (IdxMap y x) (Cconj coeff) qs.

(** The other reading of the missing helper, kept for comparison: entries
    above the diagonal are not stored, so nothing is done for x < y. *)
Definition SelfMultiply_lower_only (qs : buffer) (x y : N) (coeff : C)
  : buffer :=
  if y <=? x then mul_at (IdxMap x y) coeff qs else qs.

End Buffer.

(* ================================================================== *)
(** * Z-like kernels (cpu_densitymatrix_policy_zlike.cpp) *)

Section ZLike.
Context {RO : RingOps}.

(** [ApplyZLike], with the helper [SelfMultiply] as a parameter [sm]. *)
Definition ApplyZLike_with (sm : buffer -> N -> N -> C -> buffer)
    (qs : buffer) (objs ctrls : list N) (val : C) (dim : N) : buffer :=
  let mask := SingleQubitGateMask objs ctrls in
  if ctrl_mask mask =? 0 then
    for_N (dim / 2) (fun k qs =>                       (* loop on the row *)
      let r0 := expand mask k in
      let r1 := N.lor r0 (obj_mask mask) in
      for_N (k + 1) (fun l qs =>                       (* loop on the column *)
        let c0 := expand mask l in
        let c1 := N.lor c0 (obj_mask mask) in
        let qs := scale_at (IdxMap r1 c1) (Cnorm val) qs in
        let qs := mul_at (IdxMap r1 c0) val qs in
        sm qs r0 c1 (Cconj val)) qs) qs
  else
    for_N (dim / 2) (fun k qs =>                       (* loop on the row *)
      let r0 := expand mask k in
      let r1 := N.lor r0 (obj_mask mask) in
      for_N k (fun l qs =>                             (* loop on the column *)
        let c0 := expand mask l in
        if negb (N.land r0 (ctrl_mask mask) =? ctrl_mask mask)
           && negb (N.land c0 (ctrl_mask mask) =? ctrl_mask mask)
        then qs                                        (* both not in control *)
        else
          let c1 := N.lor c0 (obj_mask mask) in
          let qs :=
            if N.land r0 (ctrl_mask mask) =? ctrl_mask mask then
              if N.land c0 (ctrl_mask mask) =? ctrl_mask mask then
                (* both in control *)
                let qs := scale_at (IdxMap r1 c1) (Cnorm val) qs in
                let qs := mul_at (IdxMap r1 c0) val qs in
                sm qs r0 c1 (Cconj val)
              else
                (* row in control but not column *)
                let qs := mul_at (IdxMap r1 c1) val qs in
                mul_at (IdxMap r1 c0) val qs
            else
              (* column in control but not row *)
              let qs := mul_at (IdxMap r1 c1) (Cconj val) qs in
              sm qs r0 c1 (Cconj val) in
          (* diagonal case *)
          if N.land r0 (ctrl_mask mask) =? ctrl_mask mask then
            let qs := mul_at (IdxMap r1 r0) val qs in
            scale_at (IdxMap r1 r1) (Cnorm val) qs
          else qs) qs) qs.

Definition ApplyZLike := ApplyZLike_with SelfMultiply.

Definition ApplyZ (qs : buffer) (objs ctrls : list N) (dim : N) : buffer :=
  ApplyZLike qs objs ctrls (R_opp R_one, R_zero) dim.

Definition ApplySGate (qs : buffer) (objs ctrls : list N) (dim : N) : buffer :=
  ApplyZLike qs objs ctrls (R_zero, R_one) dim.

Definition ApplySdag (qs : buffer) (objs ctrls : list N) (dim : N) : buffer :=
  ApplyZLike qs objs ctrls (R_zero, R_opp R_one) dim.

End ZLike.

(* ================================================================== *)
(** * Kernels that scale every stored entry *)

Section Scaling.
Context {RO : RingOps}.

(** [scales F w]: the kernel [F] multiplies the entry at position [i] by
    [w i], whatever the buffer. *)
Definition scales (F : buffer -> buffer) (w : nat -> C) : Prop :=
  forall (q : buffer) (i : nat),
    F q !! i = (fun x => Cmul x (w i)) <$> (q !! i).

(** [paired F F']: both kernels scale, and their factors are inverse to
    each other at every position. *)
Definition paired (F F' : buffer -> buffer) : Prop :=
  exists w w', scales F w /\ scales F' w' /\ forall i, Cmul (w i) (w' i) = C_one.

(** [fused F G H]: the three kernels scale, and at every position the
    factor of [H] is the product of the factors of [F] and [G]. *)
Definition fused (F G H : buffer -> buffer) : Prop :=
  exists w v, scales F w /\ scales G v /\ scales H (fun i => Cmul (w i) (v i)).

End Scaling.

(* ================================================================== *)
(** * The kernels that are not among the sources *)

(** The X-, Y-, H-, SWAP-like kernels, the rotations, the channels and
    the expectation kernels are defined in other translation units of
    [CPUDensityMatrixPolicyBase]; the state container only dispatches to
    them.  They are taken as parameters: a kernel maps the buffer it is
    handed to the buffer it leaves behind. *)
Class PolicyBase {CO : CalcOps} := {
  (** [Hamiltonian<calc_type>::ham_]: a list of weighted Pauli strings. *)
  ham_terms : Type;
  ApplyX : buffer -> list N -> list N -> N -> buffer;
  ApplyY : buffer -> list N -> list N -> N -> buffer;
  ApplyH : buffer -> list N -> list N -> N -> buffer;
  ApplySWAP : buffer -> list N -> list N -> N -> buffer;
  ApplyISWAP : buffer -> list N -> list N -> N -> buffer;
  ApplyRX : buffer -> list N -> list N -> real -> N -> bool -> buffer;
  ApplyRY : buffer -> list N -> list N -> real -> N -> bool -> buffer;
  ApplyRZ : buffer -> list N -> list N -> real -> N -> bool -> buffer;
  ApplyXX : buffer -> list N -> list N -> real -> N -> bool -> buffer;
  ApplyYY : buffer -> list N -> list N -> real -> N -> bool -> buffer;
  ApplyZZ : buffer -> list N -> list N -> real -> N -> bool -> buffer;
  ApplyAmplitudeDamping : buffer -> list N -> real -> N -> buffer;
  ApplyPhaseDamping : buffer -> list N -> real -> N -> buffer;
  ApplyPauli : buffer -> list N -> list real -> N -> buffer;
  ApplyKraus : buffer -> list N -> list (list (list C)) -> N -> buffer;
  ApplyHermitianAmplitudeDamping : buffer -> list N -> real -> N -> buffer;
  SetToZeroExcept : buffer -> N -> N -> buffer;
  GetExpectation : buffer -> ham_terms -> N -> C;
  HamiltonianMatrix : ham_terms -> N -> buffer;
  ExpectDiffRX : buffer -> buffer -> list N -> list N -> N -> C;
  ExpectDiffRY : buffer -> buffer -> list N -> list N -> N -> C;
  ExpectDiffRZ : buffer -> buffer -> list N -> list N -> N -> C;
  ExpectDiffXX : buffer -> buffer -> list N -> list N -> N -> C;
  ExpectDiffYY : buffer -> buffer -> list N -> list N -> N -> C;
  ExpectDiffZZ : buffer -> buffer -> list N -> list N -> N -> C;
  ExpectDiffPS : buffer -> buffer -> list N -> list N -> N -> C }.

Section ZLikeCalc.
Context {CO : CalcOps} {PB : PolicyBase}.

(** [qs_data_t / calc_type] *)
Definition Cdiv_real (x : C) (r : real) : C := (R_div (Re x) r, R_div (Im x) r).

(** [IMAGE_I], the imaginary unit. *)
Definition IMAGE_I : C := (R_zero, R_one).

Definition ApplyT (qs : buffer) (objs ctrls : list N) (dim : N) : buffer :=
  ApplyZLike qs objs ctrls (Cdiv_real (R_one, R_one) (R_sqrt R_two)) dim.

Definition ApplyTdag (qs : buffer) (objs ctrls : list N) (dim : N) : buffer :=
  ApplyZLike qs objs ctrls (Cdiv_real (R_one, R_opp R_one) (R_sqrt R_two)) dim.

Definition ApplyPS (qs : buffer) (objs ctrls : list N) (val : real) (dim : N)
    (diff : bool) : buffer :=
  if negb diff then
    ApplyZLike qs objs ctrls (R_cos val, R_sin val) dim
  else
    let mask := SingleQubitGateMask objs ctrls in
    let ic := Cscale IMAGE_I (R_cos val) in
    let e : C := (R_add (R_opp (R_sin val)) (Re ic), Im ic) in
    if ctrl_mask mask =? 0 then
      for_N (dim / 2) (fun k qs =>
        let r0 := expand mask k in
        let r1 := N.lor r0 (obj_mask mask) in
        for_N (k + 1) (fun l qs =>
          let c0 := expand mask l in
          let c1 := N.lor c0 (obj_mask mask) in
          let qs := set_at (IdxMap r0 c0) C_zero qs in
          let qs := set_at (IdxMap r0 c1) C_zero qs in
          set_at (IdxMap r1 c0) C_zero qs) qs) qs
    else
      let qs :=
        for_N (dim / 2) (fun k qs =>
          let r0 := expand mask k in
          let r1 := N.lor r0 (obj_mask mask) in
          for_N (k + 1) (fun l qs =>
            let c0 := expand mask l in
            if negb (N.land r0 (ctrl_mask mask) =? ctrl_mask mask)
               && negb (N.land c0 (ctrl_mask mask) =? ctrl_mask mask)
            then qs                                    (* both not in control *)
            else
              let c1 := N.lor c0 (obj_mask mask) in
              if N.land r0 (ctrl_mask mask) =? ctrl_mask mask then
                if N.land c0 (ctrl_mask mask) =? ctrl_mask mask then
                  (* both in control *)
                  let qs := set_at (IdxMap r0 c0) C_zero qs in
                  let qs := set_at (IdxMap r0 c1) C_zero qs in
                  set_at (IdxMap r1 c0) C_zero qs
                else
                  (* only row in control *)
                  let qs := set_at (IdxMap r0 c0) C_zero qs in
                  let qs := set_at (IdxMap r0 c1) C_zero qs in
                  let qs := mul_at (IdxMap r1 c0) e qs in
                  mul_at (IdxMap r1 c1) e qs
              else
                (* only column in control *)
                let qs := set_at (IdxMap r0 c0) C_zero qs in
                let qs := mul_at (IdxMap r0 c1) (Cconj e) qs in
                let qs := set_at (IdxMap r1 c0) C_zero qs in
                mul_at (IdxMap r1 c1) (Cconj e) qs) qs) qs in
      SetToZeroExcept qs (ctrl_mask mask) dim.

End ZLikeCalc.

(* ================================================================== *)
(** * The runtime gate builder ([mindquantum::sim::rt::Gate]) *)

Module RtGate.

(** [GateID]: the identifiers the builder knows; [null] marks an empty
    record. *)
Inductive GateID :=
| null | X | Y | Z | H | S | T | Sdag | Tdag | SWAP | ISWAP
| RX | RY | RZ | PS | Rxx | Ryy | Rzz.

Record Gate := {
  gate : GateID;
  objs : list N;
  ctrls : list N }.

Definition Reset (g : Gate) : Gate :=
  {| gate := null; objs := []; ctrls := [] |}.

(** [std::find(v.begin(), v.end(), q) != v.end()] *)
Definition found (q : N) (v : list N) : bool := existsb (N.eqb q) v.

(** [std::to_string] of a qubit index: its decimal digits. *)
Definition to_string (q : N) : string := pretty q.

(** A member function that may throw: what the call reports, and the
    record as the call leaves it. *)
Definition AddObj (obj : N) (g : Gate) : result unit * Gate :=
  if found obj (objs g) then
    (Err (RuntimeError ("obj qubit " +:+ to_string obj +:+ " already added.")),
     g)
  else (Ok tt, {| gate := gate g; objs := objs g ++ [obj]; ctrls := ctrls g |}).

Definition AddCtrl (ctrl : N) (g : Gate) : result unit * Gate :=
  if found ctrl (objs g) then
    (Err (RuntimeError ("ctrl qubit " +:+ to_string ctrl
                        +:+ " is already in obj qubits.")), g)
  else if found ctrl (ctrls g) then
    (Err (RuntimeError ("ctrl qubit " +:+ to_string ctrl +:+ " already added.")),
     g)
  else (Ok tt, {| gate := gate g; objs := objs g; ctrls := ctrls g ++ [ctrl] |}).

(** Neither list of the record holds a qubit twice. *)
Definition distinct_qubits (g : Gate) : Prop :=
  NoDup (objs g) /\ NoDup (ctrls g).

End RtGate.

(* ================================================================== *)
(** * Gate records, parameter bindings and the other collaborators *)

Section Records.
Context {RO : RingOps}.

(** [ParameterResolver<calc_type>]: the fields the state container
    reads. *)
Record ParameterResolver := {
  data_ : gmap string real;
  const_value : real;
  no_grad_parameters_ : gset string }.

(** [BasicGate<calc_type>]: the fields the dispatcher reads. *)
Record BasicGate := {
  name_ : string;
  obj_qubits_ : list N;
  ctrl_qubits_ : list N;
  daggered_ : bool;
  parameterized_ : bool;
  applied_value_ : real;
  params_ : ParameterResolver;
  is_measure_ : bool;
  is_channel_ : bool;
  damping_coeff_ : real;
  probs_ : list real;
  kraus_operator_set_ : list (list (list C)) }.

Definition circuit_t : Type := list BasicGate.

End Records.

(** What the container uses of its collaborators and does not define: the
    gate-name constants of ops/gates.hpp, the member functions of the
    parameter resolver, the random engine and the allocation of a fresh
    buffer. *)
Class Collaborators {RO : RingOps} := {
  gI : string; gX : string; gCNOT : string; gY : string; gZ : string;
  gH : string; gS : string; gT : string; gSWAP : string; gISWAP : string;
  gRX : string; gRY : string; gRZ : string; gXX : string; gZZ : string;
  gYY : string; gPS : string;
  cAD : string; cPD : string; cPL : string; hcAD : string;
  (** [params_.Combination(pr)].  The resolver is not among the sources:
      it is taken as a function that always returns, and a binding that
      misses a name of the gate is outside what is proved below. *)
  Combination : ParameterResolver -> ParameterResolver -> ParameterResolver;
  (** [params_.GetRequiresGradParameters()], in iteration order. *)
  GetRequiresGradParameters : ParameterResolver -> list string;
  (** [ParameterResolver<calc_type>()] and [pr.SetItems(names, values)]. *)
  empty_resolver : ParameterResolver;
  SetItems : ParameterResolver -> list string -> list real -> ParameterResolver;
  (** [RndEngine], [RndEngine(seed)], one draw of
      [std::uniform_real_distribution<double>(0., 1.)], and one draw of the
      distribution over [1, 2^20) cast to [unsigned]. *)
  RndEngine : Type;
  mk_engine : N -> RndEngine;
  uniform01 : RndEngine -> real * RndEngine;
  uniform_seed : RndEngine -> N * RndEngine;
  (** [qs_policy_t::InitState(dim)] *)
  InitState : N -> buffer }.

(** The entries of a [std::map<std::string, T>] in the order a range-for
    visits them: by increasing key. *)
Definition map_items {T} (m : gmap string T) : list (string * T) :=
  merge_sort (fun a b => Is_true (String.leb (fst a) (fst b))) (map_to_list m).

(** [v[i]] on a [std::vector]: unchecked, undefined past the end. *)
Definition vec_get {A} (v : list A) (i : N) : result A :=
  match v !! N.to_nat i with
  | Some a => Ok a
  | None => Err (Undefined "vector subscript out of range")
  end.

(** [v[i] = f(v[i])] on a [std::vector]. *)
Definition vec_update {A} (v : list A) (i : N) (f : A -> A) : result (list A) :=
  match v !! N.to_nat i with
  | Some _ => Ok (alter f (N.to_nat i) v)
  | None => Err (Undefined "vector subscript out of range")
  end.

(** [m.at(k)] on a [std::map]. *)
Definition map_at {T} (m : gmap string T) (k : string) : result T :=
  match m !! k with
  | Some v => Ok v
  | None => Err (OutOfRange k)
  end.

(* ================================================================== *)
(** * The state container (densitymatrix_state.tpp) *)

Section State.
Context {CO : CalcOps} {PB : PolicyBase} {CB : Collaborators}.

Record DensityMatrixState := {
  qs : buffer;
  n_qubits : N;
  dim : N;
  seed : N;
  rnd_eng_ : RndEngine }.

(** Number of stored entries of a [dim] x [dim] matrix. *)
Definition packed_len (dim : N) : nat := N.to_nat (dim * (dim + 1) / 2).

(** Modelled from the spec: [qs_policy_t::Copy] and [qs_policy_t::CopyQS]
    are not among the sources.  Section 3: a state "may be copied (deep
    copy of the rho buffer ...)"; section 4.E: "a fresh state initialized
    by CopyQS(rho)".  [Copy] returns a new buffer with the source's
    entries, [CopyQS des src dim] overwrites the stored entries of [des]
    with those of [src]. *)
Definition Copy (src : buffer) (dim : N) : buffer := src.
Definition CopyQS (des src : buffer) (dim : N) : buffer :=
  take (packed_len dim) src ++ drop (packed_len dim) des.

(** [DensityMatrixState(n_qubits, seed)] *)
Definition new_state (n_qubits seed : N) : DensityMatrixState :=
  let dim := u64 (N.shiftl 1 n_qubits) in
  {| qs := InitState dim; n_qubits := n_qubits; dim := dim; seed := seed;
     rnd_eng_ := mk_engine seed |}.

(** [DensityMatrixState(qs, n_qubits, seed)]: the state takes the buffer
    over. *)
Definition state_of_buffer (qs : buffer) (n_qubits seed : N)
  : DensityMatrixState :=
  {| qs := qs; n_qubits := n_qubits; dim := u64 (N.shiftl 1 n_qubits);
     seed := seed; rnd_eng_ := mk_engine seed |}.

(** The copy constructor: a deep copy of the buffer, the engine seeded
    again from the stored seed. *)
Definition copy_state (sim : DensityMatrixState) : DensityMatrixState :=
  {| qs := Copy (qs sim) (dim sim); n_qubits := n_qubits sim; dim := dim sim;
     seed := seed sim; rnd_eng_ := mk_engine (seed sim) |}.

Definition with_qs (st : DensityMatrixState) (q : buffer) : DensityMatrixState :=
  {| qs := q; n_qubits := n_qubits st; dim := dim st; seed := seed st;
     rnd_eng_ := rnd_eng_ st |}.

Definition with_rnd (st : DensityMatrixState) (e : RndEngine)
  : DensityMatrixState :=
  {| qs := qs st; n_qubits := n_qubits st; dim := dim st; seed := seed st;
     rnd_eng_ := e |}.

(** The member [CopyQS(qs_out)]: overwrite this state's buffer. *)
Definition State_CopyQS (st : DensityMatrixState) (qs_out : buffer)
  : DensityMatrixState :=
  with_qs st (CopyQS (qs st) qs_out (dim st)).

(** Modelled from the spec: [DiagonalConditionalCollect] is not among the
    sources.  Glossary: "sum the diagonal entries of rho matching a bitmask
    predicate; used for measurement marginals"; the predicate is
    [(i & mask) == condi], as in section 3.  The flag [abs] is passed as
    [true] by the only caller; the entries summed are diagonal entries of a
    Hermitian matrix, and their real parts are added up. *)
Definition DiagonalConditionalCollect (qs : buffer) (mask condi : N)
    (abs : bool) (dim : N) : real :=
  for_N dim (fun i acc =>
    if N.land i mask =? condi then R_add acc (Re (get_at qs (IdxMap i i)))
    else acc) R_zero.

(** Modelled from the spec: [ConditionalMul] is not among the sources.
    Section 4.B: "scale rho by 1/p_b on the surviving block and zero the
    complementary block.  The implementation fuses this by a single
    conditional-multiply kernel over the packed triangle": the stored entry
    (i,j) is multiplied by [succ_coeff] when both i and j satisfy
    [(. & mask) == condi], and by [fail_coeff] otherwise.  The result
    replaces the stored entries of [des]. *)
Definition ConditionalMul (src des : buffer) (mask condi : N)
    (succ_coeff fail_coeff : C) (dim : N) : buffer :=
  triangle (fun i j : nat =>
              let i := N.of_nat i in
              let j := N.of_nat j in
              if (N.land i mask =? condi) && (N.land j mask =? condi)
              then Cmul (get_at src (IdxMap i j)) succ_coeff
              else Cmul (get_at src (IdxMap i j)) fail_coeff)
           (N.to_nat dim)
  ++ drop (packed_len dim) des.

(** The marginal of outcome 1 on qubit [q], in the spec's words: the sum
    of the diagonal entries rho[r,r] over the indices r with bit [q] set. *)
Definition marginal_one (qs : buffer) (q dim : N) : real :=
  for_N dim (fun r acc =>
    if N.testbit r q then R_add acc (Re (get_at qs (IdxMap r r))) else acc)
    R_zero.

End State.

Section Container.
Context {CO : CalcOps} {PB : PolicyBase} {CB : Collaborators}.

(** [ApplyMeasure].  The [assert(gate->is_measure_)] holds at both call
    sites ([ApplyGate] and [ApplyCircuit] test the flag first).  A
    measurement gate holds its qubit in [obj_qubits_[0]]; on a record with
    no object qubit the C++ read is undefined, the model reads 0 there,
    and such a record is outside what is proved below. *)
Definition ApplyMeasure (gate : BasicGate) (st : DensityMatrixState)
  : N * DensityMatrixState :=
  let q := List.nth 0 (obj_qubits_ gate) 0 in
  let one_mask := u64 (N.shiftl 1 q) in
  let one_amp :=
    DiagonalConditionalCollect (qs st) one_mask one_mask true (dim st) in
  let '(u, eng) := uniform01 (rnd_eng_ st) in
  let collapse_mask := u64 (N.shiftl (if R_ltb u one_amp then 1 else 0) q) in
  let norm_fact : C :=
    (if collapse_mask =? 0 then R_div R_one (R_sub R_one one_amp)
     else R_div R_one one_amp, R_zero) in
  let qs' :=
    ConditionalMul (qs st) (qs st) one_mask collapse_mask norm_fact C_zero
                   (dim st) in
  (if collapse_mask =? 0 then 0 else 1, with_rnd (with_qs st qs') eng).

Definition ApplyChannel (gate : BasicGate) (st : DensityMatrixState)
  : result DensityMatrixState :=
  let objs := obj_qubits_ gate in
  if String.eqb (name_ gate) cAD then
    Ok (with_qs st (ApplyAmplitudeDamping (qs st) objs (damping_coeff_ gate)
                                          (dim st)))
  else if String.eqb (name_ gate) cPD then
    Ok (with_qs st (ApplyPhaseDamping (qs st) objs (damping_coeff_ gate)
                                      (dim st)))
  else if String.eqb (name_ gate) cPL then
    Ok (with_qs st (ApplyPauli (qs st) objs (probs_ gate) (dim st)))
  else if negb (length (kraus_operator_set_ gate) =? 0)%nat then
    Ok (with_qs st (ApplyKraus (qs st) objs (kraus_operator_set_ gate)
                               (dim st)))
  else if String.eqb (name_ gate) hcAD then
    Ok (with_qs st (ApplyHermitianAmplitudeDamping (qs st) objs
                      (damping_coeff_ gate) (dim st)))
  else Err (RuntimeError "This noise channel not implemented.").

(** [ApplyGate].  The value returned is the measured bit, or 2: "qubit
    should be 1 or 0, 2 means nothing". *)
Definition ApplyGate (gate : BasicGate) (pr : ParameterResolver) (diff : bool)
    (st : DensityMatrixState) : result (N * DensityMatrixState) :=
  let name := name_ gate in
  let objs := obj_qubits_ gate in
  let ctrls := ctrl_qubits_ gate in
  let fixed (kernel : buffer -> list N -> list N -> N -> buffer) :=
    Ok (2, with_qs st (kernel (qs st) objs ctrls (dim st))) in
  let rotation (kernel : buffer -> list N -> list N -> real -> N -> bool
                         -> buffer) :=
    let val := applied_value_ gate in
    let '(diff, val) :=
      if negb (parameterized_ gate) then (false, val)
      else (diff, const_value (Combination (params_ gate) pr)) in
    Ok (2, with_qs st (kernel (qs st) objs ctrls val (dim st) diff)) in
  if String.eqb name gI then Ok (2, st)
  else if String.eqb name gX then fixed ApplyX
  else if String.eqb name gCNOT then
    let obj_qubits := [List.nth 0 objs 0] in
    let ctrl_qubits := ctrls ++ tail objs in
    Ok (2, with_qs st (ApplyX (qs st) obj_qubits ctrl_qubits (dim st)))
  else if String.eqb name gY then fixed ApplyY
  else if String.eqb name gZ then fixed ApplyZ
  else if String.eqb name gH then fixed ApplyH
  else if String.eqb name gS then
    if daggered_ gate then fixed ApplySdag else fixed ApplySGate
  else if String.eqb name gT then
    if daggered_ gate then fixed ApplyTdag else fixed ApplyT
  else if String.eqb name gSWAP then fixed ApplySWAP
  else if String.eqb name gISWAP then fixed ApplyISWAP
  else if String.eqb name gRX then rotation ApplyRX
  else if String.eqb name gRY then rotation ApplyRY
  else if String.eqb name gRZ then rotation ApplyRZ
  else if String.eqb name gXX then rotation ApplyXX
  else if String.eqb name gZZ then rotation ApplyZZ
  else if String.eqb name gYY then rotation ApplyYY
  else if String.eqb name gPS then rotation ApplyPS
  else if is_measure_ gate then Ok (ApplyMeasure gate st)
  else if is_channel_ gate then
    do st' <- ApplyChannel gate st; Ok (2, st')
  else Err (InvalidArgument ("gate " +:+ name +:+ " not implement.")).

Definition ExpectDiffGate (dens_matrix ham_matrix : buffer) (gate : BasicGate)
    (dim : N) : result C :=
  let name := name_ gate in
  let objs := obj_qubits_ gate in
  let ctrls := ctrl_qubits_ gate in
  if String.eqb name gRX then
    Ok (ExpectDiffRX dens_matrix ham_matrix objs ctrls dim)
  else if String.eqb name gRY then
    Ok (ExpectDiffRY dens_matrix ham_matrix objs ctrls dim)
  else if String.eqb name gRZ then
    Ok (ExpectDiffRZ dens_matrix ham_matrix objs ctrls dim)
  else if String.eqb name gXX then
    Ok (ExpectDiffXX dens_matrix ham_matrix objs ctrls dim)
  else if String.eqb name gZZ then
    Ok (ExpectDiffZZ dens_matrix ham_matrix objs ctrls dim)
  else if String.eqb name gYY then
    Ok (ExpectDiffYY dens_matrix ham_matrix objs ctrls dim)
  else if String.eqb name gPS then
    Ok (ExpectDiffPS dens_matrix ham_matrix objs ctrls dim)
  else Err (InvalidArgument ("gate " +:+ name +:+ " not implement.")).

(** One iteration of the loop of [ApplyCircuit]. *)
Definition ApplyCircuit_step (pr : ParameterResolver) (g : BasicGate)
    (acc : gmap string N * DensityMatrixState)
  : result (gmap string N * DensityMatrixState) :=
  let '(result, st) := acc in
  if is_measure_ g then
    let '(bit, st') := ApplyMeasure g st in
    Ok (<[name_ g := bit]> result, st')
  else
    do '(_, st') <- ApplyGate g pr false st;
    Ok (result, st').

Definition ApplyCircuit (circ : circuit_t) (pr : ParameterResolver)
    (st : DensityMatrixState) : result (gmap string N * DensityMatrixState) :=
  foldM (ApplyCircuit_step pr) circ (∅, st).

(** The names [ApplyGate] tests, in its order. *)
Definition named_gate (name : string) : bool :=
  existsb (String.eqb name)
    [gI; gX; gCNOT; gY; gZ; gH; gS; gT; gSWAP; gISWAP; gRX; gRY; gRZ; gXX;
     gZZ; gYY; gPS].

(** The channels [ApplyChannel] implements. *)
Definition known_channel (gate : BasicGate) : bool :=
  String.eqb (name_ gate) cAD || String.eqb (name_ gate) cPD
  || String.eqb (name_ gate) cPL
  || negb (length (kraus_operator_set_ gate) =? 0)%nat
  || String.eqb (name_ gate) hcAD.

(** The gates [ApplyGate] has a branch for. *)
Definition dispatchable (gate : BasicGate) : bool :=
  named_gate (name_ gate) || is_measure_ gate
  || (is_channel_ gate && known_channel gate).

(** An identity gate: a record named [gI], with no qubits and no
    parameters. *)
Definition identity_gate : BasicGate :=
  {| name_ := gI; obj_qubits_ := []; ctrl_qubits_ := []; daggered_ := false;
     parameterized_ := false; applied_value_ := R_zero;
     params_ := {| data_ := ∅; const_value := R_zero;
                   no_grad_parameters_ := ∅ |};
     is_measure_ := false; is_channel_ := false; damping_coeff_ := R_zero;
     probs_ := []; kraus_operator_set_ := [] |}.

(** What a call leaves of the state apart from the buffer and the
    engine. *)
Definition same_shape (st st' : DensityMatrixState) : Prop :=
  n_qubits st' = n_qubits st /\ dim st' = dim st /\ seed st' = seed st.

End Container.

(* ================================================================== *)
(** * The gradient engine *)

Section AccumulateShape.
Context {RO : RingOps}.

(** The entry of [f_and_g] a parameter index is accumulated into. *)
Definition slot (idx : N) : nat := N.to_nat (u64 (1 + idx)).

(** The shape shared by the two accumulation statements. *)
Definition accumulate_step (data : gmap string real) (p_map : gmap string N)
    (term : real -> real) (it : string) (f_and_g : list C) : result (list C) :=
  do coeff <- map_at data it;
  do idx <- map_at p_map it;
  vec_update f_and_g (u64 (1 + idx)) (fun x => Cadd_real x (term coeff)).

End AccumulateShape.

(** How a call that starts threads can end: it returns; a failure reaches
    the caller; or a failure leaves a task that runs in a [std::thread],
    where an exception that escapes calls [std::terminate]. *)
Inductive outcome (A : Type) : Type :=
| Returned (a : A)
| Raised (e : error)
| Aborted (e : error).
Arguments Returned {A} a.
Arguments Raised {A} e.
Arguments Aborted {A} e.

(** Lines 433-441 and 586-594: the bounds [start], [end] each task
    captures, in the order the tasks are created. *)
Fixpoint tasks_from (offset left : N) (idxs : list N) (end_ : N)
  : list (N * N) :=
  match idxs with
  | [] => []
  | i :: idxs' =>
      let start := end_ in
      let end_ := u64 (start + offset) in
      let end_ := if i <? left then u64 (end_ + 1) else end_ in
      (start, end_) :: tasks_from offset left idxs' end_
  end.

Definition batch_tasks (n_prs batch_threads : N) : list (N * N) :=
  tasks_from (n_prs / batch_threads) (n_prs mod batch_threads)
             (N_range batch_threads) 0.

(** The values of [n] in [for (size_t n = start; n < end; n++)]. *)
Definition task_range (start end_ : N) : list N :=
  map (fun t => start + t) (N_range (end_ - start)).

(** Where the range of task [i - 1] ends when nothing wraps. *)
Definition batch_end (offset left i : N) : N := i * offset + N.min i left.

Section Gradient.
Context {CO : CalcOps} {PB : PolicyBase} {CB : Collaborators}.

(** [g->params_.data_.size() != g->params_.no_grad_parameters_.size()] *)
Definition differentiable (g : BasicGate) : bool :=
  negb (size (data_ (params_ g)) =? size (no_grad_parameters_ (params_ g)))%nat.

(** The parameter-name -> index map: encoder names first, ansatz names
    second, a later name overwriting an earlier equal one. *)
Definition build_p_map (enc_name ans_name : list string) : gmap string N :=
  let p_map :=
    fold_left (fun m '(i, nm) => <[nm := N.of_nat i]> m)
              (combine (seq 0 (length enc_name)) enc_name) ∅ in
  fold_left (fun m '(i, nm) => <[nm := u64 (N.of_nat i + N.of_nat (length enc_name))]> m)
            (combine (seq 0 (length ans_name)) ans_name) p_map.

(** Reversible mode, lines 342 and 387:
    [f_and_g[1 + p_map.at(it)] += 2 * std::real(gi) * -g->params_.data_.at(it)]
    (the right operand of a compound assignment is evaluated first). *)
Definition accumulate_reversible (p_map : gmap string N) (g : BasicGate)
    (gi : C) (it : string) (f_and_g : list C) : result (list C) :=
  do coeff <- map_at (data_ (params_ g)) it;
  do idx <- map_at p_map it;
  vec_update f_and_g (u64 (1 + idx))
    (fun x => Cadd_real x (R_mul (R_mul R_two (Re gi)) (R_opp coeff))).

(** Noise mode, lines 485 and 540:
    [f_and_g[1 + p_map.at(it)] += 2 * std::real(gi) * circ[n]->params_.data_.at(it)] *)
Definition accumulate_noise (p_map : gmap string N) (g : BasicGate)
    (gi : C) (it : string) (f_and_g : list C) : result (list C) :=
  do coeff <- map_at (data_ (params_ g)) it;
  do idx <- map_at p_map it;
  vec_update f_and_g (u64 (1 + idx))
    (fun x => Cadd_real x (R_mul (R_mul R_two (Re gi)) coeff)).

(** [for (auto& it : g->params_.GetRequiresGradParameters()) ...] *)
Definition grad_reversible (p_map : gmap string N) (g : BasicGate) (gi : C)
    (f_and_g : list C) : result (list C) :=
  foldM (accumulate_reversible p_map g gi)
        (GetRequiresGradParameters (params_ g)) f_and_g.

Definition grad_noise (p_map : gmap string N) (g : BasicGate) (gi : C)
    (f_and_g : list C) : result (list C) :=
  foldM (accumulate_noise p_map g gi)
        (GetRequiresGradParameters (params_ g)) f_and_g.

(** [sim.ApplyGate(g, pr)], keeping only the state. *)
Definition step_gate (pr : ParameterResolver) (g : BasicGate)
    (sim : DensityMatrixState) : result DensityMatrixState :=
  do '(_, sim') <- ApplyGate g pr false sim; Ok sim'.

Definition GetExpectationWithReversibleGradOneOne (ham : ham_terms)
    (circ herm_circ : circuit_t) (enc_data : list (list real))
    (ans_data : list real) (enc_name ans_name : list string)
    (this : DensityMatrixState) : result (list C) :=
  let p_map := build_p_map enc_name ans_name in
  do enc0 <- vec_get enc_data 0;
  let pr := SetItems (SetItems empty_resolver enc_name enc0) ans_name ans_data in
  let f_and_g := replicate (1 + size p_map) C_zero in
  let sim_qs := copy_state this in
  do '(_, sim_qs) <- ApplyCircuit circ pr sim_qs;
  let f_and_g :=
    <[0%nat := GetExpectation (qs sim_qs) ham (dim this)]> f_and_g in
  let ham_matrix := HamiltonianMatrix ham (dim this) in
  let sim_ham := state_of_buffer ham_matrix (n_qubits this) (seed this) in
  do '(f_and_g, _, _) <-
    foldM (fun g '(f_and_g, sim_ham, sim_qs) =>
             do f_and_g <-
               (if differentiable g then
                  do gi <- ExpectDiffGate (qs sim_qs) (qs sim_ham) g (dim this);
                  grad_reversible p_map g gi f_and_g
                else Ok f_and_g);
             do sim_ham <- step_gate pr g sim_ham;
             do sim_qs <- step_gate pr g sim_qs;
             Ok (f_and_g, sim_ham, sim_qs))
          herm_circ (f_and_g, sim_ham, sim_qs);
  Ok f_and_g.

(** The loop of the noise mode over [herm_circ] (lines 476-490): the
    counter [n] runs down from [circ.size()], the Hamiltonian side is
    stepped through [herm_circ]. *)
Definition noise_walk_OneOne (this : DensityMatrixState) (circ : circuit_t)
    (pr : ParameterResolver) (p_map : gmap string N) (h : BasicGate)
    (acc : N * list C * DensityMatrixState * DensityMatrixState)
  : result (N * list C * DensityMatrixState * DensityMatrixState) :=
  let '(n, f_and_g, sim_qs, sim_ham) := acc in
  let n := sub64 n 1 in                                         (* --n *)
  do gn <- vec_get circ n;
  do '(f_and_g, sim_qs) <-
    (if differentiable gn then
       do sim_qs <- foldM (step_gate pr) (take (S (N.to_nat n)) circ) sim_qs;
       do gi <- ExpectDiffGate (qs sim_qs) (qs sim_ham) gn (dim this);
       do f_and_g <- grad_noise p_map gn gi f_and_g;
       Ok (f_and_g, State_CopyQS sim_qs (qs this))
     else Ok (f_and_g, sim_qs));
  do sim_ham <- step_gate pr h sim_ham;
  Ok (n, f_and_g, sim_qs, sim_ham).

(** The value lines 473-475 and 527-529 build and do not throw: the
    statement is [std::runtime_error("...");], without [throw]. *)
Definition length_mismatch_value (circ herm_circ : circuit_t) : option error :=
  if negb (length circ =? length herm_circ)%nat then
    Some (RuntimeError
      "In density matrix mode, circ and herm_circ must be the same size.")
  else None.

Definition GetExpectationWithNoiseGradOneOne (ham : ham_terms)
    (circ herm_circ : circuit_t) (pr : ParameterResolver)
    (p_map : gmap string N) (this : DensityMatrixState) : result (list C) :=
  let f_and_g := replicate (1 + size p_map) C_zero in
  let sim_qs := copy_state this in
  do '(_, sim_qs) <- ApplyCircuit circ pr sim_qs;
  let f_and_g :=
    <[0%nat := GetExpectation (qs sim_qs) ham (dim this)]> f_and_g in
  let sim_qs := State_CopyQS sim_qs (qs this) in
  let ham_matrix := HamiltonianMatrix ham (dim this) in
  let sim_ham := state_of_buffer ham_matrix (n_qubits this) (seed this) in
  let _ := length_mismatch_value circ herm_circ in     (* built, then dropped *)
  let n := N.of_nat (length circ) in
  do '(_, f_and_g, _, _) <-
    foldM (noise_walk_OneOne this circ pr p_map) herm_circ
          (n, f_and_g, sim_qs, sim_ham);
  Ok f_and_g.

(** Lines 355-362 and 498-505, the same text in both multi-Hamiltonian
    functions:
    [int max_thread = 15;
     if (n_thread > max_thread) n_thread = max_thread;
     if (n_thread > static_cast<int>(n_hams)) n_thread = n_hams;] *)
Definition clamp_n_thread (n_thread : Z) (n_hams : N) : Z :=
  let max_thread := 15%Z in
  let n_thread := if (max_thread <? n_thread)%Z then max_thread else n_thread in
  if (static_cast_int (Z.of_N n_hams) <? n_thread)%Z
  then static_cast_int (Z.of_N n_hams) else n_thread.

(** [int n_group = n_hams / n_thread; if (n_hams % n_thread) n_group += 1;]
    with [n_hams] a [size_t]. *)
Definition group_count (n_hams : N) (n_thread : Z) : result Z :=
  let d := to_size_t n_thread in
  if d =? 0 then Err (Undefined "integer division by zero")
  else
    let rest := if n_hams mod d =? 0 then 0%Z else 1%Z in
    Ok (static_cast_int (Z.of_N (n_hams / d)) + rest)%Z.

(** [a * b] on [int]: a product outside the range of [int] is undefined. *)
Definition int_mul (a b : Z) : result Z :=
  let p := (a * b)%Z in
  if ((- 2 ^ 31 <=? p) && (p <? 2 ^ 31))%Z then Ok p
  else Err (Undefined "signed integer overflow").

(** [int start = i * n_thread; int end = (i + 1) * n_thread;
     if (end > static_cast<int>(n_hams)) end = n_hams;]
    (lines 371-375 and 514-518).  [i + 1] is at most [n_group] and the
    difference [end - start] of the two results lies in the range of
    [int]. *)
Definition group_bounds (n_hams : N) (n_thread i : Z) : result (Z * Z) :=
  do start <- int_mul i n_thread;
  do end_ <- int_mul (i + 1) n_thread;
  let end_ := if (static_cast_int (Z.of_N n_hams) <? end_)%Z
              then static_cast_int (Z.of_N n_hams) else end_ in
  Ok (start, end_).

(** The values of [j] in [for (int j = start; j < end; j++)]. *)
Definition chunk_indices (start end_ : Z) : list N :=
  map (fun t => Z.to_N (start + Z.of_nat t)) (seq 0 (Z.to_nat (end_ - start))).

(** Lines 376-381 and 519-524: the value entries and the Hamiltonian
    sidecars of one group. *)
Definition load_hams (this : DensityMatrixState) (hams : list ham_terms)
    (sim_qs : DensityMatrixState) (js : list N) (f_and_g : list (list C))
  : result (list (list C) * list DensityMatrixState) :=
  do f_and_g <-
    foldM (fun j f_and_g =>
             do hj <- vec_get hams j;
             vec_update f_and_g j
               (fun row => <[0%nat := GetExpectation (qs sim_qs) hj (dim this)]> row))
          js f_and_g;
  do sim_hams <-
    mapM (fun j =>
            do hj <- vec_get hams j;
            Ok (state_of_buffer (HamiltonianMatrix hj (dim this))
                                (n_qubits this) (seed this))) js;
  Ok (f_and_g, sim_hams).

(** The accumulation of one gate into the rows of one group. *)
Definition grad_rows
    (grad : gmap string N -> BasicGate -> C -> list C -> result (list C))
    (this sim_qs : DensityMatrixState) (p_map : gmap string N) (g : BasicGate)
    (js : list N) (sim_hams : list DensityMatrixState)
    (f_and_g : list (list C)) : result (list (list C)) :=
  foldM (fun '(j, sim_ham) f_and_g =>
           do gi <- ExpectDiffGate (qs sim_qs) (qs sim_ham) g (dim this);
           do row <- vec_get f_and_g j;
           do row' <- grad p_map g gi row;
           vec_update f_and_g j (fun _ => row'))
        (combine js sim_hams) f_and_g.

Definition GetExpectationWithReversibleGradOneMulti (hams : list ham_terms)
    (circ herm_circ : circuit_t) (pr : ParameterResolver)
    (p_map : gmap string N) (n_thread : Z) (this : DensityMatrixState)
  : result (list (list C)) :=
  let n_hams := N.of_nat (length hams) in
  let n_thread := clamp_n_thread n_thread n_hams in
  let f_and_g := replicate (length hams) (replicate (1 + size p_map) C_zero) in
  let sim_qs := copy_state this in
  do '(_, sim_qs) <- ApplyCircuit circ pr sim_qs;
  do n_group <- group_count n_hams n_thread;
  do '(f_and_g, _) <-
    foldM (fun i '(f_and_g, sim_qs) =>
             do '(start, end_) <- group_bounds n_hams n_thread (Z.of_nat i);
             if (end_ - start <? 0)%Z then Err LengthError else
             let js := chunk_indices start end_ in
             do '(f_and_g, sim_hams) <- load_hams this hams sim_qs js f_and_g;
             do '(f_and_g, _, sim_qs) <-
               foldM (fun g '(f_and_g, sim_hams, sim_qs) =>
                        do f_and_g <-
                          (if differentiable g then
                             grad_rows grad_reversible this sim_qs p_map g js
                                       sim_hams f_and_g
                           else Ok f_and_g);
                        do sim_hams <- mapM (step_gate pr g) sim_hams;
                        do sim_qs <- step_gate pr g sim_qs;
                        Ok (f_and_g, sim_hams, sim_qs))
                     herm_circ (f_and_g, sim_hams, sim_qs);
             Ok (f_and_g, sim_qs))
          (seq 0 (Z.to_nat n_group)) (f_and_g, sim_qs);
  Ok f_and_g.

(** The loop over [herm_circ] inside one group of the noise mode (lines
    530-548). *)
Definition noise_walk_OneMulti (this : DensityMatrixState) (circ : circuit_t)
    (pr : ParameterResolver) (p_map : gmap string N) (js : list N)
    (h : BasicGate)
    (acc : N * list (list C) * DensityMatrixState * list DensityMatrixState)
  : result (N * list (list C) * DensityMatrixState * list DensityMatrixState) :=
  let '(n, f_and_g, sim_qs, sim_hams) := acc in
  let n := sub64 n 1 in                                         (* --n *)
  do gn <- vec_get circ n;
  do '(f_and_g, sim_qs) <-
    (if differentiable gn then
       do sim_qs <- foldM (step_gate pr) (take (S (N.to_nat n)) circ) sim_qs;
       do f_and_g <- grad_rows grad_noise this sim_qs p_map gn js sim_hams
                               f_and_g;
       Ok (f_and_g, State_CopyQS sim_qs (qs this))
     else Ok (f_and_g, sim_qs));
  do sim_hams <- mapM (step_gate pr h) sim_hams;
  Ok (n, f_and_g, sim_qs, sim_hams).

Definition GetExpectationWithNoiseGradOneMulti (hams : list ham_terms)
    (circ herm_circ : circuit_t) (pr : ParameterResolver)
    (p_map : gmap string N) (n_thread : Z) (this : DensityMatrixState)
  : result (list (list C)) :=
  let n_hams := N.of_nat (length hams) in
  let n_thread := clamp_n_thread n_thread n_hams in
  let f_and_g := replicate (length hams) (replicate (1 + size p_map) C_zero) in
  let sim_qs := copy_state this in
  do '(_, sim_qs) <- ApplyCircuit circ pr sim_qs;
  do n_group <- group_count n_hams n_thread;
  do '(f_and_g, _) <-
    foldM (fun i '(f_and_g, sim_qs) =>
             do '(start, end_) <- group_bounds n_hams n_thread (Z.of_nat i);
             if (end_ - start <? 0)%Z then Err LengthError else
             let js := chunk_indices start end_ in
             do '(f_and_g, sim_hams) <- load_hams this hams sim_qs js f_and_g;
             let sim_qs := State_CopyQS sim_qs (qs this) in
             let _ := length_mismatch_value circ herm_circ in
             let n := N.of_nat (length circ) in
             do '(_, f_and_g, sim_qs, _) <-
               foldM (noise_walk_OneMulti this circ pr p_map js) herm_circ
                     (n, f_and_g, sim_qs, sim_hams);
             Ok (f_and_g, sim_qs))
          (seq 0 (Z.to_nat n_group)) (f_and_g, sim_qs);
  Ok f_and_g.

(** The two batch functions (lines 400-458 and 553-611) differ only in
    the multi-Hamiltonian function they call, here [one_multi].  The tasks
    write distinct rows of [output] and only read this state, so their
    interleaving does not matter; they are run in the order they are
    created.  [tasks.reserve] refuses a count above the largest vector of
    [std::thread] (8 bytes each); [mea_threads] is a [size_t] passed as an
    [int]. *)
Definition grad_MultiMulti
    (one_multi : ParameterResolver -> gmap string N -> Z
                 -> result (list (list C)))
    (hams : list ham_terms) (enc_data : list (list real))
    (ans_data : list real) (enc_name ans_name : list string)
    (batch_threads mea_threads : N) : outcome (list (list (list C))) :=
  let n_prs := N.of_nat (length enc_data) in
  let n_params :=
    u64 (N.of_nat (length enc_name) + N.of_nat (length ans_name)) in
  let output :=
    replicate (length enc_data)
      (replicate (length hams)
         (replicate (N.to_nat (u64 (n_params + 1))) C_zero)) in
  let p_map := build_p_map enc_name ans_name in
  let run (n : N) (output : list (list (list C))) :=
    do enc_n <- vec_get enc_data n;
    let pr :=
      SetItems (SetItems empty_resolver enc_name enc_n) ans_name ans_data in
    do f_g <- one_multi pr p_map (static_cast_int (Z.of_N mea_threads));
    vec_update output n (fun _ => f_g) in
  if n_prs =? 1 then
    match run 0 output with
    | Ok output => Returned output
    | Err e => Raised e
    end
  else if 2 ^ 60 <=? batch_threads then Raised LengthError
  else if batch_threads =? 0 then
    Raised (Undefined "integer division by zero")
  else
    match foldM (fun '(start, end_) output =>
                   foldM run (task_range start end_) output)
                (batch_tasks n_prs batch_threads) output with
    | Ok output => Returned output
    | Err e => Aborted e
    end.

Definition GetExpectationWithReversibleGradMultiMulti
    (hams : list ham_terms) (circ herm_circ : circuit_t)
    (enc_data : list (list real)) (ans_data : list real)
    (enc_name ans_name : list string) (batch_threads mea_threads : N)
    (this : DensityMatrixState) : outcome (list (list (list C))) :=
  grad_MultiMulti
    (fun pr p_map n_thread =>
       GetExpectationWithReversibleGradOneMulti hams circ herm_circ pr p_map
         n_thread this)
    hams enc_data ans_data enc_name ans_name batch_threads mea_threads.

Definition GetExpectationWithNoiseGradMultiMulti
    (hams : list ham_terms) (circ herm_circ : circuit_t)
    (enc_data : list (list real)) (ans_data : list real)
    (enc_name ans_name : list string) (batch_threads mea_threads : N)
    (this : DensityMatrixState) : outcome (list (list (list C))) :=
  grad_MultiMulti
    (fun pr p_map n_thread =>
       GetExpectationWithNoiseGradOneMulti hams circ herm_circ pr p_map
         n_thread this)
    hams enc_data ans_data enc_name ans_name batch_threads mea_threads.

(** [m] rows of [k] entries each. *)
Definition rows_shape (m k : nat) (rows : list (list C)) : Prop :=
  length rows = m /\ Forall (fun row => length row = k) rows.

(** The value entry [f_and_g[r][0]]. *)
Definition value_entry (rows : list (list C)) (r : nat) : option C :=
  match rows !! r with
  | Some row => row !! 0%nat
  | None => None
  end.

(** A state with the dimension of [this] whose stored entries are those of
    the buffer of [this]. *)
Definition rewound (this s : DensityMatrixState) : Prop :=
  dim s = dim this
  /\ exists tail, qs s = take (packed_len (dim this)) (qs this) ++ tail.

(** What the spec asks of the accumulation for one gate: for every
    parameter [it] of the gate that requires a gradient, in order, the
    entry [1 + p_map[it]] grows by [2 * Re(gi) * sign(coefficient of it)],
    the sign being minus in the reversible mode and plus in the noise
    mode. *)
Definition spec_accumulate (sign : real -> real) (p_map : gmap string N)
    (g : BasicGate) (gi : C) (f_and_g : list C) : list C :=
  fold_left
    (fun acc it =>
       match data_ (params_ g) !! it, p_map !! it with
       | Some coeff, Some idx =>
           alter (fun x => Cadd_real x
                             (R_mul (R_mul R_two (Re gi)) (sign coeff)))
                 (slot idx) acc
       | _, _ => acc
       end)
    (GetRequiresGradParameters (params_ g)) f_and_g.

(** The counter [n] of the noise-mode loop after [k] iterations. *)
Definition walk_counter (circ : circuit_t) (k : nat) : N :=
  Nat.iter k (fun n => sub64 n 1) (N.of_nat (length circ)).

(** The Hamiltonian sidecar a gradient function starts from. *)
Definition ham_state (this : DensityMatrixState) (ham : ham_terms)
  : DensityMatrixState :=
  state_of_buffer (HamiltonianMatrix ham (dim this)) (n_qubits this)
                  (seed this).
(** The state [sim_qs] after [i] further passes through [herm_circ]. *)
Definition rewind (pr : ParameterResolver) (herm_circ : circuit_t)
    (sim_qs : DensityMatrixState) (i : nat) : result DensityMatrixState :=
  Nat.iter i (fun r => do s <- r; foldM (step_gate pr) herm_circ s) (Ok sim_qs).

End Gradient.

(* ================================================================== *)
(** * The sampling engine *)

Section Sampling.
Context {CO : CalcOps} {PB : PolicyBase} {CB : Collaborators}.

(** Lines 625-628: [res1[val] = res0[name]] for every entry of [key_map];
    [res0[name]] reads 0 for a name no measurement recorded. *)
Definition reassemble (key_map : gmap string N) (res0 : gmap string N)
  : result (list N) :=
  foldM (fun '(name, val) res1 =>
           vec_update res1 val (fun _ => default 0 (res0 !! name)))
        (map_items key_map) (replicate (size key_map) 0).

(** Lines 629-631: the row of shot [i] is written into the flat output. *)
Definition write_row (i key_size : N) (res1 res : list N) : result (list N) :=
  foldM (fun j res =>
           do x <- vec_get res1 j;
           vec_update res (u64 (u64 (i * key_size) + j)) (fun _ => x))
        (N_range key_size) res.

(** The state a shot starts from: a new state on [n_qubits] with the drawn
    seed, its buffer overwritten with this state's. *)
Definition shot_state (this : DensityMatrixState) (sd : N)
  : DensityMatrixState :=
  let sim := new_state (n_qubits this) sd in
  with_qs sim (CopyQS (qs sim) (qs this) (dim this)).

(** What it is for [sim] to be a new state holding a copy of this one's
    matrix: the qubit count of this state, the dimension computed from it,
    the seed [sd] and an engine started from it, and the stored entries of
    this state's buffer. *)
Definition fresh_copy (this : DensityMatrixState) (sd : N)
    (sim : DensityMatrixState) : Prop :=
  n_qubits sim = n_qubits this
  /\ dim sim = u64 (N.shiftl 1 (n_qubits this))
  /\ seed sim = sd
  /\ rnd_eng_ sim = mk_engine sd
  /\ take (packed_len (dim this)) (qs sim)
     = take (packed_len (dim this)) (qs this).

(** The local engine [rnd_eng] before shot [s], and the seed shot [s]
    draws from it. *)
Definition shot_engine (seed : N) (s : nat) : RndEngine :=
  Nat.iter s (fun e => snd (uniform_seed e)) (mk_engine seed).
Definition shot_seed (seed : N) (s : nat) : N :=
  fst (uniform_seed (shot_engine seed s)).

Definition Sampling_shot (this : DensityMatrixState) (circ : circuit_t)
    (pr : ParameterResolver) (key_map : gmap string N) (i : N)
    (acc : list N * RndEngine) : result (list N * RndEngine) :=
  let '(res, rnd_eng) := acc in
  let '(sd, rnd_eng) := uniform_seed rnd_eng in
  let sim := shot_state this sd in
  do '(res0, _) <- ApplyCircuit circ pr sim;
  do res1 <- reassemble key_map res0;
  do res <- write_row i (N.of_nat (size key_map)) res1 res;
  Ok (res, rnd_eng).

(** [Sampling]: the flat output, and this state as the call leaves it. *)
Definition Sampling (circ : circuit_t) (pr : ParameterResolver) (shots : N)
    (key_map : gmap string N) (seed : N) (this : DensityMatrixState)
  : result (list N * DensityMatrixState) :=
  let key_size := N.of_nat (size key_map) in
  let res := replicate (N.to_nat (u64 (shots * key_size))) 0 in
  let rnd_eng := mk_engine seed in
  do '(res, _) <-
    foldM (Sampling_shot this circ pr key_map) (N_range shots) (res, rnd_eng);
  Ok (res, this).

End Sampling.

(* ================================================================== *)
(** * What the spec asks of a Z-like kernel *)

Section ZLikeSpec.
Context {RO : RingOps}.

(** The diagonal of the controlled gate G: the value [val] on the indices
    whose object bit is set and whose control bits are all set, 1
    elsewhere. *)
Definition zlike_diag (mask : SingleQubitGateMask_t) (val : C) (x : N) : C :=
  if negb (N.land x (obj_mask mask) =? 0)
     && (N.land x (ctrl_mask mask) =? ctrl_mask mask)
  then val else C_one.

(** Section 4.B in the spec's words, "an in-place transformation
    rho <- G rho G+": the stored entry (r,c) becomes
    G[r,r] * rho[r,c] * conj(G[c,c]). *)
Definition spec_ZLike (qs : buffer) (objs ctrls : list N) (val : C) (dim : N)
  : buffer :=
  let mask := SingleQubitGateMask objs ctrls in
  concat
    (map (fun r =>
            map (fun c =>
                   Cmul (Cmul (zlike_diag mask val r) (get_at qs (IdxMap r c)))
                        (Cconj (zlike_diag mask val c)))
                (N_range (r + 1)))
         (N_range dim)).

End ZLikeSpec.

(* ================================================================== *)
(** * Concrete scalars and collaborators *)

(** Exact integers: enough for the Z, S and S-dagger kernels, whose
    multipliers are 1, -1, i and -i. *)
Definition Z_RingOps : RingOps :=
  {| real := Z; R_zero := 0%Z; R_one := 1%Z; R_add := Z.add; R_mul := Z.mul;
     R_sub := Z.sub; R_opp := Z.opp |}.

(** The real numbers. *)
Definition R_RingOps : RingOps :=
  {| real := R; R_zero := 0%R; R_one := 1%R; R_add := Rplus; R_mul := Rmult;
     R_sub := Rminus; R_opp := Ropp |}.

Definition R_CalcOps : CalcOps :=
  {| calc_ring := R_RingOps;
     R_div := Rdiv;
     R_ltb := fun x y => if Rlt_dec x y then true else false;
     R_sqrt := sqrt; R_cos := cos; R_sin := sin |}.

(** The all-ones Hermitian matrix on [n] qubits, packed: 2^n times the
    projector on the uniform superposition. *)
Definition all_ones (dim : N) : list (@C Z_RingOps) :=
  replicate (N.to_nat (dim * (dim + 1) / 2)) (1%Z, 0%Z).

(** A policy whose missing kernels leave the buffer alone and whose
    expectation kernels return 0: a stand-in to run the container on. *)
Definition idle_policy : @PolicyBase R_CalcOps :=
  {| ham_terms := unit;
     ApplyX := fun qs _ _ _ => qs;
     ApplyY := fun qs _ _ _ => qs;
     ApplyH := fun qs _ _ _ => qs;
     ApplySWAP := fun qs _ _ _ => qs;
     ApplyISWAP := fun qs _ _ _ => qs;
     ApplyRX := fun qs _ _ _ _ _ => qs;
     ApplyRY := fun qs _ _ _ _ _ => qs;
     ApplyRZ := fun qs _ _ _ _ _ => qs;
     ApplyXX := fun qs _ _ _ _ _ => qs;
     ApplyYY := fun qs _ _ _ _ _ => qs;
     ApplyZZ := fun qs _ _ _ _ _ => qs;
     ApplyAmplitudeDamping := fun qs _ _ _ => qs;
     ApplyPhaseDamping := fun qs _ _ _ => qs;
     ApplyPauli := fun qs _ _ _ => qs;
     ApplyKraus := fun qs _ _ _ => qs;
     ApplyHermitianAmplitudeDamping := fun qs _ _ _ => qs;
     SetToZeroExcept := fun qs _ _ => qs;
     GetExpectation := fun _ _ _ => C_zero;
     HamiltonianMatrix := fun _ dim => replicate (N.to_nat (dim * (dim + 1) / 2)) C_zero;
     ExpectDiffRX := fun _ _ _ _ _ => C_one;
     ExpectDiffRY := fun _ _ _ _ _ => C_one;
     ExpectDiffRZ := fun _ _ _ _ _ => C_one;
     ExpectDiffXX := fun _ _ _ _ _ => C_one;
     ExpectDiffYY := fun _ _ _ _ _ => C_one;
     ExpectDiffZZ := fun _ _ _ _ _ => C_one;
     ExpectDiffPS := fun _ _ _ _ _ => C_one |}.

(** The names of ops/gates.hpp, a resolver that returns the names of
    [data_] outside [no_grad_parameters_], and a counter for a random
    engine (every draw of the unit interval is 1/2). *)
Definition plain_collaborators : @Collaborators R_RingOps :=
  {| gI := "I"; gX := "X"; gCNOT := "CNOT"; gY := "Y"; gZ := "Z"; gH := "H";
     gS := "S"; gT := "T"; gSWAP := "SWAP"; gISWAP := "ISWAP";
     gRX := "RX"; gRY := "RY"; gRZ := "RZ"; gXX := "XX"; gZZ := "ZZ";
     gYY := "YY"; gPS := "PS";
     cAD := "ADC"; cPD := "PDC"; cPL := "PL"; hcAD := "hADC";
     Combination := fun p _ => p;
     GetRequiresGradParameters := fun p =>
       filter (fun nm => nm ∉ no_grad_parameters_ p) (map fst (map_items (data_ p)));
     empty_resolver := @Build_ParameterResolver R_RingOps ∅ 0%R ∅;
     SetItems := fun p names values =>
       @Build_ParameterResolver R_RingOps
         (fold_left (fun m '(nm, v) => <[nm := v]> m)
                    (combine names values) (data_ p))
         (const_value p) (no_grad_parameters_ p);
     RndEngine := N;
     mk_engine := fun seed => seed;
     uniform01 := fun e => ((1 / 2)%R : @real R_RingOps, e + 1);
     uniform_seed := fun e => (1 + e mod (2 ^ 20 - 1), e + 1);
     InitState := fun dim =>
       (@C_one R_RingOps)
         :: replicate (N.to_nat (dim * (dim + 1) / 2) - 1) (@C_zero R_RingOps) |}.

(** A gate RX(3 * theta) with [theta] requiring a gradient, the parameter
    map [theta -> 0], and two entries of [f_and_g]. *)
Definition rx_theta : @BasicGate R_RingOps :=
  @Build_BasicGate R_RingOps "RX" [0] [] false true 0%R
    (@Build_ParameterResolver R_RingOps {[ "theta" := 3%R ]} 0%R ∅)
    false false 0%R [] [].

(** A measurement gate on qubit 0, recorded under the key [q0]. *)
Definition measure_q0 : @BasicGate R_RingOps :=
  @Build_BasicGate R_RingOps "q0" [0] [] false false 0%R
    (@Build_ParameterResolver R_RingOps ∅ 0%R ∅)
    true false 0%R [] [].

(** One qubit in the state |+><+|. *)
Definition plus_state : @DensityMatrixState R_CalcOps plain_collaborators :=
  @Build_DensityMatrixState R_CalcOps plain_collaborators
    [(1 / 2, 0); (1 / 2, 0); (1 / 2, 0)]%R 1 2 0 0.

(** One qubit in the state |1><1|: a measurement of qubit 0 gives 1. *)
Definition one_state : @DensityMatrixState R_CalcOps plain_collaborators :=
  @Build_DensityMatrixState R_CalcOps plain_collaborators
    [(0, 0); (0, 0); (1, 0)]%R 1 2 0 0.

(** A policy that records what the dispatcher hands to the RX kernel: the
    kernel puts the angle and the [diff] flag (1 when set) in front of the
    buffer; the expectation kernel returns the first entry of the buffer.
    The other kernels are those of [idle_policy]. *)
Definition probe_policy : @PolicyBase R_CalcOps :=
  @Build_PolicyBase R_CalcOps unit
    (fun qs _ _ _ => qs) (fun qs _ _ _ => qs) (fun qs _ _ _ => qs)
    (fun qs _ _ _ => qs) (fun qs _ _ _ => qs)
    (fun qs _ _ val _ diff => (val, if diff then 1%R else 0%R) :: qs)
    (fun qs _ _ _ _ _ => qs) (fun qs _ _ _ _ _ => qs)
    (fun qs _ _ _ _ _ => qs) (fun qs _ _ _ _ _ => qs)
    (fun qs _ _ _ _ _ => qs)
    (fun qs _ _ _ => qs) (fun qs _ _ _ => qs) (fun qs _ _ _ => qs)
    (fun qs _ _ _ => qs) (fun qs _ _ _ => qs)
    (fun qs _ _ => qs)
    (fun qs _ _ => List.nth 0 qs C_zero)
    (fun _ dim => replicate (N.to_nat (dim * (dim + 1) / 2)) C_zero)
    (fun _ _ _ _ _ => C_one) (fun _ _ _ _ _ => C_one)
    (fun _ _ _ _ _ => C_one) (fun _ _ _ _ _ => C_one)
    (fun _ _ _ _ _ => C_one) (fun _ _ _ _ _ => C_one)
    (fun _ _ _ _ _ => C_one).

(** A gate RX(2) with a fixed angle: not parameterized, no parameters. *)
Definition rx_fixed : @BasicGate R_RingOps :=
  @Build_BasicGate R_RingOps "RX" [0] [] false false 2%R
    (@Build_ParameterResolver R_RingOps ∅ 0%R ∅)
    false false 0%R [] [].

(** A gate under a name the dispatcher has no branch for, neither a
    measurement nor a channel. *)
Definition unknown_gate : @BasicGate R_RingOps :=
  @Build_BasicGate R_RingOps "U3" [0] [] false false 0%R
    (@Build_ParameterResolver R_RingOps ∅ 0%R ∅)
    false false 0%R [] [].

(* ================================================================== *)
(** * Properties *)

(** ** Complex arithmetic over a commutative ring *)

Section ComplexLaws.
Context {RO : RingOps}.
Hypothesis Rth : ring_theory R_zero R_one R_add R_mul R_sub R_opp eq.
Add Ring calc_ring_laws : Rth.

Lemma Cmul_assoc (x y z : C) : Cmul (Cmul x y) z = Cmul x (Cmul y z).
Proof.
  destruct x, y, z. unfold Cmul, Re, Im. simpl. f_equal; ring.
Qed.

Lemma Cmul_one (x : C) : Cmul x C_one = x.
Proof. destruct x. unfold Cmul, C_one, Re, Im. simpl. f_equal; ring. Qed.

Lemma Cmul_zero (x : C) : Cmul x C_zero = C_zero.
Proof. destruct x. unfold Cmul, C_zero, Re, Im. simpl. f_equal; ring. Qed.

Lemma Cscale_Cmul (x : C) (r : real) : Cscale x r = Cmul x (r, R_zero).
Proof. destruct x. unfold Cscale, Cmul, Re, Im. simpl. f_equal; ring. Qed.

Lemma Cmul_four (a b c d : C) :
  Cmul (Cmul a b) (Cmul c d) = Cmul (Cmul a c) (Cmul b d).
Proof.
  destruct a, b, c, d. unfold Cmul, Re, Im. simpl. f_equal; ring.
Qed.

Lemma Cconj_mul_one (x y : C) :
  Cmul x y = C_one -> Cmul (Cconj x) (Cconj y) = C_one.
Proof.
  destruct x as [a b], y as [c d]. unfold Cmul, Cconj, C_one, Re, Im. simpl.
  intros H. injection H as H1 H2. f_equal.
  - rewrite <- H1. ring.
  - transitivity (R_opp (R_add (R_mul a d) (R_mul b c))); [ring|].
    rewrite H2. ring.
Qed.

Lemma real_mul_one (r r' : real) :
  R_mul r r' = R_one -> Cmul (r, R_zero) (r', R_zero) = C_one.
Proof.
  intros H. unfold Cmul, C_one, Re, Im. simpl. f_equal.
  - rewrite <- H. ring.
  - ring.
Qed.

Lemma scales_id : scales (fun q => q) (fun _ => C_one).
Proof.
  intros q i. destruct (q !! i) as [x|]; simpl; [|reflexivity].
  now rewrite Cmul_one.
Qed.

Lemma scales_alter (f : C -> C) (i0 : nat) (c : C) :
  (forall x, f x = Cmul x c) ->
  scales (alter f i0) (fun i => if decide (i = i0) then c else C_one).
Proof.
  intros Hf q i. destruct (decide (i = i0)) as [->|Hne].
  - rewrite list_lookup_alter_eq.
    destruct (q !! i0) as [x|]; simpl; [|reflexivity]. now rewrite Hf.
  - rewrite list_lookup_alter_ne by congruence.
    destruct (q !! i) as [x|]; simpl; [|reflexivity]. now rewrite Cmul_one.
Qed.

Lemma scales_comp (F G : buffer -> buffer) (w v : nat -> C) :
  scales F w -> scales G v ->
  scales (fun q => G (F q)) (fun i => Cmul (w i) (v i)).
Proof.
  intros HF HG q i. rewrite HG, HF.
  destruct (q !! i) as [x|]; simpl; [|reflexivity].
  now rewrite Cmul_assoc.
Qed.

Lemma paired_id : paired (fun q => q) (fun q => q).
Proof.
  exists (fun _ => C_one), (fun _ => C_one).
  split; [apply scales_id|]. split; [apply scales_id|].
  intros _. apply Cmul_one.
Qed.

Lemma paired_comp (F F' G G' : buffer -> buffer) :
  paired F F' -> paired G G' ->
  paired (fun q => G (F q)) (fun q => G' (F' q)).
Proof.
  intros (w & w' & Hw & Hw' & Hi) (v & v' & Hv & Hv' & Hj).
  exists (fun i => Cmul (w i) (v i)), (fun i => Cmul (w' i) (v' i)).
  split; [now apply scales_comp|]. split; [now apply scales_comp|].
  intros i. rewrite Cmul_four, Hi, Hj. apply Cmul_one.
Qed.

Lemma paired_alter (f f' : C -> C) (i0 : nat) (c c' : C) :
  (forall x, f x = Cmul x c) -> (forall x, f' x = Cmul x c') ->
  Cmul c c' = C_one ->
  paired (alter f i0) (alter f' i0).
Proof.
  intros Hf Hf' H.
  exists (fun i => if decide (i = i0) then c else C_one),
         (fun i => if decide (i = i0) then c' else C_one).
  split; [now apply scales_alter|]. split; [now apply scales_alter|].
  intros i. destruct (decide (i = i0)); [exact H | apply Cmul_one].
Qed.

Lemma paired_cancel (F F' : buffer -> buffer) :
  paired F F' -> forall q, F' (F q) = q.
Proof.
  intros (w & w' & Hw & Hw' & Hi) q. apply list_eq. intros i.
  rewrite Hw', Hw. destruct (q !! i) as [x|]; simpl; [|reflexivity].
  now rewrite Cmul_assoc, Hi, Cmul_one.
Qed.

Lemma paired_mul_at (F F' : buffer -> buffer) (i : N) (c c' : C) :
  paired F F' -> Cmul c c' = C_one ->
  paired (fun q => mul_at i c (F q)) (fun q => mul_at i c' (F' q)).
Proof.
  intros HF Hc. unfold mul_at.
  apply (paired_comp F F' _ _ HF).
  now apply (paired_alter _ _ _ c c').
Qed.

Lemma paired_scale_at (F F' : buffer -> buffer) (i : N) (r r' : real) :
  paired F F' -> R_mul r r' = R_one ->
  paired (fun q => scale_at i r (F q)) (fun q => scale_at i r' (F' q)).
Proof.
  intros HF Hr. unfold scale_at.
  apply (paired_comp F F' _ _ HF).
  apply (paired_alter _ _ _ (r, R_zero) (r', R_zero));
    auto using Cscale_Cmul, real_mul_one.
Qed.

Lemma paired_SelfMultiply (F F' : buffer -> buffer) (x y : N) (c c' : C) :
  paired F F' -> Cmul c c' = C_one ->
  paired (fun q => SelfMultiply (F q) x y c)
         (fun q => SelfMultiply (F' q) x y c').
Proof.
  intros HF Hc. unfold SelfMultiply. destruct (y <=? x).
  - now apply paired_mul_at.
  - apply paired_mul_at; [assumption|]. now apply Cconj_mul_one.
Qed.

Lemma paired_for_N (n : N) (body body' : N -> buffer -> buffer) :
  (forall k, paired (body k) (body' k)) ->
  paired (for_N n body) (for_N n body').
Proof.
  intros Hb. unfold for_N. generalize (seq 0 (N.to_nat n)). intros l.
  assert (H : forall F F', paired F F' ->
            paired (fun q => fold_left (fun acc i => body (N.of_nat i) acc) l (F q))
                   (fun q => fold_left (fun acc i => body' (N.of_nat i) acc) l (F' q))).
  { induction l as [|a l IH]; intros F F' HF; simpl; [exact HF|].
    apply (IH (fun q => body (N.of_nat a) (F q))
              (fun q => body' (N.of_nat a) (F' q))).
    now apply paired_comp. }
  exact (H _ _ paired_id).
Qed.

(** Two Z-like kernels with inverse diagonal values undo each other. *)
Lemma paired_ApplyZLike (objs ctrls : list N) (val val' : C) (dim : N) :
  Cmul val val' = C_one ->
  R_mul (Cnorm val) (Cnorm val') = R_one ->
  paired (fun q => ApplyZLike q objs ctrls val dim)
         (fun q => ApplyZLike q objs ctrls val' dim).
Proof.
  intros Hv Hn.
  assert (Hc : Cmul (Cconj val) (Cconj val') = C_one)
    by now apply Cconj_mul_one.
  unfold ApplyZLike, ApplyZLike_with.
  set (mask := SingleQubitGateMask objs ctrls).
  destruct (ctrl_mask mask =? 0).
  - apply paired_for_N. intros k. cbv beta zeta.
    apply paired_for_N. intros l. cbv beta zeta.
    apply paired_SelfMultiply; [|exact Hc].
    apply paired_mul_at; [|exact Hv].
    apply paired_scale_at; [|exact Hn]. apply paired_id.
  - apply paired_for_N. intros k. cbv beta zeta.
    apply paired_for_N. intros l. cbv beta zeta.
    destruct (N.land (expand mask k) (ctrl_mask mask) =? ctrl_mask mask);
      destruct (N.land (expand mask l) (ctrl_mask mask) =? ctrl_mask mask);
      cbn [negb andb].
    + apply paired_scale_at; [|exact Hn]. apply paired_mul_at; [|exact Hv].
      apply paired_SelfMultiply; [|exact Hc].
      apply paired_mul_at; [|exact Hv].
      apply paired_scale_at; [|exact Hn]. apply paired_id.
    + apply paired_scale_at; [|exact Hn]. apply paired_mul_at; [|exact Hv].
      apply paired_mul_at; [|exact Hv]. apply paired_mul_at; [|exact Hv].
      apply paired_id.
    + apply paired_SelfMultiply; [|exact Hc].
      apply paired_mul_at; [|exact Hc]. apply paired_id.
    + apply paired_id.
Qed.

Lemma ApplyZLike_inverse (qs : buffer) (objs ctrls : list N) (val val' : C)
    (dim : N) :
  Cmul val val' = C_one ->
  R_mul (Cnorm val) (Cnorm val') = R_one ->
  ApplyZLike (ApplyZLike qs objs ctrls val dim) objs ctrls val' dim = qs.
Proof.
  intros Hv Hn.
  exact (paired_cancel _ _ (paired_ApplyZLike objs ctrls val val' dim Hv Hn) qs).
Qed.

End ComplexLaws.

(** ** A gate followed by its adjoint *)

Section DaggerRoundtrip.
Context {CO : CalcOps}.
Hypothesis Rth : ring_theory R_zero R_one R_add R_mul R_sub R_opp eq.
(** What is used of [/ std::sqrt(2.0)]: negation commutes with the
    division, and the T gate's diagonal value has modulus one. *)
Hypothesis Hneg :
  R_div (R_opp R_one) (R_sqrt R_two) = R_opp (R_div R_one (R_sqrt R_two)).
Hypothesis Hunit :
  R_add (R_mul (R_div R_one (R_sqrt R_two)) (R_div R_one (R_sqrt R_two)))
        (R_mul (R_div R_one (R_sqrt R_two)) (R_div R_one (R_sqrt R_two)))
  = R_one.
Add Ring calc_ring_laws' : Rth.

(** C6: for every buffer and every choice of object and control qubits,
    ApplySGate followed by ApplySdag, and ApplyT followed by ApplyTdag, on
    the same qubits give the buffer back.  The scalars are exact (a
    commutative ring in which (1/sqrt 2)^2 + (1/sqrt 2)^2 = 1), where
    "within epsilon" is equality. *)
Theorem zlike_dagger_roundtrip (qs : buffer) (objs ctrls : list N) (dim : N) :
  ApplySdag (ApplySGate qs objs ctrls dim) objs ctrls dim = qs
  /\ ApplyTdag (ApplyT qs objs ctrls dim) objs ctrls dim = qs.
Proof.
  split.
  - unfold ApplySdag, ApplySGate. apply (ApplyZLike_inverse Rth).
    + unfold Cmul, C_one, Re, Im. simpl. f_equal; ring.
    + unfold Cnorm, Re, Im. simpl. ring.
  - unfold ApplyTdag, ApplyT, Cdiv_real, Re, Im. simpl. rewrite Hneg.
    set (t := R_div R_one (R_sqrt R_two)) in *.
    apply (ApplyZLike_inverse Rth).
    + unfold Cmul, C_one, Re, Im. simpl. f_equal; [|ring].
      rewrite <- Hunit. ring.
    + unfold Cnorm, Re, Im. simpl.
      replace (R_mul (R_opp t) (R_opp t)) with (R_mul t t) by ring.
      rewrite Hunit. ring.
Qed.

End DaggerRoundtrip.

Lemma inv_sqrt2_unit :
  (1 / sqrt (1 + 1) * (1 / sqrt (1 + 1))
   + 1 / sqrt (1 + 1) * (1 / sqrt (1 + 1)) = 1)%R.
Proof.
  assert (H2 : (0 <= 1 + 1)%R) by lra.
  assert (Hs : (sqrt (1 + 1) * sqrt (1 + 1) = 1 + 1)%R) by now apply sqrt_sqrt.
  assert (Hn : (sqrt (1 + 1) <> 0)%R) by (intros E; rewrite E in Hs; lra).
  replace (1 / sqrt (1 + 1) * (1 / sqrt (1 + 1)))%R
    with (/ (sqrt (1 + 1) * sqrt (1 + 1)))%R by (field; exact Hn).
  rewrite Hs. lra.
Qed.

Lemma zlike_dagger_roundtrip_witness :
  let qs0 : list (@C R_RingOps) := [(1, 0); (2, 1); (3, 0)]%R in
  @ApplySdag R_RingOps (@ApplySGate R_RingOps qs0 [0] [] 2) [0] [] 2 = qs0
  /\ @ApplyTdag R_CalcOps (@ApplyT R_CalcOps qs0 [0] [] 2) [0] [] 2 = qs0.
Proof.
  intros qs0. apply (@zlike_dagger_roundtrip R_CalcOps).
  - exact RTheory.
  - simpl. unfold Rdiv. now rewrite Ropp_mult_distr_l.
  - exact inv_sqrt2_unit.
Defined.

(** ** The Z-like kernels against G rho G+ *)

(** C5: in the uncontrolled kernel the block with l = k is not updated as
    the blocks with l < k are.  On one qubit the kernel visits the single
    diagonal block (k = l = 0), where (r1,c0) and (r0,c1) are the one stored
    entry (1,0): it is multiplied by [val] directly and once more through
    [SelfMultiply] on its mirror image (0,1), instead of once.  So the Z
    gate returns the all-ones matrix (twice the projector on |+>)
    unchanged, where Z rho Z+ has -1 at (1,0).  With the other reading of
    the missing helper the diagonal block is right, and the block k = 1,
    l = 0 of the gate on qubit 1 of two qubits is not: its entry
    (r0,c1) = (1,2) is stored as (2,1) and never touched. *)
Theorem ApplyZ_diagonal_block_twice :
  (forall (RO : RingOps) (a b c val : C),
      ApplyZLike [a; b; c] [0] [] val 2
      = [a; Cmul (Cmul b val) (Cconj (Cconj val)); Cscale c (Cnorm val)])
  /\ @ApplyZ Z_RingOps (all_ones 2) [0] [] 2 = [(1, 0); (1, 0); (1, 0)]%Z
  /\ @spec_ZLike Z_RingOps (all_ones 2) [0] [] (-1, 0)%Z 2
     = [(1, 0); (-1, 0); (1, 0)]%Z
  /\ @get_at Z_RingOps
       (@ApplyZLike_with Z_RingOps SelfMultiply_lower_only (all_ones 4) [1] []
                         (-1, 0)%Z 4) (IdxMap 2 1) = (1, 0)%Z
  /\ @get_at Z_RingOps
       (@spec_ZLike Z_RingOps (all_ones 4) [1] [] (-1, 0)%Z 4) (IdxMap 2 1)
     = (-1, 0)%Z.
Proof.
  split; [intros RO a b c val; reflexivity|].
  repeat split; vm_compute; reflexivity.
Qed.

(** C1: the S gate on qubit 0 controlled by qubit 1, three qubits, on the
    all-ones matrix.  The row base k = 3 (r0 = 6, r1 = 7) satisfies the
    control; its diagonal block is updated inside the column loop, once for
    each l < 3, so the stored entry (7,6) is multiplied by i three times and
    ends as -i where G rho G+ has i (whichever way the missing helper
    treats positions above the diagonal).  The row base k = 1 (r0 = 2,
    r1 = 3) is updated once and is right.  The Z gate controlled by qubit 2
    updates the diagonal block of k = 2 twice and leaves (5,4) unchanged. *)
Theorem ApplySGate_controlled_diagonal_repeated :
  @get_at Z_RingOps (@ApplySGate Z_RingOps (all_ones 8) [0] [1] 8) (IdxMap 7 6)
  = (0, -1)%Z
  /\ @get_at Z_RingOps
       (@ApplyZLike_with Z_RingOps SelfMultiply_lower_only (all_ones 8) [0] [1]
                         (0, 1)%Z 8) (IdxMap 7 6)
     = (0, -1)%Z
  /\ @get_at Z_RingOps
       (@spec_ZLike Z_RingOps (all_ones 8) [0] [1] (0, 1)%Z 8) (IdxMap 7 6)
     = (0, 1)%Z
  /\ @get_at Z_RingOps (@ApplySGate Z_RingOps (all_ones 8) [0] [1] 8) (IdxMap 3 2)
     = (0, 1)%Z
  /\ @get_at Z_RingOps (@ApplyZ Z_RingOps (all_ones 8) [0] [2] 8) (IdxMap 5 4)
     = (1, 0)%Z
  /\ @get_at Z_RingOps
       (@spec_ZLike Z_RingOps (all_ones 8) [0] [2] (-1, 0)%Z 8) (IdxMap 5 4)
     = (-1, 0)%Z.
Proof. repeat split; vm_compute; reflexivity. Qed.

(** ** The runtime gate builder *)

Lemma AddObj_duplicate (q : N) (g : RtGate.Gate) :
  RtGate.found q (RtGate.objs g) = true ->
  RtGate.AddObj q g
  = (Err (RuntimeError ("obj qubit " +:+ RtGate.to_string q +:+ " already added.")),
     g).
Proof. intros H. unfold RtGate.AddObj. now rewrite H. Qed.

Lemma AddCtrl_conflict (q : N) (g : RtGate.Gate) :
  RtGate.found q (RtGate.objs g) = true
  \/ RtGate.found q (RtGate.ctrls g) = true ->
  exists msg, RtGate.AddCtrl q g = (Err (RuntimeError msg), g).
Proof.
  intros H. unfold RtGate.AddCtrl.
  destruct (RtGate.found q (RtGate.objs g)); [eauto|].
  destruct H as [H|H]; [discriminate|]. rewrite H. eauto.
Qed.

(** [AddObj] never reads the control list. *)
Lemma AddObj_ignores_ctrls (q : N) (g : RtGate.Gate) :
  RtGate.found q (RtGate.objs g) = false ->
  RtGate.AddObj q g
  = (Ok tt, {| RtGate.gate := RtGate.gate g;
               RtGate.objs := RtGate.objs g ++ [q];
               RtGate.ctrls := RtGate.ctrls g |}).
Proof. intros H. unfold RtGate.AddObj. now rewrite H. Qed.

(** C8: a control qubit that overlaps an object qubit is reported only when
    the object was added first.  On an empty record, AddCtrl(0) followed by
    AddObj(0) succeeds twice and leaves qubit 0 in both lists; in the other
    order AddCtrl(0) fails, names the qubit and leaves the record as it
    was. *)
Theorem AddObj_after_AddCtrl_accepts_overlap :
  let g0 := {| RtGate.gate := RtGate.X; RtGate.objs := []; RtGate.ctrls := [] |} in
  RtGate.AddCtrl 0 g0
  = (Ok tt, {| RtGate.gate := RtGate.X; RtGate.objs := []; RtGate.ctrls := [0] |})
  /\ RtGate.AddObj 0 (snd (RtGate.AddCtrl 0 g0))
     = (Ok tt, {| RtGate.gate := RtGate.X; RtGate.objs := [0];
                  RtGate.ctrls := [0] |})
  /\ RtGate.AddCtrl 0 (snd (RtGate.AddObj 0 g0))
     = (Err (RuntimeError "ctrl qubit 0 is already in obj qubits."),
        snd (RtGate.AddObj 0 g0)).
Proof. repeat split. Qed.

(** ** The clamp on the number of Hamiltonian sidecars *)

Lemma static_cast_int_small (x : Z) :
  (0 <= x < 2 ^ 31)%Z -> static_cast_int x = x.
Proof.
  intros H. unfold static_cast_int.
  rewrite Z.mod_small by lia. lia.
Qed.


Lemma clamp_n_thread_value (n_thread : Z) (n_hams : N) :
  clamp_n_thread n_thread n_hams
  = Z.min n_thread (Z.min 15 (static_cast_int (Z.of_N n_hams))).
Proof.
  unfold clamp_n_thread.
  generalize (static_cast_int (Z.of_N n_hams)). intros c.
  destruct (15 <? n_thread)%Z eqn:E1;
    [apply Z.ltb_lt in E1 | apply Z.ltb_ge in E1].
  - destruct (c <? 15)%Z eqn:E2;
      [apply Z.ltb_lt in E2 | apply Z.ltb_ge in E2]; lia.
  - destruct (c <? n_thread)%Z eqn:E2;
      [apply Z.ltb_lt in E2 | apply Z.ltb_ge in E2]; lia.
Qed.


Lemma int_mul_Ok (a b p : Z) : int_mul a b = Ok p -> p = (a * b)%Z.
Proof.
  unfold int_mul. cbv zeta.
  destruct ((- 2 ^ 31 <=? a * b)%Z && (a * b <? 2 ^ 31)%Z); [|discriminate].
  intros H. now injection H.
Qed.

Lemma int_mul_small (a b : Z) :
  (- 2 ^ 31 <= a * b < 2 ^ 31)%Z -> int_mul a b = Ok (a * b)%Z.
Proof.
  intros H. unfold int_mul. cbv zeta.
  destruct (- 2 ^ 31 <=? a * b)%Z eqn:E1; [|apply Z.leb_gt in E1; lia].
  destruct (a * b <? 2 ^ 31)%Z eqn:E2; [|apply Z.ltb_ge in E2; lia].
  reflexivity.
Qed.

(** What [group_bounds] returns when no product overflows. *)
Lemma group_bounds_Ok (n_hams : N) (n_thread i start end_ : Z) :
  group_bounds n_hams n_thread i = Ok (start, end_) ->
  start = (i * n_thread)%Z
  /\ end_ = Z.min ((i + 1) * n_thread) (static_cast_int (Z.of_N n_hams)).
Proof.
  unfold group_bounds.
  destruct (int_mul i n_thread) as [s|] eqn:Es; cbn [rbind]; [|discriminate].
  destruct (int_mul (i + 1) n_thread) as [e|] eqn:Ee; cbn [rbind];
    [|discriminate].
  apply int_mul_Ok in Es, Ee. subst s e. intros H. injection H as <- <-.
  split; [reflexivity|].
  destruct (static_cast_int (Z.of_N n_hams) <? (i + 1) * n_thread)%Z eqn:E;
    [apply Z.ltb_lt in E | apply Z.ltb_ge in E]; lia.
Qed.

Lemma group_bounds_small (n_hams : N) (n_thread i : Z) :
  (- 2 ^ 31 <= i * n_thread < 2 ^ 31)%Z ->
  (- 2 ^ 31 <= (i + 1) * n_thread < 2 ^ 31)%Z ->
  group_bounds n_hams n_thread i
  = Ok ((i * n_thread)%Z,
        Z.min ((i + 1) * n_thread) (static_cast_int (Z.of_N n_hams))).
Proof.
  intros H1 H2. unfold group_bounds.
  rewrite (int_mul_small _ _ H1), (int_mul_small _ _ H2). cbn [rbind].
  do 2 f_equal.
  destruct (static_cast_int (Z.of_N n_hams) <? (i + 1) * n_thread)%Z eqn:E;
    [apply Z.ltb_lt in E | apply Z.ltb_ge in E]; lia.
Qed.


Section Clamp.
Context {CO : CalcOps} {PB : PolicyBase} {CB : Collaborators}.



End Clamp.

(** ** The dispatcher *)

Section Dispatch.
Context {CO : CalcOps} {PB : PolicyBase} {CB : Collaborators}.

Lemma ApplyMeasure_bit (gate : BasicGate) (st : DensityMatrixState) :
  fst (ApplyMeasure gate st) = 0 \/ fst (ApplyMeasure gate st) = 1.
Proof.
  unfold ApplyMeasure. destruct (uniform01 (rnd_eng_ st)) as [u eng].
  destruct (_ =? 0); simpl; auto.
Qed.

Lemma ApplyChannel_ok (gate : BasicGate) (st : DensityMatrixState) :
  is_ok (ApplyChannel gate st) = known_channel gate.
Proof.
  unfold ApplyChannel, known_channel.
  destruct (String.eqb (name_ gate) cAD); [reflexivity|].
  destruct (String.eqb (name_ gate) cPD); [reflexivity|].
  destruct (String.eqb (name_ gate) cPL); [reflexivity|].
  destruct (negb (length (kraus_operator_set_ gate) =? 0)%nat); [reflexivity|].
  destruct (String.eqb (name_ gate) hcAD); reflexivity.
Qed.

Ltac named_branch :=
  cbv zeta;
  repeat match goal with
         | |- context [if ?b then _ else _] => destruct b
         end;
  cbn [is_ok orb].

(** [ApplyGate] throws exactly on the gates it has no branch for. *)
Lemma ApplyGate_ok (gate : BasicGate) (pr : ParameterResolver) (diff : bool)
    (st : DensityMatrixState) :
  is_ok (ApplyGate gate pr diff st) = dispatchable gate.
Proof.
  unfold ApplyGate, dispatchable, named_gate. cbn [existsb].
  do 17 (destruct (String.eqb (name_ gate) _);
         [named_branch; reflexivity | cbn [orb]]).
  destruct (is_measure_ gate); [reflexivity|]. cbn [orb].
  destruct (is_channel_ gate); [|reflexivity]. cbn [andb].
  rewrite <- (ApplyChannel_ok gate st).
  destruct (ApplyChannel gate st); reflexivity.
Qed.

(** C10: ApplyGate on the identity gate returns 2 and leaves the state as
    it is; whenever ApplyGate returns, the value is 2 unless the gate is a
    measurement gate, and a value other than 2 is the measured bit 0 or 1;
    and ApplyGate does return on every gate it has a branch for. *)
Theorem ApplyGate_return_value (gate : BasicGate) (pr : ParameterResolver)
    (diff : bool) (st : DensityMatrixState) :
  (String.eqb (name_ gate) gI = true -> ApplyGate gate pr diff st = Ok (2, st))
  /\ (forall r st', ApplyGate gate pr diff st = Ok (r, st') ->
        (is_measure_ gate = false -> r = 2)
        /\ (r <> 2 -> is_measure_ gate = true /\ (r = 0 \/ r = 1)))
  /\ (dispatchable gate = true ->
      exists r st', ApplyGate gate pr diff st = Ok (r, st')).
Proof.
  split; [|split].
  - intros H. unfold ApplyGate. now rewrite H.
  - intros r st'. unfold ApplyGate.
    do 17 (destruct (String.eqb (name_ gate) _);
           [named_branch; intros H; injection H as <- _;
            (split; [reflexivity | congruence]) |]).
    destruct (is_measure_ gate).
    + intros H. injection H as H. split; [discriminate|].
      intros _. split; [reflexivity|].
      replace r with (fst (ApplyMeasure gate st)) by now rewrite H.
      apply ApplyMeasure_bit.
    + destruct (is_channel_ gate); [|discriminate].
      destruct (ApplyChannel gate st); simpl; [|discriminate].
      intros H. injection H as <- _. split; [reflexivity | congruence].
  - intros H. rewrite <- (ApplyGate_ok gate pr diff st) in H.
    destruct (ApplyGate gate pr diff st) as [[r st']|e];
      [eauto | discriminate].
Qed.

End Dispatch.

(** ** The gradient engine *)

Section GradientProps.
Context {CO : CalcOps} {PB : PolicyBase} {CB : Collaborators}.

(** C2: with [circ] of one identity gate and an empty [herm_circ] the sizes
    differ, the error value is built, and both noise-mode functions return
    normally: the value entry is filled in and every gradient entry is the
    initial zero.  With the sizes the other way round (empty [circ], one
    gate in [herm_circ]) the counter wraps below zero and [circ[n]] reads
    past the end, which is undefined and still not the error. *)
Theorem noise_grad_length_mismatch_not_raised (ham : ham_terms)
    (pr : ParameterResolver) (p_map : gmap string N)
    (this : DensityMatrixState) :
  length_mismatch_value [identity_gate] []
  = Some (RuntimeError
      "In density matrix mode, circ and herm_circ must be the same size.")
  /\ GetExpectationWithNoiseGradOneOne ham [identity_gate] [] pr p_map this
     = Ok (GetExpectation (qs this) ham (dim this)
             :: replicate (size p_map) C_zero)
  /\ GetExpectationWithNoiseGradOneMulti [ham] [identity_gate] [] pr p_map 1 this
     = Ok [GetExpectation (qs this) ham (dim this)
             :: replicate (size p_map) C_zero]
  /\ GetExpectationWithNoiseGradOneOne ham [] [identity_gate] pr p_map this
     = Err (Undefined "vector subscript out of range").
Proof.
  split; [reflexivity|].
  split; [|split].
  - unfold GetExpectationWithNoiseGradOneOne, ApplyCircuit. simpl.
    unfold ApplyGate. simpl. rewrite String.eqb_refl. reflexivity.
  - unfold GetExpectationWithNoiseGradOneMulti, ApplyCircuit. simpl.
    unfold ApplyGate. simpl. rewrite String.eqb_refl. reflexivity.
  - unfold GetExpectationWithNoiseGradOneOne, ApplyCircuit. simpl.
    reflexivity.
Qed.

End GradientProps.

(** *** Accumulation into the gradient entries *)

Section Accumulate.
Context {RO : RingOps}.
Variable data : gmap string real.
Variable p_map : gmap string N.
Variable term : real -> real.

Lemma accumulate_step_ok (it : string) (f_and_g : list C) (coeff : real)
    (idx : N) :
  data !! it = Some coeff -> p_map !! it = Some idx ->
  (slot idx < length f_and_g)%nat ->
  accumulate_step data p_map term it f_and_g
  = Ok (alter (fun x => Cadd_real x (term coeff)) (slot idx) f_and_g).
Proof.
  intros Hd Hp Hlt. unfold accumulate_step, map_at, vec_update.
  rewrite Hd, Hp. simpl. fold (slot idx).
  destruct (lookup_lt_is_Some_2 f_and_g (slot idx) Hlt) as [x Hx].
  now rewrite Hx.
Qed.

Lemma accumulate_fold (its : list string) :
  forall f_and_g : list C,
    NoDup its ->
    (forall it, it ∈ its ->
       exists coeff idx, data !! it = Some coeff /\ p_map !! it = Some idx
                         /\ (slot idx < length f_and_g)%nat) ->
    (forall it it' idx idx', it ∈ its -> it' ∈ its ->
       p_map !! it = Some idx -> p_map !! it' = Some idx' ->
       slot idx = slot idx' -> it = it') ->
    exists f_and_g',
      foldM (accumulate_step data p_map term) its f_and_g = Ok f_and_g'
      /\ length f_and_g' = length f_and_g
      /\ (forall it coeff idx, it ∈ its ->
            data !! it = Some coeff -> p_map !! it = Some idx ->
            f_and_g' !! slot idx
            = (fun x => Cadd_real x (term coeff)) <$> f_and_g !! slot idx)
      /\ (forall j, (forall it idx, it ∈ its -> p_map !! it = Some idx ->
                                    slot idx <> j) ->
                    f_and_g' !! j = f_and_g !! j).
Proof.
  induction its as [|a its IH]; intros fg Hnd Hrange Hinj.
  - exists fg. repeat split; auto. intros it coeff idx Hin. inversion Hin.
  - apply NoDup_cons in Hnd as [Ha Hnd].
    destruct (Hrange a) as (ca & ia & Hda & Hpa & Hlt); [left|].
    simpl. rewrite (accumulate_step_ok a fg ca ia Hda Hpa Hlt). simpl.
    set (fg1 := alter (fun x => Cadd_real x (term ca)) (slot ia) fg).
    destruct (IH fg1) as (fg' & Hrun & Hlen & Hin & Hout).
    + exact Hnd.
    + intros it Hit. destruct (Hrange it) as (c & i & ? & ? & ?); [now right|].
      exists c, i. subst fg1. rewrite length_alter. auto.
    + intros it it' idx idx' Hit Hit'. apply Hinj; now right.
    + exists fg'. split; [exact Hrun|].
      split; [subst fg1; now rewrite Hlen, length_alter|].
      split.
      * intros it coeff idx Hit Hd Hp.
        apply elem_of_cons in Hit as [->|Hit].
        -- assert (coeff = ca) by congruence. assert (idx = ia) by congruence.
           subst coeff idx. rewrite Hout.
           ++ subst fg1. now rewrite list_lookup_alter_eq.
           ++ intros it' idx' Hit' Hp' E.
              apply Ha. rewrite <- (Hinj it' a idx' ia); auto; [now right|left].
        -- rewrite (Hin it coeff idx Hit Hd Hp). subst fg1.
           rewrite list_lookup_alter_ne; [reflexivity|].
           intros E. apply Ha.
           rewrite (Hinj a it ia idx); auto; [left|now right].
      * intros j Hj. rewrite Hout.
        -- subst fg1. rewrite list_lookup_alter_ne; [reflexivity|].
           apply (Hj a ia); [left|exact Hpa].
        -- intros it idx Hit. apply Hj. now right.
Qed.

End Accumulate.

(** ** Indices, masks and the packed triangle *)

Lemma u64_small (x : N) : x < 2 ^ 64 -> u64 x = x.
Proof. intros H. unfold u64. now apply N.mod_small. Qed.

Lemma shiftl_one (q : N) : q < 64 -> u64 (N.shiftl 1 q) = 2 ^ q.
Proof.
  intros H. rewrite N.shiftl_1_l. apply u64_small.
  apply N.pow_lt_mono_r; lia.
Qed.

Lemma shiftl_zero (q : N) : u64 (N.shiftl 0 q) = 0.
Proof. now rewrite N.shiftl_0_l. Qed.

Lemma land_pow2 (r q : N) :
  N.land r (2 ^ q) = if N.testbit r q then 2 ^ q else 0.
Proof.
  apply N.bits_inj. intros m. rewrite N.land_spec, N.pow2_bits_eqb.
  destruct (N.testbit r q) eqn:E.
  - rewrite N.pow2_bits_eqb. destruct (N.eqb_spec q m) as [<-|Hne].
    + now rewrite E.
    + apply andb_false_r.
  - rewrite N.bits_0. destruct (N.eqb_spec q m) as [<-|Hne].
    + now rewrite E.
    + apply andb_false_r.
Qed.

Lemma land_pow2_eqb_set (r q : N) :
  (N.land r (2 ^ q) =? 2 ^ q) = N.testbit r q.
Proof.
  rewrite land_pow2. destruct (N.testbit r q).
  - apply N.eqb_refl.
  - apply N.eqb_neq. pose proof (N.pow_nonzero 2 q). lia.
Qed.

Lemma land_pow2_eqb_clear (r q : N) :
  (N.land r (2 ^ q) =? 0) = negb (N.testbit r q).
Proof.
  rewrite land_pow2. destruct (N.testbit r q); simpl.
  - apply N.eqb_neq. pose proof (N.pow_nonzero 2 q). lia.
  - reflexivity.
Qed.

Lemma tri_double (n : nat) : (2 * tri n = n * (n + 1))%nat.
Proof. induction n as [|n IH]; simpl; lia. Qed.

Lemma tri_mono (r n : nat) : (r <= n)%nat -> (tri r <= tri n)%nat.
Proof. induction 1; simpl; lia. Qed.

Lemma IdxMap_tri (r c : N) :
  c <= r -> r < 2 ^ 32 ->
  N.to_nat (IdxMap r c) = (tri (N.to_nat r) + N.to_nat c)%nat.
Proof.
  intros Hc Hr. unfold IdxMap.
  assert (H32 : 2 ^ 32 * 2 ^ 32 = 2 ^ 64) by reflexivity.
  assert (Hprod : r * (r + 1) < 2 ^ 64) by nia.
  rewrite (u64_small (r + 1)) by lia.
  rewrite (u64_small (r * (r + 1))) by exact Hprod.
  assert (Hhalf : r * (r + 1) / 2 = N.of_nat (tri (N.to_nat r))).
  { pose proof (tri_double (N.to_nat r)) as Hd.
    symmetry. apply N.div_unique with (r := 0); lia. }
  assert (Hlt : r * (r + 1) / 2 + c < 2 ^ 64).
  { assert (r * (r + 1) / 2 <= r * (r + 1))
      by (apply N.Div0.div_le_upper_bound; lia).
    assert (r * (r + 1) + r < 2 ^ 64) by nia. lia. }
  rewrite u64_small by exact Hlt. rewrite Hhalf. lia.
Qed.

Section Triangle.
Context {A : Type}.
Variable entry : nat -> nat -> A.

Lemma triangle_S (n : nat) :
  triangle entry (S n) = triangle entry n ++ map (entry n) (seq 0 (S n)).
Proof.
  unfold triangle. set (row := map (entry n) (seq 0 (S n))).
  rewrite seq_S, map_app, concat_app. cbn [map concat Nat.add].
  subst row. now rewrite app_nil_r.
Qed.

Lemma length_triangle (n : nat) : length (triangle entry n) = tri n.
Proof.
  induction n as [|n IH]; [reflexivity|].
  rewrite triangle_S, length_app, IH, length_map, length_seq. reflexivity.
Qed.

Lemma nth_triangle (n r c : nat) (d : A) :
  (r < n)%nat -> (c <= r)%nat ->
  List.nth (tri r + c) (triangle entry n) d = entry r c.
Proof.
  induction n as [|n IH]; intros Hr Hc; [lia|].
  rewrite triangle_S.
  destruct (Nat.eq_dec r n) as [->|Hne].
  - rewrite app_nth2; rewrite length_triangle; [|lia].
    replace (tri n + c - tri n)%nat with c by lia.
    rewrite (nth_indep _ d (entry n 0)) by (rewrite length_map, length_seq; lia).
    rewrite map_nth, seq_nth by lia. reflexivity.
  - rewrite app_nth1.
    + apply IH; lia.
    + rewrite length_triangle.
      pose proof (tri_mono (S r) n ltac:(lia)). simpl in *. lia.
Qed.

End Triangle.

(** ** Measurement *)

Lemma for_N_ext {S} (n : N) (f g : N -> S -> S) (s : S) :
  (forall i x, f i x = g i x) -> for_N n f s = for_N n g s.
Proof.
  intros H. unfold for_N. generalize (seq 0 (N.to_nat n)). intros l. revert s.
  induction l as [|a l IH]; intros s; simpl; [reflexivity|].
  now rewrite H, IH.
Qed.

Section Measure.
Context {CO : CalcOps} {PB : PolicyBase} {CB : Collaborators}.
Hypothesis Rth : ring_theory R_zero R_one R_add R_mul R_sub R_opp eq.

Lemma DiagonalConditionalCollect_bit (qs : buffer) (q dim : N) :
  DiagonalConditionalCollect qs (2 ^ q) (2 ^ q) true dim = marginal_one qs q dim.
Proof.
  unfold DiagonalConditionalCollect, marginal_one. apply for_N_ext.
  intros i x. now rewrite land_pow2_eqb_set.
Qed.

Lemma ConditionalMul_entry (src des : buffer) (mask condi : N)
    (succ_coeff fail_coeff : C) (dim r c : N) :
  r < dim -> c <= r -> dim <= 2 ^ 32 ->
  get_at (ConditionalMul src des mask condi succ_coeff fail_coeff dim)
         (IdxMap r c)
  = if (N.land r mask =? condi) && (N.land c mask =? condi)
    then Cmul (get_at src (IdxMap r c)) succ_coeff
    else Cmul (get_at src (IdxMap r c)) fail_coeff.
Proof.
  intros Hr Hc Hdim. unfold ConditionalMul.
  unfold get_at at 1. rewrite IdxMap_tri by lia.
  rewrite app_nth1.
  - rewrite nth_triangle by lia. cbv zeta. now rewrite !N2Nat.id.
  - rewrite length_triangle.
    pose proof (tri_mono (S (N.to_nat r)) (N.to_nat dim) ltac:(lia)).
    simpl in *. lia.
Qed.

(** C3: ApplyMeasure on qubit q = obj_qubits_[0] of a state of at most 32
    qubits computes p1 as the sum of the diagonal entries whose index has
    bit q set, draws u from the state's engine, returns 1 when u < p1 and 0
    otherwise, and leaves behind the buffer in which the stored entry (r,c)
    is rho[r,c] * 1/p_b when bit q of both r and c equals the outcome b
    (p_1 = p1, p_0 = 1 - p1) and 0 otherwise. *)
Theorem ApplyMeasure_collapse (gate : BasicGate) (st : DensityMatrixState)
    (Hq : List.nth 0 (obj_qubits_ gate) 0 < 64)
    (Hdim : dim st <= 2 ^ 32) :
  let q := List.nth 0 (obj_qubits_ gate) 0 in
  let p1 := marginal_one (qs st) q (dim st) in
  let u := fst (uniform01 (rnd_eng_ st)) in
  let b := R_ltb u p1 in
  let p_b := if b then p1 else R_sub R_one p1 in
  let bit := fst (ApplyMeasure gate st) in
  let st' := snd (ApplyMeasure gate st) in
  bit = (if b then 1 else 0)
  /\ (bit = 0 \/ bit = 1)
  /\ (forall r c, r < dim st -> c <= r ->
        get_at (qs st') (IdxMap r c)
        = if Bool.eqb (N.testbit r q) b && Bool.eqb (N.testbit c q) b
          then Cmul (get_at (qs st) (IdxMap r c)) (R_div R_one p_b, R_zero)
          else C_zero)
  /\ dim st' = dim st /\ n_qubits st' = n_qubits st
  /\ rnd_eng_ st' = snd (uniform01 (rnd_eng_ st)).
Proof.
  intros q p1 u b p_b bit st'. subst bit st'.
  unfold ApplyMeasure. fold q. rewrite (shiftl_one q Hq).
  rewrite DiagonalConditionalCollect_bit. fold p1.
  subst u. destruct (uniform01 (rnd_eng_ st)) as [u eng]. simpl fst in *.
  simpl snd. fold b. subst p_b.
  destruct b.
  - rewrite (shiftl_one q Hq).
    assert (Hnz : (2 ^ q =? 0) = false)
      by (apply N.eqb_neq; apply N.pow_nonzero; lia).
    rewrite Hnz. cbn [fst snd qs dim n_qubits rnd_eng_ with_rnd with_qs].
    split; [reflexivity|]. split; [now right|].
    split; [|repeat split].
    intros r c Hr Hc. rewrite ConditionalMul_entry by assumption.
    rewrite !land_pow2_eqb_set.
    destruct (N.testbit r q), (N.testbit c q); cbn [Bool.eqb andb];
      try reflexivity; apply (Cmul_zero Rth).
  - rewrite shiftl_zero.
    cbn [N.eqb fst snd qs dim n_qubits rnd_eng_ with_rnd with_qs].
    split; [reflexivity|]. split; [now left|].
    split; [|repeat split].
    intros r c Hr Hc. rewrite ConditionalMul_entry by assumption.
    rewrite !land_pow2_eqb_clear.
    destruct (N.testbit r q), (N.testbit c q); cbn [Bool.eqb andb negb];
      try reflexivity; apply (Cmul_zero Rth).
Qed.

End Measure.

Lemma ApplyMeasure_collapse_witness :
  let gate := measure_q0 in
  let st := plus_state in
  let q := List.nth 0 (obj_qubits_ gate) 0 in
  let p1 := @marginal_one R_CalcOps (qs st) q (dim st) in
  let u := fst (@uniform01 R_RingOps plain_collaborators (rnd_eng_ st)) in
  let b := @R_ltb R_CalcOps u p1 in
  let p_b := if b then p1 else (1 - p1)%R in
  let bit := fst (@ApplyMeasure R_CalcOps plain_collaborators gate st) in
  let st' := snd (@ApplyMeasure R_CalcOps plain_collaborators gate st) in
  bit = (if b then 1 else 0)
  /\ (bit = 0 \/ bit = 1)
  /\ (forall r c, r < dim st -> c <= r ->
        @get_at R_RingOps (qs st') (IdxMap r c)
        = if Bool.eqb (N.testbit r q) b && Bool.eqb (N.testbit c q) b
          then @Cmul R_RingOps (@get_at R_RingOps (qs st) (IdxMap r c))
                     ((1 / p_b)%R, 0%R)
          else @C_zero R_RingOps)
  /\ dim st' = dim st /\ n_qubits st' = n_qubits st
  /\ rnd_eng_ st'
     = snd (@uniform01 R_RingOps plain_collaborators (rnd_eng_ st)).
Proof.
  apply (@ApplyMeasure_collapse R_CalcOps plain_collaborators RTheory
           measure_q0 plus_state).
  - reflexivity.
  - vm_compute. discriminate.
Defined.

(** ** Sampling *)

Lemma foldM_app {A S} (body : A -> S -> result S) (l1 l2 : list A) (s : S) :
  foldM body (l1 ++ l2) s = rbind (foldM body l1 s) (foldM body l2).
Proof.
  revert s. induction l1 as [|a l1 IH]; intros s; simpl; [reflexivity|].
  destruct (body a s) as [s'|e]; simpl; [apply IH | reflexivity].
Qed.

(** A loop of assignments [acc[pos a] = val a]: when every position is in
    range and two elements that share a position write the same value, the
    loop runs to the end, every element finds its value at its position,
    and the other positions keep theirs. *)
Lemma foldM_assign {A B} (step : A -> list B -> result (list B))
    (pos : A -> N) (val : A -> B) (l : list A) :
  forall acc : list B,
    (forall a acc', a ∈ l ->
       step a acc' = vec_update acc' (pos a) (fun _ => val a)) ->
    (forall a, a ∈ l -> (N.to_nat (pos a) < length acc)%nat) ->
    (forall a a', a ∈ l -> a' ∈ l -> pos a = pos a' -> val a = val a') ->
    exists acc',
      foldM step l acc = Ok acc'
      /\ length acc' = length acc
      /\ (forall a, a ∈ l -> acc' !! N.to_nat (pos a) = Some (val a))
      /\ (forall j, (forall a, a ∈ l -> N.to_nat (pos a) <> j) ->
                    acc' !! j = acc !! j).
Proof.
  induction l as [|a l IH]; intros acc Hstep Hrange Hval.
  - exists acc. repeat split; auto. intros a Ha. inversion Ha.
  - simpl. rewrite Hstep by left. unfold vec_update.
    destruct (lookup_lt_is_Some_2 acc (N.to_nat (pos a))
                (Hrange a ltac:(left))) as [x Hx].
    rewrite Hx. simpl.
    set (acc1 := alter (fun _ => val a) (N.to_nat (pos a)) acc).
    destruct (IH acc1) as (acc' & Hrun & Hlen & Hin & Hout).
    + intros b acc' Hb. apply Hstep. now right.
    + intros b Hb. subst acc1. rewrite length_alter. apply Hrange. now right.
    + intros b b' Hb Hb'. apply Hval; now right.
    + exists acc'. split; [exact Hrun|].
      split; [subst acc1; now rewrite Hlen, length_alter|].
      split.
      * intros b Hb. apply elem_of_cons in Hb as [->|Hb]; [|now apply Hin].
        destruct (decide (pos a ∈ map pos l)) as [Hmem|Hmem].
        -- apply list_elem_of_fmap in Hmem as (b & Hpb & Hb).
           rewrite Hpb, (Hin b Hb). f_equal. symmetry.
           apply Hval; [left | now right | exact Hpb].
        -- rewrite Hout.
           ++ subst acc1. rewrite list_lookup_alter_eq, Hx. reflexivity.
           ++ intros b Hb E. apply Hmem. apply list_elem_of_fmap.
              exists b. split; [lia | exact Hb].
      * intros j Hj. rewrite Hout.
        -- subst acc1. rewrite list_lookup_alter_ne; [reflexivity|].
           apply Hj. left.
        -- intros b Hb. apply Hj. now right.
Qed.

Lemma elem_of_N_range (n j : N) : j ∈ N_range n <-> j < n.
Proof.
  unfold N_range. rewrite list_elem_of_fmap. split.
  - intros (k & -> & Hk). apply elem_of_seq in Hk. lia.
  - intros H. exists (N.to_nat j). split; [lia|]. apply elem_of_seq. lia.
Qed.

Lemma N_range_succ (n : nat) :
  N_range (N.of_nat (S n)) = N_range (N.of_nat n) ++ [N.of_nat n].
Proof.
  unfold N_range. rewrite !Nat2N.id, seq_S, map_app. reflexivity.
Qed.

Lemma elem_of_map_items {T} (m : gmap string T) (k : string) (v : T) :
  (k, v) ∈ map_items m <-> m !! k = Some v.
Proof.
  unfold map_items. rewrite merge_sort_Permutation.
  apply elem_of_map_to_list.
Qed.

Section SamplingProps.
Context {CO : CalcOps} {PB : PolicyBase} {CB : Collaborators}.



Lemma reassemble_spec (key_map res0 : gmap string N) :
  (forall name col, key_map !! name = Some col ->
                    col < N.of_nat (size key_map)) ->
  (forall n1 n2 col, key_map !! n1 = Some col -> key_map !! n2 = Some col ->
                     n1 = n2) ->
  exists res1,
    reassemble key_map res0 = Ok res1
    /\ length res1 = size key_map
    /\ forall name col, key_map !! name = Some col ->
         res1 !! N.to_nat col = Some (default 0 (res0 !! name)).
Proof.
  intros Hcols Hinj. unfold reassemble.
  destruct (foldM_assign
              (fun '(name, val) res1 =>
                 vec_update res1 val (fun _ => default 0 (res0 !! name)))
              snd (fun p => default 0 (res0 !! fst p))
              (map_items key_map) (replicate (size key_map) 0))
    as (res1 & Hrun & Hlen & Hin & _).
  - intros [name col] acc _. reflexivity.
  - intros [name col] Ha. apply elem_of_map_items in Ha.
    rewrite length_replicate. specialize (Hcols _ _ Ha). simpl. lia.
  - intros [n1 c1] [n2 c2] H1 H2 E. simpl in E. subst c2.
    apply elem_of_map_items in H1, H2. simpl.
    now rewrite (Hinj n1 n2 c1 H1 H2).
  - exists res1. split; [exact Hrun|].
    split; [now rewrite Hlen, length_replicate|].
    intros name col Hk. apply elem_of_map_items in Hk.
    exact (Hin (name, col) Hk).
Qed.

Lemma write_row_spec (i key_size : N) (res1 res : list N) :
  length res1 = N.to_nat key_size ->
  i * key_size + key_size <= N.of_nat (length res) ->
  i * key_size + key_size < 2 ^ 64 ->
  exists res',
    write_row i key_size res1 res = Ok res'
    /\ length res' = length res
    /\ (forall j, j < key_size ->
          res' !! N.to_nat (i * key_size + j) = res1 !! N.to_nat j)
    /\ (forall p, (p < N.to_nat (i * key_size))%nat
                  \/ (N.to_nat (i * key_size + key_size) <= p)%nat ->
                  res' !! p = res !! p).
Proof.
  intros Hlen1 Hfit Hno. unfold write_row.
  assert (Hpos : forall j, j < key_size ->
            u64 (u64 (i * key_size) + j) = i * key_size + j).
  { intros j Hj. rewrite (u64_small (i * key_size)) by lia.
    apply u64_small. lia. }
  destruct (foldM_assign
              (fun j res => do x <- vec_get res1 j;
                            vec_update res (u64 (u64 (i * key_size) + j))
                                       (fun _ => x))
              (fun j => u64 (u64 (i * key_size) + j))
              (fun j => default 0 (res1 !! N.to_nat j))
              (N_range key_size) res)
    as (res' & Hrun & Hlen & Hin & Hout).
  - intros j acc Hj. apply elem_of_N_range in Hj. unfold vec_get.
    destruct (lookup_lt_is_Some_2 res1 (N.to_nat j) ltac:(lia)) as [x Hx].
    now rewrite Hx.
  - intros j Hj. apply elem_of_N_range in Hj. rewrite Hpos by exact Hj. lia.
  - intros j j' Hj Hj' E. apply elem_of_N_range in Hj, Hj'.
    rewrite !Hpos in E by assumption. now replace j' with j by lia.
  - exists res'. split; [exact Hrun|]. split; [exact Hlen|]. split.
    + intros j Hj. rewrite <- (Hpos j Hj), Hin by now apply elem_of_N_range.
      destruct (lookup_lt_is_Some_2 res1 (N.to_nat j) ltac:(lia)) as [x Hx].
      now rewrite Hx.
    + intros p Hp. apply Hout. intros j Hj. apply elem_of_N_range in Hj.
      rewrite Hpos by exact Hj. lia.
Qed.

Section Shots.
Variable this : DensityMatrixState.
Variable circ : circuit_t.
Variable pr : ParameterResolver.
Variable shots : N.
Variable key_map : gmap string N.
Variable seed : N.
Hypothesis Hruns :
  forall s, (s < N.to_nat shots)%nat ->
    is_ok (ApplyCircuit circ pr (shot_state this (shot_seed seed s))) = true.
Hypothesis Hcols :
  forall name col, key_map !! name = Some col -> col < N.of_nat (size key_map).
Hypothesis Hinj :
  forall n1 n2 col, key_map !! n1 = Some col -> key_map !! n2 = Some col ->
                    n1 = n2.
Hypothesis Hsize : shots * N.of_nat (size key_map) < 2 ^ 64.

Let key_size : N := N.of_nat (size key_map).
Let res_init : list N := replicate (N.to_nat (u64 (shots * key_size))) 0.

Lemma Sampling_loop (n : nat) :
  N.of_nat n <= shots ->
  exists res,
    foldM (Sampling_shot this circ pr key_map) (N_range (N.of_nat n))
          (res_init, mk_engine seed)
    = Ok (res, shot_engine seed n)
    /\ length res = N.to_nat (shots * key_size)
    /\ forall s name col, (s < n)%nat -> key_map !! name = Some col ->
         exists res0,
           (exists sim', ApplyCircuit circ pr
                           (shot_state this (shot_seed seed s))
                         = Ok (res0, sim'))
           /\ res !! N.to_nat (N.of_nat s * key_size + col)
              = Some (default 0 (res0 !! name)).
Proof.
  induction n as [|n IH]; intros Hn.
  - exists res_init. split; [reflexivity|]. split.
    + subst res_init. rewrite length_replicate, u64_small; [reflexivity|].
      exact Hsize.
    + intros s name col Hs. lia.
  - destruct IH as (res & Hrun & Hlen & Hrows); [lia|].
    rewrite N_range_succ, foldM_app, Hrun. simpl.
    destruct (uniform_seed (shot_engine seed n)) as [sd eng'] eqn:Eu.
    assert (Esd : sd = shot_seed seed n) by (unfold shot_seed; now rewrite Eu).
    assert (Eeng : eng' = shot_engine seed (S n))
      by (simpl; now rewrite Eu).
    pose proof (Hruns n ltac:(lia)) as Hok. rewrite <- Esd in Hok.
    destruct (ApplyCircuit circ pr (shot_state this sd))
      as [[res0 sim']|e] eqn:Hap; [|discriminate].
    simpl.
    destruct (reassemble_spec key_map res0 Hcols Hinj)
      as (res1 & Hre & Hlen1 & Hcol).
    rewrite Hre. simpl.
    assert (Hmul : N.of_nat n * key_size + key_size <= shots * key_size)
      by (subst key_size; nia).
    destruct (write_row_spec (N.of_nat n) key_size res1 res)
      as (res' & Hwr & Hlen' & Hrow & Hother).
    + subst key_size. rewrite Hlen1. lia.
    + rewrite Hlen. lia.
    + lia.
    + fold key_size. rewrite Hwr. simpl. exists res'.
      split; [now rewrite Eeng|]. split; [now rewrite Hlen'|].
      intros s name col Hs Hk.
      pose proof (Hcols name col Hk) as Hc. fold key_size in Hc.
      destruct (Nat.eq_dec s n) as [->|Hne].
      * exists res0. split; [exists sim'; now rewrite <- Esd|].
        rewrite (Hrow col Hc). now apply Hcol.
      * destruct (Hrows s name col ltac:(lia) Hk) as (r0 & Hout & Hval).
        exists r0. split; [exact Hout|].
        rewrite Hother; [exact Hval|]. left.
        assert (N.of_nat s * key_size + key_size <= N.of_nat n * key_size)
          by nia.
        lia.
Qed.

(** C9: when the circuit run of every shot returns and the key map sends
    its names to distinct columns below |key_map|, Sampling returns a
    vector of shots * |key_map| entries; entry s * |key_map| + key_map[name]
    is what the circuit run of shot s recorded under [name] (0 when it
    recorded nothing); shot s runs on a new state, seeded with the seed
    drawn for it, whose stored entries are those of this state's buffer;
    and this state is as it was. *)
Theorem Sampling_layout
    (Hbuf : (packed_len (dim this) <= length (qs this))%nat) :
  exists res,
    Sampling circ pr shots key_map seed this = Ok (res, this)
    /\ length res = N.to_nat (shots * N.of_nat (size key_map))
    /\ (forall s name col, s < shots -> key_map !! name = Some col ->
          exists res0 sim',
            ApplyCircuit circ pr (shot_state this (shot_seed seed (N.to_nat s)))
            = Ok (res0, sim')
            /\ res !! N.to_nat (s * N.of_nat (size key_map) + col)
               = Some (default 0 (res0 !! name)))
    /\ (forall sd, fresh_copy this sd (shot_state this sd)).
Proof.
  destruct (Sampling_loop (N.to_nat shots)) as (res & Hrun & Hlen & Hrows);
    [lia|].
  exists res. split; [|split; [exact Hlen|split]].
  - unfold Sampling. fold key_size. fold res_init.
    rewrite N2Nat.id in Hrun. now rewrite Hrun.
  - intros s name col Hs Hk.
    destruct (Hrows (N.to_nat s) name col ltac:(lia) Hk)
      as (res0 & [sim' Hap] & Hval).
    exists res0, sim'. split; [exact Hap|].
    rewrite N2Nat.id in Hval. exact Hval.
  - intros sd. unfold fresh_copy. repeat split.
    unfold shot_state, CopyQS. cbn [qs with_qs].
    rewrite take_app_le by (rewrite length_take; lia).
    rewrite take_take. f_equal. lia.
Qed.

End Shots.

End SamplingProps.

(** The measurement of qubit 0 of |1><1| with the draw 1/2 gives 1. *)
Lemma half_below_one : @R_ltb R_CalcOps (1 / 2)%R (0 + 1)%R = true.
Proof.
  cbn. destruct (Rlt_dec (1 / 2) (0 + 1)) as [_|n]; [reflexivity|].
  exfalso. apply n. lra.
Qed.

Lemma measure_one_state (sd : N) :
  fst (@ApplyMeasure R_CalcOps plain_collaborators measure_q0
         (shot_state one_state sd)) = 1.
Proof.
  unfold ApplyMeasure.
  change (uniform01 (rnd_eng_ (shot_state one_state sd)))
    with ((1 / 2)%R : @real R_RingOps, sd + 1).
  cbv iota beta zeta.
  change (DiagonalConditionalCollect _ _ _ _ _) with (0 + 1)%R.
  rewrite half_below_one. reflexivity.
Qed.

Lemma ApplyCircuit_measure_one (sd : N) :
  exists sim',
    @ApplyCircuit R_CalcOps idle_policy plain_collaborators [measure_q0]
      (@empty_resolver R_RingOps plain_collaborators) (shot_state one_state sd)
    = Ok ({[ "q0" := 1 ]}, sim').
Proof.
  unfold ApplyCircuit. cbn [foldM]. unfold ApplyCircuit_step.
  change (is_measure_ measure_q0) with true. cbv iota.
  pose proof (measure_one_state sd) as H.
  destruct (@ApplyMeasure R_CalcOps plain_collaborators measure_q0
              (shot_state one_state sd)) as [bit st'].
  simpl in H. subst bit. exists st'. reflexivity.
Qed.

Lemma Sampling_shot_measure_one (key_map : gmap string N) (i : N)
    (res : list N) (eng : @RndEngine R_RingOps plain_collaborators) :
  @Sampling_shot R_CalcOps idle_policy plain_collaborators one_state
    [measure_q0] (@empty_resolver R_RingOps plain_collaborators) key_map i
    (res, eng)
  = do res1 <- reassemble key_map {[ "q0" := 1 ]};
    do res <- write_row i (N.of_nat (size key_map)) res1 res;
    Ok (res, snd (uniform_seed eng)).
Proof.
  unfold Sampling_shot.
  change (@uniform_seed (@calc_ring R_CalcOps) plain_collaborators eng)
    with (@uniform_seed R_RingOps plain_collaborators eng).
  destruct (uniform_seed eng) as [sd eng']. cbv beta iota zeta.
  destruct (ApplyCircuit_measure_one sd) as [sim' ->].
  reflexivity.
Qed.

(** Three calls the layout does not cover: a name sent to column 1 of a
    one-name key map leaves defined behaviour; two names sent to the same
    column leave in it what the later name recorded, here 0 where the run
    recorded 1 under [q0]; and a gate the dispatcher has no branch for
    makes the call throw. *)
Lemma Sampling_layout_counterexample :
  let pr := @empty_resolver R_RingOps plain_collaborators in
  @Sampling R_CalcOps idle_policy plain_collaborators [measure_q0] pr 1
    {[ "q0" := 1 ]} 42 one_state
  = Err (Undefined "vector subscript out of range")
  /\ ((exists sim',
         @ApplyCircuit R_CalcOps idle_policy plain_collaborators [measure_q0] pr
           (shot_state one_state
              (@shot_seed R_CalcOps plain_collaborators 42 0))
         = Ok ({[ "q0" := 1 ]}, sim'))
      /\ @Sampling R_CalcOps idle_policy plain_collaborators [measure_q0] pr 1
           {[ "q0" := 0; "zz" := 0 ]} 42 one_state
         = Ok ([0; 0], one_state))
  /\ @Sampling R_CalcOps idle_policy plain_collaborators [unknown_gate] pr 1
       {[ "q0" := 0 ]} 42 one_state
     = Err (InvalidArgument "gate U3 not implement.").
Proof.
  intros pr. split; [|split; [split|]].
  - unfold Sampling. cbv zeta. change (N_range 1) with [0].
    cbn [foldM]. rewrite Sampling_shot_measure_one. reflexivity.
  - apply ApplyCircuit_measure_one.
  - unfold Sampling. cbv zeta. change (N_range 1) with [0].
    cbn [foldM]. rewrite Sampling_shot_measure_one. reflexivity.
  - reflexivity.
Qed.

Lemma Sampling_layout_witness :
  let key_map : gmap string N := {[ "q0" := 0 ]} in
  let pr := @empty_resolver R_RingOps plain_collaborators in
  @Sampling R_CalcOps idle_policy plain_collaborators [measure_q0] pr 2
     key_map 42 one_state
  = Ok ([1; 1], one_state)
  /\ exists res,
    @Sampling R_CalcOps idle_policy plain_collaborators [measure_q0]
              pr 2 key_map 42 one_state
    = Ok (res, one_state)
    /\ length res = N.to_nat (2 * N.of_nat (size key_map))
    /\ (forall s name col, s < 2 -> key_map !! name = Some col ->
          exists res0 sim',
            @ApplyCircuit R_CalcOps idle_policy plain_collaborators
              [measure_q0] pr
              (shot_state one_state
                 (@shot_seed R_CalcOps plain_collaborators 42 (N.to_nat s)))
            = Ok (res0, sim')
            /\ res !! N.to_nat (s * N.of_nat (size key_map) + col)
               = Some (default 0 (res0 !! name)))
    /\ (forall sd, fresh_copy one_state sd (shot_state one_state sd)).
Proof.
  intros key_map pr. split.
  - unfold Sampling. cbv zeta. change (N_range 2) with [0; 1].
    cbn [foldM]. rewrite Sampling_shot_measure_one.
    change (reassemble key_map {[ "q0" := 1 ]}) with (@Ok (list N) [1]).
    cbn [rbind].
    change (write_row 0 _ [1] _) with (@Ok (list N) [1; 0]). cbn [rbind].
    rewrite Sampling_shot_measure_one.
    change (reassemble key_map {[ "q0" := 1 ]}) with (@Ok (list N) [1]).
    cbn [rbind].
    change (write_row 1 _ [1] _) with (@Ok (list N) [1; 1]). cbn [rbind].
    reflexivity.
  - apply (@Sampling_layout R_CalcOps idle_policy plain_collaborators
             one_state [measure_q0] pr 2 key_map 42).
    + intros s Hs. destruct s as [|[|s]]; [reflexivity | reflexivity |].
      exfalso. change (N.to_nat 2) with 2%nat in Hs. lia.
    + intros name col H. apply lookup_singleton_Some in H as [_ <-].
      subst key_map. rewrite map_size_singleton. reflexivity.
    + intros n1 n2 col H1 H2.
      apply lookup_singleton_Some in H1 as [<- _].
      now apply lookup_singleton_Some in H2 as [<- _].
    + subst key_map. rewrite map_size_singleton. reflexivity.
    + change (3 <= 3)%nat. lia.
Defined.

(* ================================================================== *)
(** * Further properties of the state container *)

(** Decide every test left in one branch of a dispatcher. *)
Ltac split_tests :=
  cbv zeta;
  repeat match goal with
         | |- context [if ?b then _ else _] => destruct b
         end.

Section CircuitProps.
Context {CO : CalcOps} {PB : PolicyBase} {CB : Collaborators}.

Lemma ApplyMeasure_shape (gate : BasicGate) (st : DensityMatrixState) :
  same_shape st (snd (ApplyMeasure gate st)).
Proof.
  unfold ApplyMeasure. destruct (uniform01 (rnd_eng_ st)) as [u eng].
  repeat split.
Qed.

Lemma ApplyChannel_shape (gate : BasicGate) (st st' : DensityMatrixState) :
  ApplyChannel gate st = Ok st' ->
  same_shape st st' /\ rnd_eng_ st' = rnd_eng_ st.
Proof.
  unfold ApplyChannel.
  repeat match goal with
         | |- context [if ?b then _ else _] => destruct b
         end; intros H; try discriminate; injection H as <-;
    repeat split.
Qed.

(** [ApplyGate] changes neither the qubit count, nor the dimension, nor
    the seed, and draws from the engine only in its measurement branch. *)
Lemma ApplyGate_shape (gate : BasicGate) (pr : ParameterResolver)
    (diff : bool) (st st' : DensityMatrixState) (r : N) :
  ApplyGate gate pr diff st = Ok (r, st') ->
  same_shape st st'
  /\ (is_measure_ gate = false -> rnd_eng_ st' = rnd_eng_ st).
Proof.
  unfold ApplyGate.
  do 17 (destruct (String.eqb (name_ gate) _);
         [split_tests; intros H; injection H as _ <-; repeat split |]).
  destruct (is_measure_ gate).
  - intros H. injection H as H. split; [|discriminate].
    replace st' with (snd (ApplyMeasure gate st)) by now rewrite H.
    apply ApplyMeasure_shape.
  - destruct (is_channel_ gate); [|discriminate].
    destruct (ApplyChannel gate st) as [st1|e] eqn:E; simpl; [|discriminate].
    intros H. injection H as _ <-.
    destruct (ApplyChannel_shape gate st st1 E) as [Hs He]. auto.
Qed.

Lemma ApplyCircuit_step_ok_iff (pr : ParameterResolver) (g : BasicGate)
    (acc : gmap string N * DensityMatrixState) :
  is_ok (ApplyCircuit_step pr g acc) = dispatchable g.
Proof.
  destruct acc as [m st]. unfold ApplyCircuit_step.
  destruct (is_measure_ g) eqn:Em.
  - destruct (ApplyMeasure g st). unfold dispatchable. rewrite Em.
    now rewrite orb_true_r.
  - rewrite <- (ApplyGate_ok g pr false st).
    destruct (ApplyGate g pr false st) as [[r st']|e]; reflexivity.
Qed.

(** X1: a circuit that holds a gate the dispatcher has no branch for does
    not return from [ApplyCircuit], whatever the state, the binding and
    the place of the gate in the circuit. *)
Theorem ApplyCircuit_unknown_gate (circ : circuit_t) (pr : ParameterResolver)
    (st : DensityMatrixState)
    (Hgate : forallb dispatchable circ = false) :
  is_ok (ApplyCircuit circ pr st) = false.
Proof.
  unfold ApplyCircuit. generalize (∅ : gmap string N, st).
  induction circ as [|g circ IH]; intros acc; simpl in *; [discriminate|].
  pose proof (ApplyCircuit_step_ok_iff pr g acc) as Hstep.
  destruct (ApplyCircuit_step pr g acc) as [acc'|e]; simpl in *;
    [|reflexivity].
  rewrite <- Hstep in Hgate. apply IH. exact Hgate.
Qed.

Lemma ApplyCircuit_fold_shape (circ : circuit_t) (pr : ParameterResolver) :
  forall m st res st',
    foldM (ApplyCircuit_step pr) circ (m, st) = Ok (res, st') ->
    same_shape st st'
    /\ (forallb (fun g => negb (is_measure_ g)) circ = true ->
        rnd_eng_ st' = rnd_eng_ st /\ res = m).
Proof.
  induction circ as [|g circ IH]; intros m st res st' H; simpl in H.
  - injection H as <- <-. repeat split.
  - unfold ApplyCircuit_step in H at 1.
    destruct (is_measure_ g) eqn:Em.
    + pose proof (ApplyMeasure_shape g st) as Hs.
      destruct (ApplyMeasure g st) as [bit st1]. simpl in H, Hs.
      destruct (IH _ _ _ _ H) as [(Hn & Hd & Hse) _].
      destruct Hs as (Hn1 & Hd1 & Hse1).
      split; [repeat split; congruence|].
      simpl. rewrite Em. discriminate.
    + destruct (ApplyGate g pr false st) as [[r st1]|e] eqn:Eg; simpl in H;
        [|discriminate].
      destruct (ApplyGate_shape g pr false st st1 r Eg)
        as [(Hn1 & Hd1 & Hse1) He1].
      destruct (IH _ _ _ _ H) as [(Hn & Hd & Hse) Hrest].
      split; [repeat split; congruence|].
      simpl. rewrite Em. simpl. intros Hall.
      destruct (Hrest Hall) as [He Hres]. split; [|exact Hres].
      rewrite He. now apply He1.
Qed.

(** X3: [ApplyCircuit] never changes the qubit count, the dimension or the
    seed of the state, and a circuit without measurement gates neither
    draws from the state's engine nor records an outcome. *)
Theorem ApplyCircuit_keeps_shape (circ : circuit_t) (pr : ParameterResolver)
    (st : DensityMatrixState) :
  match ApplyCircuit circ pr st with
  | Ok (res, st') =>
      n_qubits st' = n_qubits st /\ dim st' = dim st /\ seed st' = seed st
      /\ (forallb (fun g => negb (is_measure_ g)) circ = true ->
          rnd_eng_ st' = rnd_eng_ st /\ res = ∅)
  | Err _ => True
  end.
Proof.
  destruct (ApplyCircuit circ pr st) as [[res st']|e] eqn:E; [|exact I].
  destruct (ApplyCircuit_fold_shape circ pr _ _ _ _ E) as [(Hn & Hd & Hs) H].
  auto.
Qed.

Lemma ApplyCircuit_fold_outcomes (circ : circuit_t) (pr : ParameterResolver) :
  forall m st res st',
    foldM (ApplyCircuit_step pr) circ (m, st) = Ok (res, st') ->
    (forall name, is_Some (res !! name) <->
       is_Some (m !! name)
       \/ exists g, g ∈ circ /\ is_measure_ g = true /\ name_ g = name)
    /\ ((forall name b, m !! name = Some b -> b = 0 \/ b = 1) ->
        forall name b, res !! name = Some b -> b = 0 \/ b = 1).
Proof.
  induction circ as [|g circ IH]; intros m st res st' H; simpl in H.
  - injection H as <- <-. split; [|auto].
    intros name. split; [auto|]. intros [Hm|(g & Hg & _)]; [exact Hm|].
    inversion Hg.
  - unfold ApplyCircuit_step in H at 1.
    destruct (is_measure_ g) eqn:Em.
    + pose proof (ApplyMeasure_bit g st) as Hbit.
      destruct (ApplyMeasure g st) as [bit st1]. simpl in H, Hbit.
      destruct (IH _ _ _ _ H) as [Hkeys Hvals]. split.
      * intros name. rewrite Hkeys. split.
        -- intros [Hin|(g' & Hg' & Hm' & Hn')].
           ++ destruct (decide (name_ g = name)) as [<-|Hne].
              ** right. exists g. split; [left|auto].
              ** left. now rewrite lookup_insert_ne in Hin.
           ++ right. exists g'. split; [now right|auto].
        -- intros [Hin|(g' & Hg' & Hm' & Hn')].
           ++ left. destruct (decide (name_ g = name)) as [<-|Hne].
              ** rewrite lookup_insert_eq. eauto.
              ** now rewrite lookup_insert_ne.
           ++ apply elem_of_cons in Hg' as [->|Hg'].
              ** left. subst name. rewrite lookup_insert_eq. eauto.
              ** right. exists g'. auto.
      * intros Hm. apply Hvals. intros name b.
        destruct (decide (name_ g = name)) as [<-|Hne].
        -- rewrite lookup_insert_eq. intros E. injection E as <-. exact Hbit.
        -- rewrite lookup_insert_ne by exact Hne. apply Hm.
    + destruct (ApplyGate g pr false st) as [[r st1]|e]; simpl in H;
        [|discriminate].
      destruct (IH _ _ _ _ H) as [Hkeys Hvals]. split; [|exact Hvals].
      intros name. rewrite Hkeys. split.
      * intros [Hin|(g' & Hg' & Hm' & Hn')]; [now left|].
        right. exists g'. split; [now right|auto].
      * intros [Hin|(g' & Hg' & Hm' & Hn')]; [now left|].
        apply elem_of_cons in Hg' as [->|Hg']; [congruence|].
        right. exists g'. auto.
Qed.

(** X2: the outcome map [ApplyCircuit] returns has a key for exactly the
    names of the circuit's measurement gates, and every value in it is 0
    or 1. *)
Theorem ApplyCircuit_outcomes (circ : circuit_t) (pr : ParameterResolver)
    (st : DensityMatrixState) :
  match ApplyCircuit circ pr st with
  | Ok (res, _) =>
      (forall name, is_Some (res !! name) <->
         exists g, g ∈ circ /\ is_measure_ g = true /\ name_ g = name)
      /\ (forall name b, res !! name = Some b -> b = 0 \/ b = 1)
  | Err _ => True
  end.
Proof.
  destruct (ApplyCircuit circ pr st) as [[res st']|e] eqn:E; [|exact I].
  destruct (ApplyCircuit_fold_outcomes circ pr _ _ _ _ E) as [Hkeys Hvals].
  split.
  - intros name. rewrite Hkeys. split; [|auto].
    intros [Hin|H]; [|exact H]. rewrite lookup_empty in Hin.
    destruct Hin as [x Hx]. discriminate.
  - apply Hvals. intros name b Hm. rewrite lookup_empty in Hm. discriminate.
Qed.

Lemma ApplyCircuit_step_union (pr : ParameterResolver) (g : BasicGate)
    (m : gmap string N) (st : DensityMatrixState) :
  ApplyCircuit_step pr g (m, st)
  = do '(r, st') <- ApplyCircuit_step pr g (∅, st); Ok (r ∪ m, st').
Proof.
  unfold ApplyCircuit_step. destruct (is_measure_ g).
  - destruct (ApplyMeasure g st) as [bit st1]. simpl.
    now rewrite <- insert_union_l, (left_id_L ∅ (∪)).
  - destruct (ApplyGate g pr false st) as [[r st1]|e]; simpl; [|reflexivity].
    now rewrite (left_id_L ∅ (∪)).
Qed.

Lemma ApplyCircuit_fold_union (circ : circuit_t) (pr : ParameterResolver) :
  forall m st,
    foldM (ApplyCircuit_step pr) circ (m, st)
    = do '(r, st') <- foldM (ApplyCircuit_step pr) circ (∅, st);
      Ok (r ∪ m, st').
Proof.
  induction circ as [|g circ IH]; intros m st; cbn [foldM].
  - cbn [rbind]. now rewrite (left_id_L ∅ (∪)).
  - rewrite (ApplyCircuit_step_union pr g m st).
    destruct (ApplyCircuit_step pr g (∅, st)) as [[r1 st1]|e]; simpl;
      [|reflexivity].
    rewrite (IH (r1 ∪ m)), (IH r1).
    destruct (foldM (ApplyCircuit_step pr) circ (∅, st1)) as [[r0 st0]|e];
      simpl; [|reflexivity].
    now rewrite (assoc_L (∪)).
Qed.

(** X4: running two circuits one after the other is running their
    concatenation: the second starts from the state the first leaves, and
    the outcome maps are merged, the second circuit's outcome winning for a
    name both measured. *)
Theorem ApplyCircuit_app (c1 c2 : circuit_t) (pr : ParameterResolver)
    (st : DensityMatrixState) :
  ApplyCircuit (c1 ++ c2) pr st
  = do '(r1, st1) <- ApplyCircuit c1 pr st;
    do '(r2, st2) <- ApplyCircuit c2 pr st1;
    Ok (r2 ∪ r1, st2).
Proof.
  unfold ApplyCircuit. rewrite foldM_app.
  destruct (foldM (ApplyCircuit_step pr) c1 (∅, st)) as [[r1 st1]|e]; simpl;
    [|reflexivity].
  apply ApplyCircuit_fold_union.
Qed.

End CircuitProps.

Section DispatchProps.
Context {CO : CalcOps} {PB : PolicyBase} {CB : Collaborators}.

(** X5: a gate that is not parameterized is applied the same way whatever
    the binding and whatever the [diff] flag: its angle is the stored
    [applied_value_] and the derivative kernel is never selected. *)
Theorem ApplyGate_fixed_angle (gate : BasicGate) (pr pr' : ParameterResolver)
    (diff diff' : bool) (st : DensityMatrixState)
    (Hfixed : parameterized_ gate = false) :
  ApplyGate gate pr diff st = ApplyGate gate pr' diff' st.
Proof.
  unfold ApplyGate. rewrite Hfixed. cbn [negb].
  do 17 (destruct (String.eqb (name_ gate) _); [reflexivity|]).
  reflexivity.
Qed.

End DispatchProps.

Lemma ApplyCircuit_unknown_gate_witness :
  is_ok (@ApplyCircuit R_CalcOps idle_policy plain_collaborators
           [rx_theta; unknown_gate; measure_q0]
           (@empty_resolver R_RingOps plain_collaborators) plus_state)
  = false.
Proof.
  apply (@ApplyCircuit_unknown_gate R_CalcOps idle_policy plain_collaborators).
  reflexivity.
Defined.

Lemma ApplyGate_fixed_angle_witness :
  let pr := @empty_resolver R_RingOps plain_collaborators in
  @ApplyGate R_CalcOps probe_policy plain_collaborators rx_fixed pr true
             plus_state
  = @ApplyGate R_CalcOps probe_policy plain_collaborators rx_fixed
               (params_ rx_theta) false plus_state
  /\ @ApplyGate R_CalcOps probe_policy plain_collaborators rx_fixed pr true
                plus_state
     = Ok (2, with_qs plus_state ((2, 0)%R :: qs plus_state))
  /\ @ApplyGate R_CalcOps probe_policy plain_collaborators rx_theta pr true
                plus_state
     = Ok (2, with_qs plus_state ((0, 1)%R :: qs plus_state))
  /\ @ApplyGate R_CalcOps probe_policy plain_collaborators rx_theta pr false
                plus_state
     = Ok (2, with_qs plus_state ((0, 0)%R :: qs plus_state)).
Proof.
  intros pr. split; [|repeat split].
  apply (@ApplyGate_fixed_angle R_CalcOps probe_policy plain_collaborators).
  reflexivity.
Defined.

(* ================================================================== *)
(** * Further properties of the gradient engine *)

(** ** The parameter map *)

Lemma fold_insert_names (f : nat -> N) (names : list string) :
  forall (s : nat) (m0 : gmap string N),
    NoDup names ->
    (forall nm, nm ∈ names -> m0 !! nm = None) ->
    let m := fold_left (fun m '(i, nm) => <[nm := f i]> m)
                       (combine (seq s (length names)) names) m0 in
    (forall k nm, names !! k = Some nm -> m !! nm = Some (f (s + k)%nat))
    /\ (forall nm, nm ∉ names -> m !! nm = m0 !! nm)
    /\ size m = (size m0 + length names)%nat.
Proof.
  induction names as [|a names IH]; intros s m0 Hnd Hfresh; simpl.
  - repeat split; auto. intros k nm H. inversion H.
  - apply NoDup_cons in Hnd as [Ha Hnd].
    destruct (IH (S s) (<[a := f s]> m0) Hnd) as (Hin & Hout & Hsize).
    { intros nm Hnm. rewrite lookup_insert_ne.
      - apply Hfresh. now right.
      - intros ->. contradiction. }
    split; [|split].
    + intros [|k] nm Hk; simpl in Hk.
      * injection Hk as <-. rewrite (Hout a Ha), lookup_insert_eq.
        now rewrite Nat.add_0_r.
      * rewrite (Hin k nm Hk). f_equal. f_equal. lia.
    + intros nm Hnm. apply not_elem_of_cons in Hnm as [Hne Hnm].
      rewrite (Hout nm Hnm). now rewrite lookup_insert_ne.
    + rewrite Hsize, map_size_insert_None; [lia|]. apply Hfresh. left.
Qed.

(** X7: for pairwise distinct encoder and ansatz names the parameter map
    numbers the encoder names 0, 1, ... in their order and the ansatz names
    after them, holds nothing else, and so sends every name to an entry
    1 + index that lies inside the 1 + |p_map| entries of [f_and_g]. *)
Theorem build_p_map_distinct (enc_name ans_name : list string)
    (Hnd : NoDup (enc_name ++ ans_name))
    (Hlen : N.of_nat (length enc_name + length ans_name) < 2 ^ 64) :
  let p_map := build_p_map enc_name ans_name in
  (forall i nm, enc_name !! i = Some nm -> p_map !! nm = Some (N.of_nat i))
  /\ (forall i nm, ans_name !! i = Some nm ->
        p_map !! nm = Some (N.of_nat (length enc_name + i)))
  /\ (forall nm, nm ∉ enc_name ++ ans_name -> p_map !! nm = None)
  /\ size p_map = (length enc_name + length ans_name)%nat
  /\ (forall nm idx, p_map !! nm = Some idx ->
        (1 <= slot idx < 1 + size p_map)%nat).
Proof.
  intros p_map. subst p_map. unfold build_p_map.
  apply NoDup_app in Hnd as (Hnd1 & Hdisj & Hnd2).
  destruct (fold_insert_names N.of_nat enc_name 0 ∅ Hnd1)
    as (Hin1 & Hout1 & Hsize1); [intros; apply lookup_empty|].
  set (m1 := fold_left (fun m '(i, nm) => <[nm := N.of_nat i]> m)
               (combine (seq 0 (length enc_name)) enc_name) ∅) in *.
  destruct (fold_insert_names
              (fun i => u64 (N.of_nat i + N.of_nat (length enc_name)))
              ans_name 0 m1 Hnd2)
    as (Hin2 & Hout2 & Hsize2).
  { intros nm Hnm. rewrite Hout1; [apply lookup_empty|].
    intros Henc. exact (Hdisj nm Henc Hnm). }
  set (p_map := fold_left
                  (fun m '(i, nm) =>
                     <[nm := u64 (N.of_nat i + N.of_nat (length enc_name))]> m)
                  (combine (seq 0 (length ans_name)) ans_name) m1) in *.
  rewrite map_size_empty in Hsize1. simpl in Hsize1.
  assert (Henc : forall i nm, enc_name !! i = Some nm ->
                              p_map !! nm = Some (N.of_nat i)).
  { intros i nm Hi. rewrite Hout2.
    - now rewrite (Hin1 i nm Hi).
    - intros Hans. apply (Hdisj nm); [|exact Hans].
      apply list_elem_of_lookup. eauto. }
  assert (Hans : forall i nm, ans_name !! i = Some nm ->
                              p_map !! nm = Some (N.of_nat (length enc_name + i))).
  { intros i nm Hi. rewrite (Hin2 i nm Hi). f_equal.
    pose proof (lookup_lt_Some _ _ _ Hi). rewrite u64_small; lia. }
  assert (Hnone : forall nm, nm ∉ enc_name ++ ans_name -> p_map !! nm = None).
  { intros nm Hnm. apply not_elem_of_app in Hnm as [H1 H2].
    rewrite (Hout2 nm H2), (Hout1 nm H1). apply lookup_empty. }
  assert (Hsz : size p_map = (length enc_name + length ans_name)%nat) by lia.
  split; [exact Henc|]. split; [exact Hans|]. split; [exact Hnone|].
  split; [exact Hsz|].
  intros nm idx Hidx.
  assert (Hidx_lt : idx < N.of_nat (length enc_name + length ans_name)).
  { destruct (decide (nm ∈ enc_name ++ ans_name)) as [Hmem|Hmem].
    - apply elem_of_app in Hmem as [Hmem|Hmem];
        apply list_elem_of_lookup in Hmem as [i Hi];
        pose proof (lookup_lt_Some _ _ _ Hi).
      + rewrite (Henc i nm Hi) in Hidx. injection Hidx as <-. lia.
      + rewrite (Hans i nm Hi) in Hidx. injection Hidx as <-. lia.
    - rewrite (Hnone nm Hmem) in Hidx. discriminate. }
  unfold slot. rewrite u64_small by lia. lia.
Qed.

Lemma build_p_map_distinct_witness :
  let p_map := build_p_map ["a"; "b"] ["c"] in
  (forall i nm, ["a"; "b"] !! i = Some nm -> p_map !! nm = Some (N.of_nat i))
  /\ (forall i nm, ["c"] !! i = Some nm ->
        p_map !! nm = Some (N.of_nat (length ["a"; "b"] + i)))
  /\ (forall nm, nm ∉ ["a"; "b"] ++ ["c"] -> p_map !! nm = None)
  /\ size p_map = (length ["a"; "b"] + length ["c"])%nat
  /\ (forall nm idx, p_map !! nm = Some idx ->
        (1 <= slot idx < 1 + size p_map)%nat).
Proof.
  apply (build_p_map_distinct ["a"; "b"] ["c"]).
  - apply (bool_decide_unpack (NoDup ["a"; "b"; "c"])). vm_compute. exact I.
  - reflexivity.
Defined.

(** ** Circuits without a differentiable gate *)

Lemma forallb_elem {A} (p : A -> bool) (l : list A) (a : A) :
  forallb p l = true -> a ∈ l -> p a = true.
Proof.
  intros H Ha. rewrite forallb_forall in H. apply H.
  now apply list_elem_of_In.
Qed.

Section NoGradient.
Context {CO : CalcOps} {PB : PolicyBase} {CB : Collaborators}.

Lemma reversible_walk_without_parameters (this : DensityMatrixState)
    (pr : ParameterResolver) (p_map : gmap string N) (fg : list C)
    (herm_circ : circuit_t) :
  forallb (fun g => negb (differentiable g)) herm_circ = true ->
  forall sh sq : DensityMatrixState,
    foldM (fun g '(f_and_g, sim_ham, sim_qs) =>
             do f_and_g <-
               (if differentiable g then
                  do gi <- ExpectDiffGate (qs sim_qs) (qs sim_ham) g (dim this);
                  grad_reversible p_map g gi f_and_g
                else Ok f_and_g);
             do sim_ham <- step_gate pr g sim_ham;
             do sim_qs <- step_gate pr g sim_qs;
             Ok (f_and_g, sim_ham, sim_qs))
          herm_circ (fg, sh, sq)
    = do '(sh', sq') <-
        foldM (fun g '(sim_ham, sim_qs) =>
                 do sim_ham <- step_gate pr g sim_ham;
                 do sim_qs <- step_gate pr g sim_qs;
                 Ok (sim_ham, sim_qs))
              herm_circ (sh, sq);
      Ok (fg, sh', sq').
Proof.
  induction herm_circ as [|g gs IH]; intros Hfixed sh sq; [reflexivity|].
  simpl in Hfixed. apply andb_prop in Hfixed as [Hg Hgs].
  apply negb_true_iff in Hg. cbn [foldM]. rewrite Hg. cbn [rbind].
  destruct (step_gate pr g sh) as [sh1|]; cbn [rbind]; [|reflexivity].
  destruct (step_gate pr g sq) as [sq1|]; cbn [rbind]; [|reflexivity].
  apply IH, Hgs.
Qed.

(** X8: in the reversible mode, when no gate of [herm_circ] passes the
    size test [data_.size() != no_grad_parameters_.size()] that guards the
    accumulation, the call does what running [circ] and then stepping the
    Hamiltonian sidecar and the state through [herm_circ] does: it fails
    where they fail, and otherwise returns the expectation value of the
    state [circ] leaves followed by a zero for every entry of the
    parameter map. *)
Theorem reversible_grad_without_parameters (ham : ham_terms)
    (circ herm_circ : circuit_t) (enc0 : list real) (enc_rest : list (list real))
    (ans_data : list real) (enc_name ans_name : list string)
    (this : DensityMatrixState)
    (Hfixed : forallb (fun g => negb (differentiable g)) herm_circ = true) :
  let pr := SetItems (SetItems empty_resolver enc_name enc0) ans_name ans_data in
  GetExpectationWithReversibleGradOneOne ham circ herm_circ
    (enc0 :: enc_rest) ans_data enc_name ans_name this
  = do '(_, sim_qs) <- ApplyCircuit circ pr (copy_state this);
    do _ <- foldM (fun g '(sim_ham, sim_qs) =>
                     do sim_ham <- step_gate pr g sim_ham;
                     do sim_qs <- step_gate pr g sim_qs;
                     Ok (sim_ham, sim_qs))
                  herm_circ (ham_state this ham, sim_qs);
    Ok (GetExpectation (qs sim_qs) ham (dim this)
          :: replicate (size (build_p_map enc_name ans_name)) C_zero).
Proof.
  intros pr.
  unfold GetExpectationWithReversibleGradOneOne.
  change (vec_get (enc0 :: enc_rest) 0) with (Ok (A := list real) enc0).
  cbn [rbind]. fold pr.
  destruct (ApplyCircuit circ pr (copy_state this)) as [[res st']|e];
    cbn [rbind]; [|reflexivity].
  rewrite (reversible_walk_without_parameters this pr _ _ herm_circ Hfixed).
  unfold ham_state.
  destruct (foldM _ herm_circ _) as [[sh' sq']|e]; reflexivity.
Qed.

Lemma noise_walk_without_parameters (this : DensityMatrixState)
    (circ : circuit_t) (pr : ParameterResolver) (p_map : gmap string N)
    (fg : list C) :
  N.of_nat (length circ) < 2 ^ 64 ->
  forallb (fun g => negb (differentiable g)) circ = true ->
  forall (herm_circ : circuit_t) (n : nat) (sq sh : DensityMatrixState),
    (length herm_circ <= n <= length circ)%nat ->
    foldM (noise_walk_OneOne this circ pr p_map) herm_circ
          (N.of_nat n, fg, sq, sh)
    = do sh' <- foldM (step_gate pr) herm_circ sh;
      Ok (N.of_nat (n - length herm_circ), fg, sq, sh').
Proof.
  intros Hsz Hfixed.
  induction herm_circ as [|h herm IH]; intros n sq sh Hn.
  - cbn [foldM rbind length]. now rewrite Nat.sub_0_r.
  - cbn [foldM]. unfold noise_walk_OneOne at 1. cbn [length] in Hn.
    assert (Hsub : sub64 (N.of_nat n) 1 = N.of_nat (n - 1)).
    { unfold sub64, u64.
      replace (N.of_nat n + 2 ^ 64 - 1) with (N.of_nat (n - 1) + 1 * 2 ^ 64)
        by lia.
      rewrite N.Div0.mod_add. apply N.mod_small. lia. }
    rewrite Hsub. unfold vec_get. rewrite Nat2N.id.
    destruct (lookup_lt_is_Some_2 circ (n - 1)%nat ltac:(lia)) as [gn Hgn].
    rewrite Hgn. cbn [rbind].
    assert (Hd : differentiable gn = false).
    { apply negb_true_iff. apply (forallb_elem _ _ gn Hfixed).
      apply list_elem_of_lookup. eauto. }
    rewrite Hd. cbn [rbind].
    destruct (step_gate pr h sh) as [sh1|]; cbn [rbind]; [|reflexivity].
    rewrite IH by lia. cbn [length].
    replace (n - 1 - length herm)%nat with (n - S (length herm))%nat by lia.
    reflexivity.
Qed.

(** X9: in the noise mode, when [herm_circ] is no longer than [circ] and no
    gate of [circ] passes the size test
    [data_.size() != no_grad_parameters_.size()] that guards the
    accumulation, the call does what running [circ] and then stepping the
    Hamiltonian sidecar through [herm_circ] does: it fails where they
    fail, and otherwise returns the expectation value of the state [circ]
    leaves followed by a zero for every entry of the parameter map. *)
Theorem noise_grad_without_parameters (ham : ham_terms)
    (circ herm_circ : circuit_t) (pr : ParameterResolver)
    (p_map : gmap string N) (this : DensityMatrixState)
    (Hfixed : forallb (fun g => negb (differentiable g)) circ = true)
    (Hlen : (length herm_circ <= length circ)%nat)
    (Hsz : N.of_nat (length circ) < 2 ^ 64) :
  GetExpectationWithNoiseGradOneOne ham circ herm_circ pr p_map this
  = do '(_, sim_qs) <- ApplyCircuit circ pr (copy_state this);
    do _ <- foldM (step_gate pr) herm_circ (ham_state this ham);
    Ok (GetExpectation (qs sim_qs) ham (dim this)
          :: replicate (size p_map) C_zero).
Proof.
  unfold GetExpectationWithNoiseGradOneOne.
  destruct (ApplyCircuit circ pr (copy_state this)) as [[res st']|e];
    cbn [rbind]; [|reflexivity].
  cbv zeta.
  rewrite (noise_walk_without_parameters this circ pr p_map _ Hsz Hfixed)
    by lia.
  unfold ham_state.
  destruct (foldM _ herm_circ _) as [sh'|e]; reflexivity.
Qed.

End NoGradient.

Lemma reversible_grad_without_parameters_witness :
  let pr := @SetItems R_RingOps plain_collaborators
              (@SetItems R_RingOps plain_collaborators
                 (@empty_resolver R_RingOps plain_collaborators) ["a"] [1%R])
              [] [] in
  @GetExpectationWithReversibleGradOneOne R_CalcOps probe_policy
    plain_collaborators tt [rx_fixed] [rx_fixed] [[1%R]] [] ["a"] []
    plus_state
  = Ok [(2, 0); (0, 0)]%R
  /\ @GetExpectationWithReversibleGradOneOne R_CalcOps probe_policy
       plain_collaborators tt [rx_fixed] [rx_fixed] [[1%R]] [] ["a"] []
       plus_state
     = do '(_, sim_qs) <-
         @ApplyCircuit R_CalcOps probe_policy plain_collaborators [rx_fixed]
           pr (copy_state plus_state);
       do _ <- foldM (fun g '(sim_ham, sim_qs) =>
                        do sim_ham <- @step_gate R_CalcOps probe_policy
                                       plain_collaborators pr g sim_ham;
                        do sim_qs <- @step_gate R_CalcOps probe_policy
                                      plain_collaborators pr g sim_qs;
                        Ok (sim_ham, sim_qs))
                     [rx_fixed]
                     (@ham_state R_CalcOps probe_policy plain_collaborators
                        plus_state tt, sim_qs);
       Ok (@GetExpectation R_CalcOps probe_policy (qs sim_qs) tt
             (dim plus_state)
             :: replicate (size (build_p_map ["a"] [])) (@C_zero R_RingOps)).
Proof.
  intros pr. split; [reflexivity|].
  apply (@reversible_grad_without_parameters R_CalcOps probe_policy
           plain_collaborators tt [rx_fixed] [rx_fixed] [1%R] [] []
           ["a"] [] plus_state); reflexivity.
Defined.

Lemma noise_grad_without_parameters_witness :
  @GetExpectationWithNoiseGradOneOne R_CalcOps probe_policy
    plain_collaborators tt [rx_fixed] [rx_fixed] (params_ rx_theta)
    {[ "theta" := 0 ]} plus_state
  = Ok [(2, 0); (0, 0)]%R
  /\ @GetExpectationWithNoiseGradOneOne R_CalcOps probe_policy
       plain_collaborators tt [rx_fixed] [rx_fixed] (params_ rx_theta)
       {[ "theta" := 0 ]} plus_state
     = do '(_, sim_qs) <-
         @ApplyCircuit R_CalcOps probe_policy plain_collaborators [rx_fixed]
           (params_ rx_theta) (copy_state plus_state);
       do _ <- foldM (@step_gate R_CalcOps probe_policy plain_collaborators
                        (params_ rx_theta)) [rx_fixed]
                     (@ham_state R_CalcOps probe_policy plain_collaborators
                        plus_state tt);
       Ok (@GetExpectation R_CalcOps probe_policy (qs sim_qs) tt
             (dim plus_state)
             :: replicate (size ({[ "theta" := 0 ]} : gmap string N))
                          (@C_zero R_RingOps)).
Proof.
  split; [reflexivity|].
  apply (@noise_grad_without_parameters R_CalcOps probe_policy
           plain_collaborators tt [rx_fixed] [rx_fixed] (params_ rx_theta)
           {[ "theta" := 0 ]} plus_state); [reflexivity | simpl; lia | reflexivity].
Defined.

(** ** One Hamiltonian through the multi-Hamiltonian functions *)

Lemma foldM_lift {A S T} (lift : S -> T) (f : A -> S -> result S)
    (g : A -> T -> result T) (l : list A) :
  (forall a s, g a (lift s) = rbind (f a s) (fun s' => Ok (lift s'))) ->
  forall s, foldM g l (lift s) = rbind (foldM f l s) (fun s' => Ok (lift s')).
Proof.
  intros H. induction l as [|a l IH]; intros s; simpl; [reflexivity|].
  rewrite H. destruct (f a s) as [s'|e]; simpl; [apply IH | reflexivity].
Qed.

Lemma clamp_n_thread_single (n_thread : Z) :
  (1 <= n_thread)%Z -> clamp_n_thread n_thread 1 = 1%Z.
Proof.
  intros H. unfold clamp_n_thread.
  change (static_cast_int (Z.of_N 1)) with 1%Z.
  destruct (15 <? n_thread)%Z eqn:E1; [reflexivity|].
  destruct (1 <? n_thread)%Z eqn:E2; [reflexivity|].
  apply Z.ltb_ge in E2. lia.
Qed.

Section SingleHamiltonian.
Context {CO : CalcOps} {PB : PolicyBase} {CB : Collaborators}.

Lemma grad_rows_single
    (grad : gmap string N -> BasicGate -> C -> list C -> result (list C))
    (this sim_qs sim_ham : DensityMatrixState) (p_map : gmap string N)
    (g : BasicGate) (fg : list C) :
  grad_rows grad this sim_qs p_map g [0] [sim_ham] [fg]
  = do gi <- ExpectDiffGate (qs sim_qs) (qs sim_ham) g (dim this);
    do fg' <- grad p_map g gi fg;
    Ok [fg'].
Proof.
  unfold grad_rows. cbn [combine foldM].
  destruct (ExpectDiffGate (qs sim_qs) (qs sim_ham) g (dim this)) as [gi|e];
    cbn [rbind]; [|reflexivity].
  change (vec_get [fg] 0) with (Ok (A := list C) fg). cbn [rbind].
  destruct (grad p_map g gi fg) as [fg'|e]; reflexivity.
Qed.

(** X10: with a single Hamiltonian and a thread count of at least one, the
    multi-Hamiltonian noise-mode function returns the single-Hamiltonian
    result as its only row, and throws when that one throws. *)
Theorem noise_OneMulti_single (ham : ham_terms) (circ herm_circ : circuit_t)
    (pr : ParameterResolver) (p_map : gmap string N) (n_thread : Z)
    (this : DensityMatrixState) (Hthread : (1 <= n_thread)%Z) :
  GetExpectationWithNoiseGradOneMulti [ham] circ herm_circ pr p_map n_thread
                                      this
  = do f_and_g <- GetExpectationWithNoiseGradOneOne ham circ herm_circ pr
                                                    p_map this;
    Ok [f_and_g].
Proof.
  unfold GetExpectationWithNoiseGradOneMulti, GetExpectationWithNoiseGradOneOne.
  change (N.of_nat (length [ham])) with 1.
  rewrite (clamp_n_thread_single n_thread Hthread).
  destruct (ApplyCircuit circ pr (copy_state this)) as [[res sim_qs]|e];
    cbn [rbind]; [|reflexivity].
  change (group_count 1 1) with (Ok 1%Z). cbn [rbind].
  change (seq 0 (Z.to_nat 1)) with [0%nat]. cbn [foldM].
  change (group_bounds 1 1 (Z.of_nat 0)) with (Ok (0%Z, 1%Z)). cbn [rbind].
  cbv iota beta.
  change (1 - 0 <? 0)%Z with false. cbv iota.
  change (chunk_indices 0 1) with [0].
  unfold load_hams. cbn [foldM mapM].
  change (vec_get [ham] 0) with (Ok (A := ham_terms) ham). cbn [rbind].
  unfold vec_update. change (N.to_nat 0) with 0%nat.
  cbn [length replicate lookup list_lookup alter list_alter rbind].
  set (fg := <[0%nat := GetExpectation (qs sim_qs) ham (dim this)]>
               (replicate (1 + size p_map) C_zero)).
  set (sh := state_of_buffer (HamiltonianMatrix ham (dim this))
                             (n_qubits this) (seed this)).
  set (sq := State_CopyQS sim_qs (qs this)).
  cbv zeta.
  pose (lift := fun s : N * list C * DensityMatrixState * DensityMatrixState =>
                  let '(n, f, q, h) := s in (n, [f], q, [h])).
  change (N.of_nat (length circ), [fg], sq, [sh])
    with (lift (N.of_nat (length circ), fg, sq, sh)).
  rewrite (foldM_lift lift (noise_walk_OneOne this circ pr p_map)).
  - destruct (foldM (noise_walk_OneOne this circ pr p_map) herm_circ
                    (N.of_nat (length circ), fg, sq, sh))
      as [[[[n' fg'] sq'] sh']|e]; reflexivity.
  - intros h [[[n f] q] s]. unfold lift, noise_walk_OneMulti, noise_walk_OneOne.
    destruct (vec_get circ (sub64 n 1)) as [gn|e]; cbn [rbind]; [|reflexivity].
    destruct (differentiable gn).
    + destruct (foldM (step_gate pr) (take (S (N.to_nat (sub64 n 1))) circ) q)
        as [q'|e]; cbn [rbind]; [|reflexivity].
      rewrite grad_rows_single.
      destruct (ExpectDiffGate (qs q') (qs s) gn (dim this)) as [gi|e];
        cbn [rbind]; [|reflexivity].
      destruct (grad_noise p_map gn gi f) as [f'|e]; cbn [rbind];
        [|reflexivity].
      cbn [mapM]. destruct (step_gate pr h s) as [s'|e]; reflexivity.
    + cbn [rbind mapM]. destruct (step_gate pr h s) as [s'|e]; reflexivity.
Qed.

(** X11: the same in the reversible mode, where the single-Hamiltonian
    function builds the binding and the parameter map itself: handed that
    binding and that map, a single Hamiltonian and a thread count of at
    least one, the multi-Hamiltonian function returns the
    single-Hamiltonian result as its only row. *)
Theorem reversible_OneMulti_single (ham : ham_terms)
    (circ herm_circ : circuit_t) (enc0 : list real)
    (enc_rest : list (list real)) (ans_data : list real)
    (enc_name ans_name : list string) (n_thread : Z)
    (this : DensityMatrixState) (Hthread : (1 <= n_thread)%Z) :
  GetExpectationWithReversibleGradOneMulti [ham] circ herm_circ
    (SetItems (SetItems empty_resolver enc_name enc0) ans_name ans_data)
    (build_p_map enc_name ans_name) n_thread this
  = do f_and_g <- GetExpectationWithReversibleGradOneOne ham circ herm_circ
                    (enc0 :: enc_rest) ans_data enc_name ans_name this;
    Ok [f_and_g].
Proof.
  unfold GetExpectationWithReversibleGradOneMulti,
    GetExpectationWithReversibleGradOneOne.
  change (N.of_nat (length [ham])) with 1.
  rewrite (clamp_n_thread_single n_thread Hthread).
  change (vec_get (enc0 :: enc_rest) 0) with (Ok (A := list real) enc0).
  cbn [rbind]. cbv zeta.
  set (pr := SetItems (SetItems empty_resolver enc_name enc0) ans_name ans_data).
  set (p_map := build_p_map enc_name ans_name).
  destruct (ApplyCircuit circ pr (copy_state this)) as [[res sim_qs]|e];
    cbn [rbind]; [|reflexivity].
  change (group_count 1 1) with (Ok 1%Z). cbn [rbind].
  change (seq 0 (Z.to_nat 1)) with [0%nat]. cbn [foldM].
  change (group_bounds 1 1 (Z.of_nat 0)) with (Ok (0%Z, 1%Z)). cbn [rbind].
  cbv iota beta.
  change (1 - 0 <? 0)%Z with false. cbv iota.
  change (chunk_indices 0 1) with [0].
  unfold load_hams. cbn [foldM mapM].
  change (vec_get [ham] 0) with (Ok (A := ham_terms) ham). cbn [rbind].
  unfold vec_update. change (N.to_nat 0) with 0%nat.
  cbn [length replicate lookup list_lookup alter list_alter rbind].
  set (fg := <[0%nat := GetExpectation (qs sim_qs) ham (dim this)]>
               (replicate (1 + size p_map) C_zero)).
  set (sh := state_of_buffer (HamiltonianMatrix ham (dim this))
                             (n_qubits this) (seed this)).
  pose (lift := fun s : list C * DensityMatrixState * DensityMatrixState =>
                  let '(f, h, q) := s in ([f], [h], q)).
  change ([fg], [sh], sim_qs) with (lift (fg, sh, sim_qs)).
  match goal with
  | |- context [foldM ?F herm_circ (fg, sh, sim_qs)] =>
      rewrite (foldM_lift lift F)
  end.
  - match goal with
    | |- context [foldM ?F herm_circ (fg, sh, sim_qs)] =>
        destruct (foldM F herm_circ (fg, sh, sim_qs)) as [[[fg' sh'] sq']|e]
    end; reflexivity.
  - intros g [[f h] q]. unfold lift.
    destruct (differentiable g).
    + rewrite grad_rows_single.
      destruct (ExpectDiffGate (qs q) (qs h) g (dim this)) as [gi|e];
        cbn [rbind]; [|reflexivity].
      destruct (grad_reversible p_map g gi f) as [f'|e]; cbn [rbind];
        [|reflexivity].
      cbn [mapM]. destruct (step_gate pr g h) as [h'|e]; cbn [rbind];
        [|reflexivity].
      destruct (step_gate pr g q) as [q'|e]; reflexivity.
    + cbn [rbind mapM]. destruct (step_gate pr g h) as [h'|e]; cbn [rbind];
        [|reflexivity].
      destruct (step_gate pr g q) as [q'|e]; reflexivity.
Qed.

End SingleHamiltonian.

Lemma noise_OneMulti_single_witness :
  @GetExpectationWithNoiseGradOneMulti R_CalcOps idle_policy
    plain_collaborators [tt] [rx_theta] [rx_theta] (params_ rx_theta)
    {[ "theta" := 0 ]} 4 plus_state
  = do f_and_g <- @GetExpectationWithNoiseGradOneOne R_CalcOps idle_policy
                    plain_collaborators tt [rx_theta] [rx_theta]
                    (params_ rx_theta) {[ "theta" := 0 ]} plus_state;
    Ok [f_and_g].
Proof.
  apply (@noise_OneMulti_single R_CalcOps idle_policy plain_collaborators).
  lia.
Defined.

Lemma reversible_OneMulti_single_witness :
  @GetExpectationWithReversibleGradOneMulti R_CalcOps idle_policy
    plain_collaborators [tt] [rx_theta] [rx_theta]
    (@SetItems R_RingOps plain_collaborators
       (@SetItems R_RingOps plain_collaborators
          (@empty_resolver R_RingOps plain_collaborators) [] [])
       ["theta"] [1%R])
    (build_p_map [] ["theta"]) 4 plus_state
  = do f_and_g <- @GetExpectationWithReversibleGradOneOne R_CalcOps
                    idle_policy plain_collaborators tt [rx_theta] [rx_theta]
                    [[]] [1%R] [] ["theta"] plus_state;
    Ok [f_and_g].
Proof.
  apply (@reversible_OneMulti_single R_CalcOps idle_policy
           plain_collaborators).
  lia.
Defined.

(** ** Thread counts and groups *)

Lemma chunk_indices_seq (start end_ : Z) :
  (0 <= start)%Z ->
  chunk_indices start end_
  = map N.of_nat (seq (Z.to_nat start) (Z.to_nat (end_ - start))).
Proof.
  intros H. unfold chunk_indices.
  rewrite <- (Nat.add_0_r (Z.to_nat start)) at 1.
  rewrite <- fmap_add_seq.
  change (Nat.add (Z.to_nat start) <$> seq 0 (Z.to_nat (end_ - start)))
    with (map (Nat.add (Z.to_nat start)) (seq 0 (Z.to_nat (end_ - start)))).
  rewrite map_map. apply map_ext. intros a. lia.
Qed.

Lemma to_size_t_small (x : Z) : (0 <= x < 2 ^ 64)%Z -> to_size_t x = Z.to_N x.
Proof. intros H. unfold to_size_t. now rewrite Z.mod_small. Qed.

Lemma group_count_pos (n_hams : N) (t : Z) :
  (1 <= t <= Z.of_N n_hams)%Z -> (Z.of_N n_hams < 2 ^ 31)%Z ->
  exists n_group, group_count n_hams t = Ok n_group
    /\ (0 <= n_group)%Z
    /\ ((n_group - 1) * t < Z.of_N n_hams <= n_group * t)%Z.
Proof.
  intros Ht Hm. unfold group_count.
  rewrite to_size_t_small by lia.
  destruct (Z.to_N t =? 0) eqn:E; [apply N.eqb_eq in E; lia|].
  eexists. split; [reflexivity|].
  assert (Hq : Z.of_N (n_hams / Z.to_N t) = (Z.of_N n_hams / t)%Z).
  { rewrite N2Z.inj_div. rewrite Z2N.id by lia. reflexivity. }
  assert (Hr : Z.of_N (n_hams mod Z.to_N t) = (Z.of_N n_hams mod t)%Z).
  { rewrite N2Z.inj_mod. rewrite Z2N.id by lia. reflexivity. }
  pose proof (Z.div_mod (Z.of_N n_hams) t ltac:(lia)) as Hdm.
  pose proof (Z.mod_pos_bound (Z.of_N n_hams) t ltac:(lia)) as Hb.
  assert (Hq0 : (0 <= Z.of_N n_hams / t <= Z.of_N n_hams)%Z).
  { split; [apply Z.div_pos; lia|]. apply Z.div_le_upper_bound; nia. }
  rewrite Hq, static_cast_int_small by lia.
  destruct (n_hams mod Z.to_N t =? 0) eqn:E2;
    [apply N.eqb_eq in E2 | apply N.eqb_neq in E2].
  - rewrite E2 in Hr. simpl in Hr. nia.
  - assert ((Z.of_N n_hams mod t)%Z <> 0%Z) by lia. nia.
Qed.

Lemma groups_prefix (n_hams : N) (t : Z) (k : nat) :
  (1 <= t)%Z -> (Z.of_N n_hams < 2 ^ 31)%Z ->
  ((Z.of_nat k - 1) * t < Z.of_N n_hams)%Z ->
  (Z.of_nat k * t < 2 ^ 31)%Z ->
  concat (map (fun i => match group_bounds n_hams t (Z.of_nat i) with
                        | Ok (start, end_) => chunk_indices start end_
                        | Err _ => []
                        end) (seq 0 k))
  = map N.of_nat (seq 0 (Z.to_nat (Z.min (Z.of_nat k * t) (Z.of_N n_hams)))).
Proof.
  intros Ht Hm. induction k as [|k IH]; intros Hk Hov.
  - replace (Z.min (Z.of_nat 0 * t) (Z.of_N n_hams)) with 0%Z by lia.
    reflexivity.
  - rewrite seq_S, map_app, concat_app, IH by nia. cbn [map concat Nat.add].
    rewrite app_nil_r, group_bounds_small by nia.
    rewrite static_cast_int_small by lia.
    rewrite chunk_indices_seq by nia.
    rewrite <- map_app. f_equal.
    replace (Z.min (Z.of_nat k * t) (Z.of_N n_hams))
      with (Z.of_nat k * t)%Z by nia.
    replace (Z.to_nat (Z.min (Z.of_nat (S k) * t) (Z.of_N n_hams)))
      with (Z.to_nat (Z.of_nat k * t)
            + Z.to_nat (Z.min ((Z.of_nat k + 1) * t) (Z.of_N n_hams)
                        - Z.of_nat k * t))%nat by nia.
    rewrite seq_app. reflexivity.
Qed.

(** X12: with a thread count of at least one and at least one Hamiltonian,
    and as long as the number of Hamiltonians plus 15 fits an [int], the
    group count and the bounds of every group are computed without
    failure, and the groups of the multi-Hamiltonian functions visit every
    index 0 .. n_hams-1 exactly once, in increasing order; no group is
    empty and none holds more indexes than the clamped thread count.
    Beyond that the product [(i + 1) * n_thread] can leave the range of
    [int]: it does for the last group of 2^31 - 1 Hamiltonians on 15
    threads. *)
Theorem group_partition (n_thread : Z) (n_hams : N)
    (Hthread : (1 <= n_thread)%Z) (Hhams : 0 < n_hams)
    (Hint : (Z.of_N n_hams + 15 <= 2 ^ 31)%Z) :
  let t := clamp_n_thread n_thread n_hams in
  match group_count n_hams t with
  | Ok n_group =>
      concat (map (fun i => match group_bounds n_hams t (Z.of_nat i) with
                            | Ok (start, end_) => chunk_indices start end_
                            | Err _ => []
                            end)
                  (seq 0 (Z.to_nat n_group)))
      = N_range n_hams
      /\ forall i, (i < Z.to_nat n_group)%nat ->
           exists start end_,
             group_bounds n_hams t (Z.of_nat i) = Ok (start, end_)
             /\ (0 <= start < end_)%Z /\ (end_ - start <= t)%Z
  | Err _ => False
  end
  /\ group_bounds (2 ^ 31 - 1) (clamp_n_thread 15 (2 ^ 31 - 1)) 143165576
     = Err (Undefined "signed integer overflow").
Proof.
  intros t. split; [|reflexivity].
  assert (Ht : (1 <= t <= Z.of_N n_hams)%Z /\ (t <= 15)%Z).
  { subst t. rewrite clamp_n_thread_value.
    rewrite static_cast_int_small by lia. lia. }
  destruct Ht as [Ht Ht15].
  destruct (group_count_pos n_hams t Ht ltac:(lia)) as (G & -> & HG0 & HG).
  split.
  - rewrite groups_prefix by nia.
    unfold N_range. do 2 f_equal. lia.
  - intros i Hi. rewrite group_bounds_small by nia.
    rewrite static_cast_int_small by lia.
    eexists _, _. split; [reflexivity|]. nia.
Qed.

Lemma group_partition_witness :
  match group_count 5 (clamp_n_thread 2 5) with
  | Ok n_group =>
      concat (map (fun i => match group_bounds 5 (clamp_n_thread 2 5)
                                               (Z.of_nat i) with
                            | Ok (start, end_) => chunk_indices start end_
                            | Err _ => []
                            end)
                  (seq 0 (Z.to_nat n_group)))
      = N_range 5
      /\ forall i, (i < Z.to_nat n_group)%nat ->
           exists start end_,
             group_bounds 5 (clamp_n_thread 2 5) (Z.of_nat i)
             = Ok (start, end_)
             /\ (0 <= start < end_)%Z
             /\ (end_ - start <= clamp_n_thread 2 5)%Z
  | Err _ => False
  end
  /\ group_bounds (2 ^ 31 - 1) (clamp_n_thread 15 (2 ^ 31 - 1)) 143165576
     = Err (Undefined "signed integer overflow").
Proof. apply (group_partition 2 5); [lia | lia | cbn; lia]. Defined.

Lemma clamp_n_thread_zero (n_thread : Z) (n_hams : N) :
  (Z.of_N n_hams < 2 ^ 31)%Z ->
  n_thread = 0%Z \/ (n_hams = 0 /\ (0 <= n_thread)%Z) ->
  clamp_n_thread n_thread n_hams = 0%Z.
Proof.
  intros Hm H. unfold clamp_n_thread.
  rewrite static_cast_int_small by lia.
  destruct (15 <? n_thread)%Z eqn:E1;
    [apply Z.ltb_lt in E1 | apply Z.ltb_ge in E1].
  - destruct (Z.of_N n_hams <? 15)%Z eqn:E2;
      [apply Z.ltb_lt in E2 | apply Z.ltb_ge in E2]; lia.
  - destruct (Z.of_N n_hams <? n_thread)%Z eqn:E2;
      [apply Z.ltb_lt in E2 | apply Z.ltb_ge in E2]; lia.
Qed.

Lemma clamp_n_thread_negative (n_thread : Z) (n_hams : N) :
  (Z.of_N n_hams < 2 ^ 31)%Z -> (n_thread < 0)%Z ->
  clamp_n_thread n_thread n_hams = n_thread.
Proof.
  intros Hm H. unfold clamp_n_thread.
  rewrite static_cast_int_small by lia.
  destruct (15 <? n_thread)%Z eqn:E1;
    [apply Z.ltb_lt in E1; lia | apply Z.ltb_ge in E1].
  destruct (Z.of_N n_hams <? n_thread)%Z eqn:E2;
    [apply Z.ltb_lt in E2 | apply Z.ltb_ge in E2]; lia.
Qed.

Lemma group_count_negative (n_hams : N) (t : Z) :
  0 < n_hams -> (Z.of_N n_hams < 2 ^ 31)%Z -> (- 2 ^ 31 <= t < 0)%Z ->
  group_count n_hams t = Ok 1%Z.
Proof.
  intros H0 Hm Ht. unfold group_count, to_size_t.
  assert (E : (t mod 2 ^ 64 = 2 ^ 64 + t)%Z).
  { symmetry. apply (Z.mod_unique _ _ (-1)); lia. }
  rewrite E.
  assert (Hlt : n_hams < Z.to_N (2 ^ 64 + t)) by lia.
  destruct (Z.to_N (2 ^ 64 + t) =? 0) eqn:E0; [apply N.eqb_eq in E0; lia|].
  rewrite N.mod_small, N.div_small by exact Hlt.
  destruct (n_hams =? 0) eqn:E1; [apply N.eqb_eq in E1; lia|].
  reflexivity.
Qed.

Section Threads.
Context {CO : CalcOps} {PB : PolicyBase} {CB : Collaborators}.

(** X13: both multi-Hamiltonian functions divide by the clamped thread
    count without testing it.  A thread count of zero, or an empty list of
    Hamiltonians with a thread count that is not negative, makes that
    count zero: once the circuit has been applied, the call ends in an
    integer division by zero (when the circuit throws, that exception
    comes first). *)
Theorem OneMulti_no_threads (hams : list ham_terms)
    (circ herm_circ : circuit_t) (pr : ParameterResolver)
    (p_map : gmap string N) (n_thread : Z) (this : DensityMatrixState)
    (Hint : (Z.of_nat (length hams) < 2 ^ 31)%Z)
    (Hzero : n_thread = 0%Z \/ (hams = [] /\ (0 <= n_thread)%Z)) :
  let crash :=
    match ApplyCircuit circ pr (copy_state this) with
    | Ok _ => Err (Undefined "integer division by zero")
    | Err e => Err e
    end in
  GetExpectationWithReversibleGradOneMulti hams circ herm_circ pr p_map
    n_thread this = crash
  /\ GetExpectationWithNoiseGradOneMulti hams circ herm_circ pr p_map
       n_thread this = crash.
Proof.
  assert (Hc : clamp_n_thread n_thread (N.of_nat (length hams)) = 0%Z).
  { apply clamp_n_thread_zero; [lia|].
    destruct Hzero as [->|[-> H]]; [now left | right; split; [reflexivity|lia]]. }
  cbv zeta.
  unfold GetExpectationWithReversibleGradOneMulti,
    GetExpectationWithNoiseGradOneMulti.
  cbv zeta. rewrite Hc.
  change (group_count (N.of_nat (length hams)) 0)
    with (Err (A := Z) (Undefined "integer division by zero")).
  destruct (ApplyCircuit circ pr (copy_state this)) as [[res sim_qs]|e];
    split; reflexivity.
Qed.

(** X14: a negative thread count with at least one Hamiltonian passes the
    clamp unchanged; the division, done in [size_t], gives one group, whose
    bounds are 0 and the negative count, and the vector of sidecars of
    negative size makes both functions leave with [std::length_error]
    once the circuit has been applied. *)
Theorem OneMulti_negative_threads (hams : list ham_terms)
    (circ herm_circ : circuit_t) (pr : ParameterResolver)
    (p_map : gmap string N) (n_thread : Z) (this : DensityMatrixState)
    (Hhams : hams <> [])
    (Hint : (Z.of_nat (length hams) < 2 ^ 31)%Z)
    (Hneg : (- 2 ^ 31 <= n_thread < 0)%Z) :
  let refused :=
    match ApplyCircuit circ pr (copy_state this) with
    | Ok _ => Err LengthError
    | Err e => Err e
    end in
  GetExpectationWithReversibleGradOneMulti hams circ herm_circ pr p_map
    n_thread this = refused
  /\ GetExpectationWithNoiseGradOneMulti hams circ herm_circ pr p_map
       n_thread this = refused.
Proof.
  assert (Hlen : 0 < N.of_nat (length hams)).
  { destruct hams; [congruence|]. cbn [length]. lia. }
  assert (Hc : clamp_n_thread n_thread (N.of_nat (length hams)) = n_thread)
    by (apply clamp_n_thread_negative; lia).
  assert (Hb : group_bounds (N.of_nat (length hams)) n_thread (Z.of_nat 0)
               = Ok (0%Z, n_thread)).
  { rewrite group_bounds_small by lia.
    rewrite static_cast_int_small by lia. do 2 f_equal; lia. }
  assert (Hlt : (n_thread - 0 <? 0)%Z = true) by (apply Z.ltb_lt; lia).
  cbv zeta.
  unfold GetExpectationWithReversibleGradOneMulti,
    GetExpectationWithNoiseGradOneMulti.
  cbv zeta. rewrite Hc.
  rewrite (group_count_negative _ _ Hlen) by lia.
  destruct (ApplyCircuit circ pr (copy_state this)) as [[res sim_qs]|e];
    cbn [rbind]; [|split; reflexivity].
  change (seq 0 (Z.to_nat 1)) with [0%nat]. cbn [foldM].
  rewrite Hb. cbn [rbind]. cbv iota beta. rewrite Hlt. split; reflexivity.
Qed.

End Threads.

Lemma OneMulti_no_threads_witness :
  let crash :=
    match @ApplyCircuit R_CalcOps idle_policy plain_collaborators [rx_theta]
            (params_ rx_theta) (copy_state plus_state) with
    | Ok _ => Err (Undefined "integer division by zero")
    | Err e => Err e
    end in
  @GetExpectationWithReversibleGradOneMulti R_CalcOps idle_policy
    plain_collaborators [tt] [rx_theta] [rx_theta] (params_ rx_theta)
    {[ "theta" := 0 ]} 0 plus_state = crash
  /\ @GetExpectationWithNoiseGradOneMulti R_CalcOps idle_policy
       plain_collaborators [tt] [rx_theta] [rx_theta] (params_ rx_theta)
       {[ "theta" := 0 ]} 0 plus_state = crash.
Proof.
  apply (@OneMulti_no_threads R_CalcOps idle_policy plain_collaborators).
  - reflexivity.
  - left. reflexivity.
Defined.

Lemma OneMulti_negative_threads_witness :
  let refused :=
    match @ApplyCircuit R_CalcOps idle_policy plain_collaborators [rx_theta]
            (params_ rx_theta) (copy_state plus_state) with
    | Ok _ => Err LengthError
    | Err e => Err e
    end in
  @GetExpectationWithReversibleGradOneMulti R_CalcOps idle_policy
    plain_collaborators [tt] [rx_theta] [rx_theta] (params_ rx_theta)
    {[ "theta" := 0 ]} (-1) plus_state = refused
  /\ @GetExpectationWithNoiseGradOneMulti R_CalcOps idle_policy
       plain_collaborators [tt] [rx_theta] [rx_theta] (params_ rx_theta)
       {[ "theta" := 0 ]} (-1) plus_state = refused.
Proof.
  apply (@OneMulti_negative_threads R_CalcOps idle_policy
           plain_collaborators).
  - discriminate.
  - reflexivity.
  - lia.
Defined.

(** ** Invariants of the runtime gate builder *)

Lemma found_elem (q : N) (v : list N) : RtGate.found q v = true <-> q ∈ v.
Proof.
  unfold RtGate.found. rewrite existsb_exists. split.
  - intros (x & Hx & E). apply N.eqb_eq in E. subst x.
    now apply list_elem_of_In.
  - intros H. exists q. split; [now apply list_elem_of_In | apply N.eqb_refl].
Qed.

Lemma found_not_elem (q : N) (v : list N) : RtGate.found q v = false <-> q ∉ v.
Proof.
  rewrite <- found_elem. destruct (RtGate.found q v); split; congruence.
Qed.

Lemma NoDup_push_back (q : N) (v : list N) : NoDup v -> q ∉ v -> NoDup (v ++ [q]).
Proof.
  intros Hv Hq. apply NoDup_app. split; [exact Hv|]. split.
  - intros x Hx Hx'. apply list_elem_of_singleton in Hx'. now subst x.
  - apply NoDup_singleton.
Qed.

(** X15: a record whose object list and control list each hold no qubit
    twice keeps that property through [AddObj] and through [AddCtrl],
    whether the call succeeds or throws. *)
Theorem AddObj_AddCtrl_keep_distinct (q : N) (g : RtGate.Gate)
    (Hg : RtGate.distinct_qubits g) :
  RtGate.distinct_qubits (snd (RtGate.AddObj q g))
  /\ RtGate.distinct_qubits (snd (RtGate.AddCtrl q g)).
Proof.
  destruct Hg as [Ho Hc]. unfold RtGate.AddObj, RtGate.AddCtrl.
  destruct (RtGate.found q (RtGate.objs g)) eqn:Eo;
    [apply found_elem in Eo | apply found_not_elem in Eo];
    (destruct (RtGate.found q (RtGate.ctrls g)) eqn:Ec;
     [apply found_elem in Ec | apply found_not_elem in Ec]);
    cbn [fst snd]; unfold RtGate.distinct_qubits; cbn [RtGate.objs RtGate.ctrls];
    repeat split; auto using NoDup_push_back.
Qed.

(** X16: [AddCtrl] keeps the control list apart from the object list: when
    no control qubit of the record is found among its object qubits, none
    is after the call.  ([AddObj] does not keep this, as it never reads
    the control list.) *)
Theorem AddCtrl_keeps_apart (q : N) (g : RtGate.Gate)
    (Hg : forallb (fun c => negb (RtGate.found c (RtGate.objs g)))
                  (RtGate.ctrls g) = true) :
  forallb (fun c => negb (RtGate.found c
                            (RtGate.objs (snd (RtGate.AddCtrl q g)))))
          (RtGate.ctrls (snd (RtGate.AddCtrl q g))) = true.
Proof.
  unfold RtGate.AddCtrl.
  destruct (RtGate.found q (RtGate.objs g)) eqn:Eo; [exact Hg|].
  destruct (RtGate.found q (RtGate.ctrls g)) eqn:Ec; [exact Hg|].
  cbn [snd RtGate.objs RtGate.ctrls].
  rewrite forallb_app, Hg. cbn [forallb]. now rewrite Eo.
Qed.

Lemma AddObj_AddCtrl_keep_distinct_witness :
  let g := {| RtGate.gate := RtGate.X; RtGate.objs := [0];
              RtGate.ctrls := [1] |} in
  RtGate.distinct_qubits (snd (RtGate.AddObj 2 g))
  /\ RtGate.distinct_qubits (snd (RtGate.AddCtrl 2 g)).
Proof.
  intros g. apply (AddObj_AddCtrl_keep_distinct 2 g).
  split; apply NoDup_singleton.
Defined.

Lemma AddCtrl_keeps_apart_witness :
  let g := {| RtGate.gate := RtGate.X; RtGate.objs := [0];
              RtGate.ctrls := [1] |} in
  forallb (fun c => negb (RtGate.found c
                            (RtGate.objs (snd (RtGate.AddCtrl 2 g)))))
          (RtGate.ctrls (snd (RtGate.AddCtrl 2 g))) = true.
Proof. intros g. apply (AddCtrl_keeps_apart 2 g). reflexivity. Defined.

(** ** Z-like kernels compose and commute *)

Section ZLikeCompose.
Context {RO : RingOps}.
Hypothesis Rth : ring_theory R_zero R_one R_add R_mul R_sub R_opp eq.
Add Ring calc_ring_laws_compose : Rth.

Lemma Cmul_comm (x y : C) : Cmul x y = Cmul y x.
Proof. destruct x, y. unfold Cmul, Re, Im. simpl. f_equal; ring. Qed.

Lemma Cconj_Cmul (x y : C) : Cmul (Cconj x) (Cconj y) = Cconj (Cmul x y).
Proof. destruct x, y. unfold Cmul, Cconj, Re, Im. simpl. f_equal; ring. Qed.

Lemma Cnorm_Cmul (x y : C) : R_mul (Cnorm x) (Cnorm y) = Cnorm (Cmul x y).
Proof. destruct x, y. unfold Cmul, Cnorm, Re, Im. simpl. ring. Qed.

Lemma scales_ext (F : buffer -> buffer) (w w' : nat -> C) :
  (forall i, w i = w' i) -> scales F w -> scales F w'.
Proof. intros E H q i. rewrite H. now rewrite E. Qed.

Lemma fused_id : fused (fun q => q) (fun q => q) (fun q => q).
Proof.
  exists (fun _ => C_one), (fun _ => C_one).
  split; [apply (scales_id Rth)|]. split; [apply (scales_id Rth)|].
  apply (scales_ext _ (fun _ => C_one)); [|apply (scales_id Rth)].
  intros _. symmetry. apply (Cmul_one Rth).
Qed.

Lemma fused_comp (F G H F' G' H' : buffer -> buffer) :
  fused F G H -> fused F' G' H' ->
  fused (fun q => F' (F q)) (fun q => G' (G q)) (fun q => H' (H q)).
Proof.
  intros (w & v & Hw & Hv & Hh) (w' & v' & Hw' & Hv' & Hh').
  exists (fun i => Cmul (w i) (w' i)), (fun i => Cmul (v i) (v' i)).
  split; [now apply (scales_comp Rth)|]. split; [now apply (scales_comp Rth)|].
  eapply scales_ext; [|exact (scales_comp Rth _ _ _ _ Hh Hh')].
  intros i. cbv beta. apply (Cmul_four Rth).
Qed.

Lemma fused_alter (f g h : C -> C) (i0 : nat) (a b : C) :
  (forall x, f x = Cmul x a) -> (forall x, g x = Cmul x b) ->
  (forall x, h x = Cmul x (Cmul a b)) ->
  fused (alter f i0) (alter g i0) (alter h i0).
Proof.
  intros Hf Hg Hh.
  exists (fun i => if decide (i = i0) then a else C_one),
         (fun i => if decide (i = i0) then b else C_one).
  split; [now apply (scales_alter Rth)|]. split; [now apply (scales_alter Rth)|].
  eapply scales_ext; [|exact (scales_alter Rth h i0 _ Hh)].
  intros i. cbv beta. destruct (decide (i = i0)); [reflexivity|].
  symmetry. apply (Cmul_one Rth).
Qed.

Lemma fused_mul_at (F G H : buffer -> buffer) (i : N) (a b : C) :
  fused F G H ->
  fused (fun q => mul_at i a (F q)) (fun q => mul_at i b (G q))
        (fun q => mul_at i (Cmul a b) (H q)).
Proof.
  intros HF. unfold mul_at. apply (fused_comp F G H _ _ _ HF).
  now apply (fused_alter _ _ _ _ a b).
Qed.

Lemma fused_scale_at (F G H : buffer -> buffer) (i : N) (a b : C) :
  fused F G H ->
  fused (fun q => scale_at i (Cnorm a) (F q))
        (fun q => scale_at i (Cnorm b) (G q))
        (fun q => scale_at i (Cnorm (Cmul a b)) (H q)).
Proof.
  intros HF. unfold scale_at. apply (fused_comp F G H _ _ _ HF).
  apply (fused_alter _ _ _ _ (Cnorm a, R_zero) (Cnorm b, R_zero));
    try (intros x; apply (Cscale_Cmul Rth)).
  intros x. rewrite (Cscale_Cmul Rth). f_equal.
  rewrite <- Cnorm_Cmul. unfold Cmul, Re, Im. simpl. f_equal; ring.
Qed.

Lemma fused_SelfMultiply (F G H : buffer -> buffer) (x y : N) (a b : C) :
  fused F G H ->
  fused (fun q => SelfMultiply (F q) x y (Cconj a))
        (fun q => SelfMultiply (G q) x y (Cconj b))
        (fun q => SelfMultiply (H q) x y (Cconj (Cmul a b))).
Proof.
  intros HF. unfold SelfMultiply. destruct (y <=? x).
  - rewrite <- Cconj_Cmul. now apply fused_mul_at.
  - rewrite <- !Cconj_Cmul. now apply fused_mul_at.
Qed.

Lemma fused_for_N (n : N) (f g h : N -> buffer -> buffer) :
  (forall k, fused (f k) (g k) (h k)) ->
  fused (for_N n f) (for_N n g) (for_N n h).
Proof.
  intros Hb. unfold for_N. generalize (seq 0 (N.to_nat n)). intros l.
  assert (E : forall F G H, fused F G H ->
            fused (fun q => fold_left (fun acc i => f (N.of_nat i) acc) l (F q))
                  (fun q => fold_left (fun acc i => g (N.of_nat i) acc) l (G q))
                  (fun q => fold_left (fun acc i => h (N.of_nat i) acc) l (H q))).
  { induction l as [|a l IH]; intros F G H HF; simpl; [exact HF|].
    apply (IH (fun q => f (N.of_nat a) (F q)) (fun q => g (N.of_nat a) (G q))
              (fun q => h (N.of_nat a) (H q))).
    now apply fused_comp. }
  exact (E _ _ _ fused_id).
Qed.

Lemma fused_ApplyZLike (objs ctrls : list N) (a b : C) (dim : N) :
  fused (fun q => ApplyZLike q objs ctrls a dim)
        (fun q => ApplyZLike q objs ctrls b dim)
        (fun q => ApplyZLike q objs ctrls (Cmul a b) dim).
Proof.
  unfold ApplyZLike, ApplyZLike_with.
  set (mask := SingleQubitGateMask objs ctrls).
  destruct (ctrl_mask mask =? 0).
  - apply fused_for_N. intros k. cbv beta zeta.
    apply fused_for_N. intros l. cbv beta zeta.
    apply fused_SelfMultiply. apply fused_mul_at. apply fused_scale_at.
    apply fused_id.
  - apply fused_for_N. intros k. cbv beta zeta.
    apply fused_for_N. intros l. cbv beta zeta.
    destruct (N.land (expand mask k) (ctrl_mask mask) =? ctrl_mask mask);
      destruct (N.land (expand mask l) (ctrl_mask mask) =? ctrl_mask mask);
      cbn [negb andb].
    + apply fused_scale_at. apply fused_mul_at. apply fused_SelfMultiply.
      apply fused_mul_at. apply fused_scale_at. apply fused_id.
    + apply fused_scale_at. apply fused_mul_at. apply fused_mul_at.
      apply fused_mul_at. apply fused_id.
    + apply fused_SelfMultiply. rewrite <- Cconj_Cmul. apply fused_mul_at.
      apply fused_id.
    + apply fused_id.
Qed.

Lemma ApplyZLike_scales (objs ctrls : list N) (val : C) (dim : N) :
  exists w, scales (fun q => ApplyZLike q objs ctrls val dim) w.
Proof.
  destruct (fused_ApplyZLike objs ctrls val val dim) as (w & _ & Hw & _).
  now exists w.
Qed.

Lemma ApplyZLike_fuse (qs : buffer) (objs ctrls : list N) (a b : C)
    (dim : N) :
  ApplyZLike (ApplyZLike qs objs ctrls a dim) objs ctrls b dim
  = ApplyZLike qs objs ctrls (Cmul a b) dim.
Proof.
  destruct (fused_ApplyZLike objs ctrls a b dim) as (w & v & Hw & Hv & Hh).
  apply list_eq. intros i. rewrite Hv, Hw, Hh.
  destruct (qs !! i) as [x|]; simpl; [|reflexivity].
  now rewrite (Cmul_assoc Rth).
Qed.

(** X17: two Z-like kernels on the same qubits compose into the Z-like
    kernel of the product of their diagonal values, on every buffer and
    for every choice of qubits; so the S gate applied twice is the Z gate,
    and the kernel of the value 1 changes nothing.  (Exact scalars: a
    commutative ring; [SelfMultiply] as modelled above.) *)
Theorem ApplyZLike_compose (qs : buffer) (objs ctrls : list N) (a b : C)
    (dim : N) :
  ApplyZLike (ApplyZLike qs objs ctrls a dim) objs ctrls b dim
  = ApplyZLike qs objs ctrls (Cmul a b) dim
  /\ ApplySGate (ApplySGate qs objs ctrls dim) objs ctrls dim
     = ApplyZ qs objs ctrls dim
  /\ ApplyZLike qs objs ctrls C_one dim = qs.
Proof.
  split; [apply ApplyZLike_fuse|]. split.
  - unfold ApplySGate, ApplyZ. rewrite ApplyZLike_fuse. f_equal.
    unfold Cmul, Re, Im. simpl. f_equal; ring.
  - assert (H1 : Cmul C_one C_one = C_one) by apply (Cmul_one Rth).
    rewrite <- H1 at 1. rewrite <- ApplyZLike_fuse.
    apply (ApplyZLike_inverse Rth); [exact H1|].
    unfold Cnorm, C_one, Re, Im. simpl. ring.
Qed.

(** X18: any two Z-like kernels commute, whatever their qubits, controls
    and diagonal values: each multiplies every stored entry by a factor
    that does not depend on the buffer.  (Exact scalars: a commutative
    ring; [SelfMultiply] as modelled above.) *)
Theorem ApplyZLike_commute (qs : buffer) (objs objs' ctrls ctrls' : list N)
    (a b : C) (dim : N) :
  ApplyZLike (ApplyZLike qs objs ctrls a dim) objs' ctrls' b dim
  = ApplyZLike (ApplyZLike qs objs' ctrls' b dim) objs ctrls a dim.
Proof.
  destruct (ApplyZLike_scales objs ctrls a dim) as (w & Hw).
  destruct (ApplyZLike_scales objs' ctrls' b dim) as (v & Hv).
  apply list_eq. intros i. rewrite Hv, Hw, Hw, Hv.
  destruct (qs !! i) as [x|]; simpl; [|reflexivity].
  rewrite !(Cmul_assoc Rth). f_equal. f_equal. apply Cmul_comm.
Qed.

End ZLikeCompose.

Lemma ApplyZLike_compose_witness :
  let qs0 : list (@C R_RingOps) := [(1, 0); (2, 1); (3, 0)]%R in
  let a : @C R_RingOps := (0, 1)%R in
  let b : @C R_RingOps := (0, -1)%R in
  @ApplyZLike R_RingOps (@ApplyZLike R_RingOps qs0 [0] [] a 2) [0] [] b 2
  = @ApplyZLike R_RingOps qs0 [0] [] (@Cmul R_RingOps a b) 2
  /\ @ApplySGate R_RingOps (@ApplySGate R_RingOps qs0 [0] [] 2) [0] [] 2
     = @ApplyZ R_RingOps qs0 [0] [] 2
  /\ @ApplyZLike R_RingOps qs0 [0] [] (@C_one R_RingOps) 2 = qs0.
Proof.
  intros qs0 a b. apply (@ApplyZLike_compose R_RingOps). exact RTheory.
Defined.

Lemma ApplyZLike_commute_witness :
  let qs0 : list (@C R_RingOps) :=
    [(1, 0); (2, 1); (3, 0); (0, 1); (1, 1); (2, 0); (1, 2); (0, 0); (3, 1);
     (4, 0)]%R in
  let a : @C R_RingOps := (0, 1)%R in
  let b : @C R_RingOps := (-1, 0)%R in
  @ApplyZLike R_RingOps (@ApplyZLike R_RingOps qs0 [0] [1] a 4) [1] [] b 4
  = @ApplyZLike R_RingOps (@ApplyZLike R_RingOps qs0 [1] [] b 4) [0] [1] a 4.
Proof.
  intros qs0 a b. apply (@ApplyZLike_commute R_RingOps). exact RTheory.
Defined.

(** ** The named phase gates *)

Section PhaseGates.
Context {CO : CalcOps} {PB : PolicyBase}.
Hypothesis Rth : ring_theory R_zero R_one R_add R_mul R_sub R_opp eq.
(** What is used of <cmath>: the addition formulas, the values at 0, and
    that the T gate's diagonal value has modulus one. *)
Hypothesis Hcos_add : forall a b,
  R_cos (R_add a b)
  = R_sub (R_mul (R_cos a) (R_cos b)) (R_mul (R_sin a) (R_sin b)).
Hypothesis Hsin_add : forall a b,
  R_sin (R_add a b)
  = R_add (R_mul (R_cos a) (R_sin b)) (R_mul (R_sin a) (R_cos b)).
Hypothesis Hcos_zero : R_cos R_zero = R_one.
Hypothesis Hsin_zero : R_sin R_zero = R_zero.
Hypothesis Hunit :
  R_add (R_mul (R_div R_one (R_sqrt R_two)) (R_div R_one (R_sqrt R_two)))
        (R_mul (R_div R_one (R_sqrt R_two)) (R_div R_one (R_sqrt R_two)))
  = R_one.
Add Ring calc_ring_laws_phase : Rth.

(** X25: the named phase gates compose as their angles say: a phase shift
    by [a] followed by one by [b] on the same qubits is the phase shift by
    [a + b], the phase shift by 0 changes nothing, and the T gate applied
    twice is the S gate; on every buffer and for every choice of qubits.
    (Exact scalars; [SelfMultiply] as modelled above.) *)
Theorem phase_gates_compose (qs : buffer) (objs ctrls : list N) (a b : real)
    (dim : N) :
  ApplyPS (ApplyPS qs objs ctrls a dim false) objs ctrls b dim false
  = ApplyPS qs objs ctrls (R_add a b) dim false
  /\ ApplyPS qs objs ctrls R_zero dim false = qs
  /\ ApplyT (ApplyT qs objs ctrls dim) objs ctrls dim
     = ApplySGate qs objs ctrls dim.
Proof.
  split; [|split].
  - unfold ApplyPS. cbn [negb]. rewrite (ApplyZLike_fuse Rth).
    f_equal. unfold Cmul, Re, Im. cbn [fst snd].
    now rewrite Hcos_add, Hsin_add.
  - unfold ApplyPS. cbn [negb]. rewrite Hcos_zero, Hsin_zero.
    assert (H1 : Cmul C_one C_one = C_one) by apply (Cmul_one Rth).
    change (R_one, R_zero) with C_one.
    rewrite <- H1 at 1. rewrite <- (ApplyZLike_fuse Rth).
    apply (ApplyZLike_inverse Rth); [exact H1|].
    unfold Cnorm, C_one, Re, Im. simpl. ring.
  - unfold ApplyT, ApplySGate. rewrite (ApplyZLike_fuse Rth). f_equal.
    unfold Cdiv_real, Cmul, Re, Im. cbn [fst snd].
    set (t := R_div R_one (R_sqrt R_two)) in *. f_equal; [ring|exact Hunit].
Qed.

End PhaseGates.

Lemma phase_gates_compose_witness :
  let qs0 : list (@C R_RingOps) := [(1, 0); (2, 1); (3, 0)]%R in
  @ApplyPS R_CalcOps idle_policy
    (@ApplyPS R_CalcOps idle_policy qs0 [0] [] 1%R 2 false) [0] [] 2%R 2 false
  = @ApplyPS R_CalcOps idle_policy qs0 [0] [] (1 + 2)%R 2 false
  /\ @ApplyPS R_CalcOps idle_policy qs0 [0] [] 0%R 2 false = qs0
  /\ @ApplyT R_CalcOps (@ApplyT R_CalcOps qs0 [0] [] 2) [0] [] 2
     = @ApplySGate R_RingOps qs0 [0] [] 2.
Proof.
  intros qs0. apply (@phase_gates_compose R_CalcOps idle_policy).
  - exact RTheory.
  - intros a b. apply cos_plus.
  - intros a b. simpl. rewrite sin_plus. ring.
  - exact cos_0.
  - exact sin_0.
  - exact inv_sqrt2_unit.
Defined.

(** ** The shape of the gradient results *)

Lemma foldM_inv {A S} (P : S -> Prop) (f : A -> S -> result S) (l : list A) :
  (forall a s s', P s -> f a s = Ok s' -> P s') ->
  forall s s', P s -> foldM f l s = Ok s' -> P s'.
Proof.
  intros Hstep. induction l as [|a l IH]; intros s s' Hs; simpl.
  - intros E. injection E as <-. exact Hs.
  - destruct (f a s) as [s1|e] eqn:E; simpl; [|discriminate].
    apply IH. exact (Hstep a s s1 Hs E).
Qed.

Lemma vec_update_length {A} (v v' : list A) (i : N) (f : A -> A) :
  vec_update v i f = Ok v' -> length v' = length v.
Proof.
  unfold vec_update. destruct (v !! N.to_nat i); [|discriminate].
  intros E. injection E as <-. apply length_alter.
Qed.

Lemma vec_update_rows {A} (P : A -> Prop) (v v' : list A) (i : N) (f : A -> A) :
  (forall a, P a -> P (f a)) -> Forall P v ->
  vec_update v i f = Ok v' -> Forall P v'.
Proof.
  intros Hf Hv. unfold vec_update.
  destruct (v !! N.to_nat i); [|discriminate].
  intros E. injection E as <-. apply Forall_alter; [exact Hv|].
  intros x _. apply Hf.
Qed.

Lemma vec_get_row {A} (P : A -> Prop) (v : list A) (i : N) (a : A) :
  Forall P v -> vec_get v i = Ok a -> P a.
Proof.
  intros Hv. unfold vec_get. destruct (v !! N.to_nat i) as [x|] eqn:E;
    [|discriminate].
  intros E'. injection E' as <-.
  rewrite Forall_lookup in Hv. exact (Hv _ _ E).
Qed.

Section Shape.
Context {CO : CalcOps} {PB : PolicyBase} {CB : Collaborators}.

Lemma grad_reversible_length (p_map : gmap string N) (g : BasicGate) (gi : C)
    (f f' : list C) :
  grad_reversible p_map g gi f = Ok f' -> length f' = length f.
Proof.
  unfold grad_reversible.
  apply (foldM_inv (fun x => length x = length f)); [|reflexivity].
  intros it s s' Hs. unfold accumulate_reversible.
  destruct (map_at (data_ (params_ g)) it); cbn [rbind]; [|discriminate].
  destruct (map_at p_map it); cbn [rbind]; [|discriminate].
  intros E. apply vec_update_length in E. congruence.
Qed.

Lemma grad_noise_length (p_map : gmap string N) (g : BasicGate) (gi : C)
    (f f' : list C) :
  grad_noise p_map g gi f = Ok f' -> length f' = length f.
Proof.
  unfold grad_noise.
  apply (foldM_inv (fun x => length x = length f)); [|reflexivity].
  intros it s s' Hs. unfold accumulate_noise.
  destruct (map_at (data_ (params_ g)) it); cbn [rbind]; [|discriminate].
  destruct (map_at p_map it); cbn [rbind]; [|discriminate].
  intros E. apply vec_update_length in E. congruence.
Qed.

(** X19: whatever the circuits and the data, a vector returned by either
    single-Hamiltonian gradient function has one entry for the value and
    one per entry of the parameter map: its length is 1 + |p_map|. *)
Theorem grad_OneOne_length (ham : ham_terms) (circ herm_circ : circuit_t)
    (enc_data : list (list real)) (ans_data : list real)
    (enc_name ans_name : list string) (pr : ParameterResolver)
    (p_map : gmap string N) (this : DensityMatrixState) :
  match GetExpectationWithReversibleGradOneOne ham circ herm_circ enc_data
          ans_data enc_name ans_name this with
  | Ok f_and_g =>
      length f_and_g = S (size (build_p_map enc_name ans_name))
  | Err _ => True
  end
  /\ match GetExpectationWithNoiseGradOneOne ham circ herm_circ pr p_map
             this with
     | Ok f_and_g => length f_and_g = S (size p_map)
     | Err _ => True
     end.
Proof.
  split.
  - unfold GetExpectationWithReversibleGradOneOne. cbv zeta.
    destruct (vec_get enc_data 0) as [enc0|e]; cbn [rbind]; [|exact I].
    destruct (ApplyCircuit circ _ (copy_state this)) as [[res sim_qs]|e];
      cbn [rbind]; [|exact I].
    match goal with
    | |- context [foldM ?F herm_circ ?s0] =>
        destruct (foldM F herm_circ s0) as [[[f sh] sq]|e] eqn:E;
        cbn [rbind]; [|exact I];
        revert E;
        apply (foldM_inv
                 (fun s => length (fst (fst s))
                           = S (size (build_p_map enc_name ans_name))) F
                 herm_circ)
    end.
    + intros g [[f0 h0] q0] [[f1 h1] q1] Hs. cbn [fst] in *.
      destruct (differentiable g); cbn [rbind].
      * destruct (ExpectDiffGate (qs q0) (qs h0) g (dim this)) as [gi|];
          cbn [rbind]; [|discriminate].
        destruct (grad_reversible _ g gi f0) as [f0'|] eqn:Eg; cbn [rbind];
          [|discriminate].
        apply grad_reversible_length in Eg.
        destruct (step_gate _ g h0); cbn [rbind]; [|discriminate].
        destruct (step_gate _ g q0); cbn [rbind]; [|discriminate].
        intros E. injection E as <- _ _. congruence.
      * destruct (step_gate _ g h0); cbn [rbind]; [|discriminate].
        destruct (step_gate _ g q0); cbn [rbind]; [|discriminate].
        intros E. injection E as <- _ _. exact Hs.
    + cbn [fst]. rewrite length_insert, length_replicate. reflexivity.
  - unfold GetExpectationWithNoiseGradOneOne. cbv zeta.
    destruct (ApplyCircuit circ pr (copy_state this)) as [[res sim_qs]|e];
      cbn [rbind]; [|exact I].
    match goal with
    | |- context [foldM ?F herm_circ ?s0] =>
        destruct (foldM F herm_circ s0) as [[[[n f] sq] sh]|e] eqn:E;
        cbn [rbind]; [|exact I];
        revert E;
        apply (foldM_inv
                 (fun s => length (snd (fst (fst s))) = S (size p_map)) F
                 herm_circ)
    end.
    + intros h [[[n0 f0] q0] h0] [[[n1 f1] q1] h1] Hs. cbn [fst snd] in *.
      unfold noise_walk_OneOne.
      destruct (vec_get circ (sub64 n0 1)) as [gn|]; cbn [rbind];
        [|discriminate].
      destruct (differentiable gn); cbn [rbind].
      * destruct (foldM (step_gate pr) _ q0) as [q0'|]; cbn [rbind];
          [|discriminate].
        destruct (ExpectDiffGate (qs q0') (qs h0) gn (dim this)) as [gi|];
          cbn [rbind]; [|discriminate].
        destruct (grad_noise p_map gn gi f0) as [f0'|] eqn:Eg; cbn [rbind];
          [|discriminate].
        apply grad_noise_length in Eg.
        destruct (step_gate pr h h0); cbn [rbind]; [|discriminate].
        intros E. injection E as _ <- _ _. congruence.
      * destruct (step_gate pr h h0); cbn [rbind]; [|discriminate].
        intros E. injection E as _ <- _ _. exact Hs.
    + cbn [fst snd]. rewrite length_insert, length_replicate. reflexivity.
Qed.

Lemma load_hams_shape (m k : nat) (this sim_qs : DensityMatrixState)
    (hams : list ham_terms) (js : list N) (rows rows' : list (list C))
    (sim_hams : list DensityMatrixState) :
  rows_shape m k rows ->
  load_hams this hams sim_qs js rows = Ok (rows', sim_hams) ->
  rows_shape m k rows'.
Proof.
  intros Hs. unfold load_hams.
  match goal with
  | |- context [foldM ?F js rows] =>
      destruct (foldM F js rows) as [r1|] eqn:E; cbn [rbind]; [|discriminate];
      apply (foldM_inv (rows_shape m k) F js) in E; [| |exact Hs]
  end.
  - destruct (mapM _ js); cbn [rbind]; [|discriminate].
    intros E'. injection E' as <- _. exact E.
  - intros j r r' [Hl Hr].
    destruct (vec_get hams j); cbn [rbind]; [|discriminate].
    intros E'. split.
    + apply vec_update_length in E'. congruence.
    + revert E'. apply vec_update_rows; [|exact Hr].
      intros row Hrow. now rewrite length_insert.
Qed.

Lemma grad_rows_shape (m k : nat)
    (grad : gmap string N -> BasicGate -> C -> list C -> result (list C))
    (this sim_qs : DensityMatrixState) (p_map : gmap string N) (g : BasicGate)
    (js : list N) (sim_hams : list DensityMatrixState)
    (rows rows' : list (list C)) :
  (forall gi f f', grad p_map g gi f = Ok f' -> length f' = length f) ->
  rows_shape m k rows ->
  grad_rows grad this sim_qs p_map g js sim_hams rows = Ok rows' ->
  rows_shape m k rows'.
Proof.
  intros Hgrad Hs. unfold grad_rows.
  apply (foldM_inv (rows_shape m k)); [|exact Hs].
  intros [j sim_ham] r r' [Hl Hr].
  destruct (ExpectDiffGate (qs sim_qs) (qs sim_ham) g (dim this)) as [gi|];
    cbn [rbind]; [|discriminate].
  destruct (vec_get r j) as [row|] eqn:Ej; cbn [rbind]; [|discriminate].
  destruct (grad p_map g gi row) as [row'|] eqn:Eg; cbn [rbind];
    [|discriminate].
  intros E'. split.
  - apply vec_update_length in E'. congruence.
  - revert E'. apply vec_update_rows; [|exact Hr].
    intros _ _. rewrite (Hgrad _ _ _ Eg).
    exact (vec_get_row _ _ _ _ Hr Ej).
Qed.

(** X20: whatever the circuits, the binding and the thread count, a
    result returned by either multi-Hamiltonian gradient function has one
    row per Hamiltonian, each of 1 + |p_map| entries. *)
Theorem grad_OneMulti_shape (hams : list ham_terms)
    (circ herm_circ : circuit_t) (pr : ParameterResolver)
    (p_map : gmap string N) (n_thread : Z) (this : DensityMatrixState) :
  match GetExpectationWithReversibleGradOneMulti hams circ herm_circ pr
          p_map n_thread this with
  | Ok f_and_g => rows_shape (length hams) (S (size p_map)) f_and_g
  | Err _ => True
  end
  /\ match GetExpectationWithNoiseGradOneMulti hams circ herm_circ pr p_map
             n_thread this with
     | Ok f_and_g => rows_shape (length hams) (S (size p_map)) f_and_g
     | Err _ => True
     end.
Proof.
  set (m := length hams). set (k := S (size p_map)).
  assert (H0 : rows_shape m k (replicate m (replicate (1 + size p_map) C_zero))).
  { split; [apply length_replicate|].
    apply Forall_replicate. apply length_replicate. }
  split.
  - unfold GetExpectationWithReversibleGradOneMulti. cbv zeta.
    destruct (ApplyCircuit circ pr (copy_state this)) as [[res sim_qs]|e];
      cbn [rbind]; [|exact I].
    destruct (group_count _ _) as [n_group|e]; cbn [rbind]; [|exact I].
    match goal with
    | |- context [foldM ?F ?l ?s0] =>
        destruct (foldM F l s0) as [[rows sq]|e] eqn:E; cbn [rbind];
        [|exact I];
        apply (foldM_inv (fun s => rows_shape m k (fst s)) F l) in E;
        [exact E| |exact H0]
    end.
    intros i [r0 q0] [r1 q1] Hs. cbn [fst] in *.
    destruct (group_bounds _ _ _) as [[start end_]|]; cbn [rbind];
      [|discriminate].
    destruct (end_ - start <? 0)%Z; [discriminate|].
    destruct (load_hams this hams q0 _ r0) as [[r0' sim_hams]|] eqn:El;
      cbn [rbind]; [|discriminate].
    apply (load_hams_shape m k) in El; [|exact Hs].
    match goal with
    | |- context [foldM ?F herm_circ ?s0] =>
        destruct (foldM F herm_circ s0) as [[[r2 sh2] q2]|] eqn:Ew;
        cbn [rbind]; [|discriminate];
        apply (foldM_inv (fun s => rows_shape m k (fst (fst s))) F herm_circ)
          in Ew; [| |exact El]
    end.
    + intros E'. injection E' as <- _. exact Ew.
    + intros g [[ra ha] qa] [[rb hb] qb] Ha. cbn [fst] in *.
      destruct (differentiable g); cbn [rbind].
      * destruct (grad_rows _ this qa p_map g _ ha ra) as [ra'|] eqn:Eg;
          cbn [rbind]; [|discriminate].
        apply (grad_rows_shape m k) in Eg;
          [|intros gi f f'; apply grad_reversible_length|exact Ha].
        destruct (mapM _ ha); cbn [rbind]; [|discriminate].
        destruct (step_gate pr g qa); cbn [rbind]; [|discriminate].
        intros E'. injection E' as <- _ _. exact Eg.
      * destruct (mapM _ ha); cbn [rbind]; [|discriminate].
        destruct (step_gate pr g qa); cbn [rbind]; [|discriminate].
        intros E'. injection E' as <- _ _. exact Ha.
  - unfold GetExpectationWithNoiseGradOneMulti. cbv zeta.
    destruct (ApplyCircuit circ pr (copy_state this)) as [[res sim_qs]|e];
      cbn [rbind]; [|exact I].
    destruct (group_count _ _) as [n_group|e]; cbn [rbind]; [|exact I].
    match goal with
    | |- context [foldM ?F ?l ?s0] =>
        destruct (foldM F l s0) as [[rows sq]|e] eqn:E; cbn [rbind];
        [|exact I];
        apply (foldM_inv (fun s => rows_shape m k (fst s)) F l) in E;
        [exact E| |exact H0]
    end.
    intros i [r0 q0] [r1 q1] Hs. cbn [fst] in *.
    destruct (group_bounds _ _ _) as [[start end_]|]; cbn [rbind];
      [|discriminate].
    destruct (end_ - start <? 0)%Z; [discriminate|].
    destruct (load_hams this hams q0 _ r0) as [[r0' sim_hams]|] eqn:El;
      cbn [rbind]; [|discriminate].
    apply (load_hams_shape m k) in El; [|exact Hs].
    match goal with
    | |- context [foldM ?F herm_circ ?s0] =>
        destruct (foldM F herm_circ s0) as [[[[n2 r2] q2] sh2]|] eqn:Ew;
        cbn [rbind]; [|discriminate];
        apply (foldM_inv (fun s => rows_shape m k (snd (fst (fst s)))) F
                 herm_circ) in Ew; [| |exact El]
    end.
    + intros E'. injection E' as <- _. exact Ew.
    + intros h [[[na ra] qa] ha] [[[nb rb] qb] hb] Ha. cbn [fst snd] in *.
      unfold noise_walk_OneMulti.
      destruct (vec_get circ (sub64 na 1)) as [gn|]; cbn [rbind];
        [|discriminate].
      destruct (differentiable gn); cbn [rbind].
      * destruct (foldM (step_gate pr) _ qa) as [qa'|]; cbn [rbind];
          [|discriminate].
        destruct (grad_rows _ this qa' p_map gn _ ha ra) as [ra'|] eqn:Eg;
          cbn [rbind]; [|discriminate].
        apply (grad_rows_shape m k) in Eg;
          [|intros gi f f'; apply grad_noise_length|exact Ha].
        destruct (mapM _ ha); cbn [rbind]; [|discriminate].
        intros E'. injection E' as _ <- _ _. exact Eg.
      * destruct (mapM _ ha); cbn [rbind]; [|discriminate].
        intros E'. injection E' as _ <- _ _. exact Ha.
Qed.

End Shape.

(** ** The value entries of the later groups *)

Lemma foldM_seq_inv {S} (P : nat -> S -> Prop) (f : nat -> S -> result S)
    (n : nat) :
  (forall i s s', (i < n)%nat -> P i s -> f i s = Ok s' -> P (Datatypes.S i) s') ->
  forall s s', P 0%nat s -> foldM f (seq 0 n) s = Ok s' -> P n s'.
Proof.
  intros Hstep.
  assert (H : forall len start s s', (start + len = n)%nat -> P start s ->
            foldM f (seq start len) s = Ok s' -> P n s').
  { induction len as [|len IH]; intros start s s' Hn Hs; simpl.
    - intros E. injection E as <-. now replace n with start by lia.
    - destruct (f start s) as [s1|] eqn:E; simpl; [|discriminate].
      apply IH; [lia|]. apply (Hstep start s s1); [lia|exact Hs|exact E]. }
  intros s s'. apply H. reflexivity.
Qed.

Section Values.
Context {CO : CalcOps} {PB : PolicyBase} {CB : Collaborators}.

Lemma value_entry_alter (rows : list (list C)) (f : list C -> list C)
    (j r : nat) :
  (forall row, rows !! j = Some row -> f row !! 0%nat = row !! 0%nat) ->
  value_entry (alter f j rows) r = value_entry rows r.
Proof.
  intros Hf. unfold value_entry. destruct (decide (r = j)) as [->|Hne].
  - rewrite list_lookup_alter_eq. destruct (rows !! j) as [row|] eqn:E;
      simpl; [|reflexivity]. now apply Hf.
  - now rewrite list_lookup_alter_ne by congruence.
Qed.

Lemma load_hams_values (k : nat) (this sim_qs : DensityMatrixState)
    (hams : list ham_terms) (js : list N) :
  forall (rows rows' : list (list C)) (sim_hams : list DensityMatrixState),
    Forall (fun row => length row = S k) rows ->
    load_hams this hams sim_qs js rows = Ok (rows', sim_hams) ->
    (forall r, (forall j, j ∈ js -> N.to_nat j <> r) ->
               value_entry rows' r = value_entry rows r)
    /\ (forall j hj, j ∈ js -> hams !! N.to_nat j = Some hj ->
          value_entry rows' (N.to_nat j)
          = Some (GetExpectation (qs sim_qs) hj (dim this))).
Proof.
  intros rows rows' sim_hams Hrows. unfold load_hams.
  match goal with
  | |- context [foldM ?F js rows] => set (F0 := F)
  end.
  destruct (foldM F0 js rows) as [r1|] eqn:E; cbn [rbind]; [|discriminate].
  destruct (mapM _ js); cbn [rbind]; [|discriminate].
  intros E'. injection E' as <- _. clear -E Hrows.
  revert rows Hrows E. induction js as [|j js IH]; intros rows Hrows E.
  - simpl in E. injection E as <-. split; [reflexivity|].
    intros j hj Hj. inversion Hj.
  - simpl in E. unfold F0 in E at 1.
    destruct (vec_get hams j) as [hj|] eqn:Eh; cbn [rbind] in E;
      [|discriminate].
    unfold vec_update in E.
    destruct (rows !! N.to_nat j) as [row|] eqn:Er; cbn [rbind] in E;
      [|discriminate].
    match type of E with
    | foldM _ _ ?r = _ => set (rows1 := r) in E
    end.
    assert (Hrows1 : Forall (fun row => length row = S k) rows1).
    { apply Forall_alter; [exact Hrows|]. intros x _ Hx.
      now rewrite length_insert. }
    destruct (IH rows1 Hrows1 E) as [Hout Hin]. split.
    + intros r Hr. rewrite Hout by (intros j' Hj'; apply Hr; now right).
      unfold value_entry, rows1.
      rewrite list_lookup_alter_ne; [reflexivity|]. apply Hr. left.
    + intros j' hj' Hj' Hh'.
      destruct (decide (j' ∈ js)) as [Hmem|Hmem]; [now apply Hin|].
      apply elem_of_cons in Hj' as [->|Hj']; [|contradiction].
      rewrite Hout.
      * unfold value_entry, rows1. rewrite list_lookup_alter_eq, Er. simpl.
        unfold vec_get in Eh. rewrite Hh' in Eh. injection Eh as <-.
        rewrite Forall_lookup in Hrows. specialize (Hrows _ _ Er).
        destruct row; [discriminate|reflexivity].
      * intros j' Hj' Heq. apply Hmem.
        replace j with j' by lia. exact Hj'.
Qed.

Lemma grad_rows_values
    (grad : gmap string N -> BasicGate -> C -> list C -> result (list C))
    (this sim_qs : DensityMatrixState) (p_map : gmap string N) (g : BasicGate)
    (js : list N) (sim_hams : list DensityMatrixState)
    (rows rows' : list (list C)) :
  (forall gi f f', grad p_map g gi f = Ok f' -> f' !! 0%nat = f !! 0%nat) ->
  grad_rows grad this sim_qs p_map g js sim_hams rows = Ok rows' ->
  forall r, value_entry rows' r = value_entry rows r.
Proof.
  intros Hgrad. unfold grad_rows.
  apply (foldM_inv (fun x => forall r, value_entry x r = value_entry rows r));
    [|reflexivity].
  intros [j sim_ham] r0 r1 Hs.
  destruct (ExpectDiffGate (qs sim_qs) (qs sim_ham) g (dim this)) as [gi|];
    cbn [rbind]; [|discriminate].
  destruct (vec_get r0 j) as [row|] eqn:Ej; cbn [rbind]; [|discriminate].
  destruct (grad p_map g gi row) as [row'|] eqn:Eg; cbn [rbind];
    [|discriminate].
  unfold vec_update. destruct (r0 !! N.to_nat j) as [row0|] eqn:Er;
    [|discriminate].
  intros E r. injection E as <-. rewrite <- Hs.
  apply value_entry_alter. intros x Hx.
  unfold vec_get in Ej. rewrite Er in Ej. injection Ej as ->.
  rewrite (Hgrad _ _ _ Eg). congruence.
Qed.

Section SmallIndexes.
Variable p_map : gmap string N.
Hypothesis Hidx : forall name idx, p_map !! name = Some idx -> idx < 2 ^ 64 - 1.

Lemma slot_not_value (name : string) (idx : N) :
  map_at p_map name = Ok idx -> N.to_nat (u64 (1 + idx)) <> 0%nat.
Proof.
  unfold map_at. destruct (p_map !! name) as [i|] eqn:E; [|discriminate].
  intros H. injection H as ->. specialize (Hidx _ _ E).
  rewrite u64_small by lia. lia.
Qed.

Lemma grad_reversible_value (g : BasicGate) (gi : C) (f f' : list C) :
  grad_reversible p_map g gi f = Ok f' -> f' !! 0%nat = f !! 0%nat.
Proof.
  unfold grad_reversible.
  apply (foldM_inv (fun x => x !! 0%nat = f !! 0%nat)); [|reflexivity].
  intros it s s' Hs. unfold accumulate_reversible.
  destruct (map_at (data_ (params_ g)) it); cbn [rbind]; [|discriminate].
  destruct (map_at p_map it) as [idx|] eqn:Ei; cbn [rbind]; [|discriminate].
  unfold vec_update. destruct (s !! N.to_nat _); [|discriminate].
  intros E. injection E as <-. rewrite <- Hs.
  apply list_lookup_alter_ne. now apply (slot_not_value it).
Qed.

Lemma grad_noise_value (g : BasicGate) (gi : C) (f f' : list C) :
  grad_noise p_map g gi f = Ok f' -> f' !! 0%nat = f !! 0%nat.
Proof.
  unfold grad_noise.
  apply (foldM_inv (fun x => x !! 0%nat = f !! 0%nat)); [|reflexivity].
  intros it s s' Hs. unfold accumulate_noise.
  destruct (map_at (data_ (params_ g)) it); cbn [rbind]; [|discriminate].
  destruct (map_at p_map it) as [idx|] eqn:Ei; cbn [rbind]; [|discriminate].
  unfold vec_update. destruct (s !! N.to_nat _); [|discriminate].
  intros E. injection E as <-. rewrite <- Hs.
  apply list_lookup_alter_ne. now apply (slot_not_value it).
Qed.

End SmallIndexes.

Lemma step_gate_dim (pr : ParameterResolver) (g : BasicGate)
    (s s' : DensityMatrixState) :
  step_gate pr g s = Ok s' -> dim s' = dim s.
Proof.
  unfold step_gate.
  destruct (ApplyGate g pr false s) as [[r s1]|] eqn:E; cbn [rbind];
    [|discriminate].
  intros H. injection H as <-.
  now destruct (ApplyGate_shape g pr false s s1 r E) as [(_ & Hd & _) _].
Qed.

Lemma steps_dim (pr : ParameterResolver) (gs : circuit_t)
    (s s' : DensityMatrixState) :
  foldM (step_gate pr) gs s = Ok s' -> dim s' = dim s.
Proof.
  apply (foldM_inv (fun x => dim x = dim s)); [|reflexivity].
  intros g s0 s1 Hs E. rewrite <- Hs. now apply (step_gate_dim pr g).
Qed.

End Values.

Lemma elem_of_chunk (start end_ : Z) (j : N) :
  (0 <= start)%Z ->
  j ∈ chunk_indices start end_ <-> (start <= Z.of_N j < end_)%Z.
Proof.
  intros H. rewrite chunk_indices_seq by exact H.
  change (map N.of_nat ?l) with (N.of_nat <$> l).
  rewrite list_elem_of_fmap. split.
  - intros (x & -> & Hx). apply elem_of_seq in Hx. lia.
  - intros Hj. exists (N.to_nat j). split; [lia|]. apply elem_of_seq. lia.
Qed.

Section LaterGroups.
Context {CO : CalcOps} {PB : PolicyBase} {CB : Collaborators}.
Variable hams : list ham_terms.
Variables circ herm_circ : circuit_t.
Variable pr : ParameterResolver.
Variable p_map : gmap string N.
Variable n_thread : Z.
Variable this : DensityMatrixState.
Hypothesis Hthread : (1 <= n_thread)%Z.
Hypothesis Hint : (Z.of_nat (length hams) < 2 ^ 31)%Z.
Hypothesis Hidx : forall name idx, p_map !! name = Some idx -> idx < 2 ^ 64 - 1.

Lemma State_CopyQS_rewound (s : DensityMatrixState) :
  dim s = dim this -> rewound this (State_CopyQS s (qs this)).
Proof.
  intros Hd. split; [exact Hd|]. unfold State_CopyQS, with_qs, CopyQS.
  cbn [qs]. rewrite Hd. eauto.
Qed.

Lemma noise_walk_values (m k : nat) (js : list N) (h : BasicGate)
    (n n' : N) (rows rows' : list (list C)) (s s' : DensityMatrixState)
    (sh sh' : list DensityMatrixState) :
  noise_walk_OneMulti this circ pr p_map js h (n, rows, s, sh)
  = Ok (n', rows', s', sh') ->
  rows_shape m k rows -> rewound this s ->
  rows_shape m k rows' /\ rewound this s'
  /\ forall r, value_entry rows' r = value_entry rows r.
Proof.
  unfold noise_walk_OneMulti.
  destruct (vec_get circ (sub64 n 1)) as [gn|]; cbn [rbind]; [|discriminate].
  destruct (differentiable gn); cbn [rbind].
  - destruct (foldM (step_gate pr) _ s) as [s1|] eqn:Es; cbn [rbind];
      [|discriminate].
    destruct (grad_rows _ this s1 p_map gn js sh rows) as [rows1|] eqn:Eg;
      cbn [rbind]; [|discriminate].
    destruct (mapM _ sh); cbn [rbind]; [|discriminate].
    intros E Hs [Hd _]. injection E as _ <- <- _.
    split; [|split].
    + revert Eg. apply grad_rows_shape; [|exact Hs].
      intros gi f f'. apply grad_noise_length.
    + apply State_CopyQS_rewound. apply steps_dim in Es. congruence.
    + revert Eg. apply grad_rows_values.
      intros gi f f'. now apply grad_noise_value.
  - destruct (mapM _ sh); cbn [rbind]; [|discriminate].
    intros E Hs Hr. injection E as _ <- <- _. auto.
Qed.

Lemma reversible_walk_values (m k : nat) (js : list N)
    (gs : circuit_t) :
  forall (rows rows' : list (list C)) (s s' : DensityMatrixState)
         (sh sh' : list DensityMatrixState),
    foldM (fun g '(f_and_g, sim_hams, sim_qs) =>
             do f_and_g <-
               (if differentiable g then
                  grad_rows grad_reversible this sim_qs p_map g js
                            sim_hams f_and_g
                else Ok f_and_g);
             do sim_hams <- mapM (step_gate pr g) sim_hams;
             do sim_qs <- step_gate pr g sim_qs;
             Ok (f_and_g, sim_hams, sim_qs))
          gs (rows, sh, s) = Ok (rows', sh', s') ->
    rows_shape m k rows ->
    rows_shape m k rows' /\ foldM (step_gate pr) gs s = Ok s'
    /\ forall r, value_entry rows' r = value_entry rows r.
Proof.
  induction gs as [|g gs IH]; intros rows rows' s s' sh sh' E Hs.
  - simpl in E. injection E as <- _ <-. auto.
  - cbn [foldM] in E |- *.
    destruct (if differentiable g then _ else _) as [rows1|] eqn:Eg;
      cbn [rbind] in E; [|discriminate].
    destruct (mapM _ sh) as [sh1|]; cbn [rbind] in E; [|discriminate].
    destruct (step_gate pr g s) as [s1|]; cbn [rbind] in E |- *;
      [|discriminate].
    assert (H1 : rows_shape m k rows1
                 /\ forall r, value_entry rows1 r = value_entry rows r).
    { destruct (differentiable g).
      - split.
        + revert Eg. apply grad_rows_shape; [|exact Hs].
          intros gi f f'. apply grad_reversible_length.
        + revert Eg. apply grad_rows_values.
          intros gi f f'. now apply grad_reversible_value.
      - injection Eg as <-. auto. }
    destruct H1 as [Hs1 Hv1].
    destruct (IH _ _ _ _ _ _ E Hs1) as (Hs' & Hrun & Hv').
    split; [exact Hs'|]. split; [exact Hrun|].
    intros r. now rewrite Hv', Hv1.
Qed.

Lemma clamp_bounds :
  hams <> [] ->
  (1 <= clamp_n_thread n_thread (N.of_nat (length hams))
     <= Z.of_N (N.of_nat (length hams)))%Z.
Proof.
  intros Hne. assert (0 < length hams)%nat by (destruct hams; simpl; [congruence|lia]).
  unfold clamp_n_thread. rewrite static_cast_int_small by lia.
  destruct (15 <? n_thread)%Z eqn:E1;
    [apply Z.ltb_lt in E1 | apply Z.ltb_ge in E1].
  - destruct (Z.of_N (N.of_nat (length hams)) <? 15)%Z eqn:E2;
      [apply Z.ltb_lt in E2 | apply Z.ltb_ge in E2]; lia.
  - destruct (Z.of_N (N.of_nat (length hams)) <? n_thread)%Z eqn:E2;
      [apply Z.ltb_lt in E2 | apply Z.ltb_ge in E2]; lia.
Qed.

(** X21: in the noise mode the simulated state is not brought back to the
    circuit's output between groups.  With a thread count of at least one
    and parameter indexes below 2^64 - 1, a returned result holds, for a
    Hamiltonian of the first group, the expectation value on the state the
    circuit produced; for every Hamiltonian of a later group, the
    expectation value on a buffer whose stored entries are those of this
    state before the circuit ([CopyQS] as modelled above). *)
Theorem noise_OneMulti_later_groups :
  match ApplyCircuit circ pr (copy_state this),
        GetExpectationWithNoiseGradOneMulti hams circ herm_circ pr p_map
          n_thread this with
  | Ok (_, sim_qs), Ok f_and_g =>
      forall (j : nat) (hj : ham_terms),
        hams !! j = Some hj ->
        if (Z.of_nat j <? clamp_n_thread n_thread (N.of_nat (length hams)))%Z
        then value_entry f_and_g j
             = Some (GetExpectation (qs sim_qs) hj (dim this))
        else exists tail,
               value_entry f_and_g j
               = Some (GetExpectation
                         (take (packed_len (dim this)) (qs this) ++ tail)
                         hj (dim this))
  | _, _ => True
  end.
Proof.
  destruct (ApplyCircuit circ pr (copy_state this)) as [[res st0]|e] eqn:Ec;
    [|exact I].
  destruct (GetExpectationWithNoiseGradOneMulti hams circ herm_circ pr p_map
              n_thread this) as [f_and_g|e] eqn:Er; [|exact I].
  destruct (decide (hams = [])) as [->|Hne].
  { intros j hj Hj. rewrite lookup_nil in Hj. discriminate. }
  pose proof (clamp_bounds Hne) as Ht.
  revert Er. unfold GetExpectationWithNoiseGradOneMulti. cbv zeta.
  rewrite Ec. cbn [rbind].
  set (M := N.of_nat (length hams)) in *.
  set (t := clamp_n_thread n_thread M) in *.
  destruct (group_count_pos M t Ht ltac:(subst M; lia)) as (G & -> & HG0 & HG).
  cbn [rbind].
  set (k := size p_map).
  set (shown := fun (rows : list (list C)) (j : nat) (hj : ham_terms) =>
         if (Z.of_nat j <? t)%Z
         then value_entry rows j
              = Some (GetExpectation (qs st0) hj (dim this))
         else exists tail,
                value_entry rows j
                = Some (GetExpectation
                          (take (packed_len (dim this)) (qs this) ++ tail)
                          hj (dim this))).
  assert (Hd0 : dim st0 = dim this).
  { destruct (ApplyCircuit_fold_shape circ pr _ _ _ _ Ec) as [(_ & Hd & _) _].
    exact Hd. }
  match goal with
  | |- context [foldM ?F ?l ?s0] =>
      destruct (foldM F l s0) as [[rows sq]|] eqn:E; cbn [rbind];
      [|discriminate];
      apply (foldM_seq_inv
               (fun i s =>
                  rows_shape (length hams) (S k) (fst s)
                  /\ dim (snd s) = dim this
                  /\ (i = 0%nat -> snd s = st0)
                  /\ ((1 <= i)%nat -> rewound this (snd s))
                  /\ forall j hj,
                       (Z.of_nat j < Z.min (Z.of_nat i * t) (Z.of_N M))%Z ->
                       hams !! j = Some hj -> shown (fst s) j hj) F) in E
  end.
  - intros Er. injection Er as <-.
    destruct E as (_ & _ & _ & _ & Hval). cbn [fst] in Hval.
    intros j hj Hj. apply Hval; [|exact Hj].
    apply lookup_lt_Some in Hj. subst M. nia.
  - intros i [r0 q0] [r1 q1] Hi (Hs & Hd & Hfirst & Hlater & Hval).
    cbn [fst snd] in *.
    assert (Hit : (Z.of_nat i * t < Z.of_N M)%Z) by nia.
    destruct (group_bounds M t (Z.of_nat i)) as [[start end_]|] eqn:Eb;
      cbn [rbind]; [|discriminate].
    apply group_bounds_Ok in Eb as [-> He].
    rewrite static_cast_int_small in He by (subst M; lia).
    destruct (end_ - Z.of_nat i * t <? 0)%Z; [discriminate|].
    set (js := chunk_indices (Z.of_nat i * t) end_).
    destruct (load_hams this hams q0 js r0) as [[r0' sim_hams]|] eqn:El;
      cbn [rbind]; [|discriminate].
    pose proof (load_hams_shape _ _ _ _ _ _ _ _ _ Hs El) as Hs'.
    destruct (load_hams_values k _ _ _ _ _ _ _ (proj2 Hs) El) as [Hout Hin].
    match goal with
    | |- context [foldM ?F herm_circ ?s0] =>
        destruct (foldM F herm_circ s0) as [[[[n2 r2] q2] sh2]|] eqn:Ew;
        cbn [rbind]; [|discriminate];
        apply (foldM_inv
                 (fun s => rows_shape (length hams) (S k) (snd (fst (fst s)))
                           /\ rewound this (snd (fst s))
                           /\ forall r, value_entry (snd (fst (fst s))) r
                                        = value_entry r0' r) F herm_circ)
          in Ew
    end.
    + intros E'. injection E' as <- <-.
      destruct Ew as (Hs2 & Hr2 & Hv2). cbn [fst snd] in *.
      split; [exact Hs2|]. split; [apply Hr2|].
      split; [intros H0; discriminate H0|]. split; [intros _; exact Hr2|].
      intros j hj Hj Hh. unfold shown. rewrite Hv2.
      destruct (Z_lt_dec (Z.of_nat j) (Z.of_nat i * t)) as [Hlt|Hge].
      * rewrite Hout; [apply Hval; [lia|exact Hh]|].
        intros j' Hj' Heq. apply elem_of_chunk in Hj'; lia.
      * assert (Hmem : N.of_nat j ∈ js).
        { apply elem_of_chunk; lia. }
        pose proof (Hin (N.of_nat j) hj Hmem) as Hv.
        rewrite Nat2N.id in Hv. specialize (Hv Hh).
        destruct (Z.of_nat j <? t)%Z eqn:Ej;
          [apply Z.ltb_lt in Ej | apply Z.ltb_ge in Ej].
        -- assert (i = 0%nat) as -> by nia. now rewrite (Hfirst eq_refl) in Hv.
        -- assert (1 <= i)%nat as Hi1 by nia.
           destruct (Hlater Hi1) as [_ [tail Htail]]. exists tail.
           now rewrite <- Htail.
    + intros h [[[na ra] qa] ha] [[[nb rb] qb] hb] (Ha & Hq & Hv) Estep.
      cbn [fst snd] in *.
      destruct (noise_walk_values _ _ _ _ _ _ _ _ _ _ _ _ Estep Ha Hq)
        as (Hb & Hq' & Hv').
      split; [exact Hb|]. split; [exact Hq'|].
      intros r. now rewrite Hv', Hv.
    + cbn [fst snd]. split; [exact Hs'|].
      split; [now apply State_CopyQS_rewound|]. reflexivity.
  - cbn [fst snd]. split.
    { split; [apply length_replicate|].
      apply Forall_replicate. apply length_replicate. }
    split; [exact Hd0|]. split; [reflexivity|]. split; [lia|].
    intros j hj Hj. lia.
Qed.

(** X22: in the reversible mode the state a group starts from has been
    walked through [herm_circ] once by every group before it.  With a
    thread count of at least one and parameter indexes below 2^64 - 1, the
    value entry a returned result holds for Hamiltonian j is the
    expectation value on the circuit's output after j / n_thread further
    passes through [herm_circ] (n_thread the clamped thread count): only
    the first group is evaluated on the circuit's output itself. *)
Theorem reversible_OneMulti_later_groups :
  match ApplyCircuit circ pr (copy_state this),
        GetExpectationWithReversibleGradOneMulti hams circ herm_circ pr p_map
          n_thread this with
  | Ok (_, sim_qs), Ok f_and_g =>
      forall (j : nat) (hj : ham_terms),
        hams !! j = Some hj ->
        exists st,
          rewind pr herm_circ sim_qs
            (j / Z.to_nat (clamp_n_thread n_thread (N.of_nat (length hams))))
          = Ok st
          /\ value_entry f_and_g j
             = Some (GetExpectation (qs st) hj (dim this))
  | _, _ => True
  end.
Proof.
  destruct (ApplyCircuit circ pr (copy_state this)) as [[res st0]|e] eqn:Ec;
    [|exact I].
  destruct (GetExpectationWithReversibleGradOneMulti hams circ herm_circ pr
              p_map n_thread this) as [f_and_g|e] eqn:Er; [|exact I].
  destruct (decide (hams = [])) as [->|Hne].
  { intros j hj Hj. rewrite lookup_nil in Hj. discriminate. }
  pose proof (clamp_bounds Hne) as Ht.
  revert Er. unfold GetExpectationWithReversibleGradOneMulti. cbv zeta.
  rewrite Ec. cbn [rbind].
  set (M := N.of_nat (length hams)) in *.
  set (t := clamp_n_thread n_thread M) in *.
  destruct (group_count_pos M t Ht ltac:(subst M; lia)) as (G & -> & HG0 & HG).
  cbn [rbind].
  set (k := size p_map).
  set (shown := fun (rows : list (list C)) (j : nat) (hj : ham_terms) =>
         exists st, rewind pr herm_circ st0 (j / Z.to_nat t) = Ok st
                    /\ value_entry rows j
                       = Some (GetExpectation (qs st) hj (dim this))).
  match goal with
  | |- context [foldM ?F ?l ?s0] =>
      destruct (foldM F l s0) as [[rows sq]|] eqn:E; cbn [rbind];
      [|discriminate];
      apply (foldM_seq_inv
               (fun i s =>
                  rows_shape (length hams) (S k) (fst s)
                  /\ rewind pr herm_circ st0 i = Ok (snd s)
                  /\ forall j hj,
                       (Z.of_nat j < Z.min (Z.of_nat i * t) (Z.of_N M))%Z ->
                       hams !! j = Some hj -> shown (fst s) j hj) F) in E
  end.
  - intros Er. injection Er as <-.
    destruct E as (_ & _ & Hval). cbn [fst] in Hval.
    intros j hj Hj. apply Hval; [|exact Hj].
    apply lookup_lt_Some in Hj. subst M. nia.
  - intros i [r0 q0] [r1 q1] Hi (Hs & Hrew & Hval).
    cbn [fst snd] in *.
    assert (Hit : (Z.of_nat i * t < Z.of_N M)%Z) by nia.
    destruct (group_bounds M t (Z.of_nat i)) as [[start end_]|] eqn:Eb;
      cbn [rbind]; [|discriminate].
    apply group_bounds_Ok in Eb as [-> He].
    rewrite static_cast_int_small in He by (subst M; lia).
    destruct (end_ - Z.of_nat i * t <? 0)%Z; [discriminate|].
    set (js := chunk_indices (Z.of_nat i * t) end_).
    destruct (load_hams this hams q0 js r0) as [[r0' sim_hams]|] eqn:El;
      cbn [rbind]; [|discriminate].
    pose proof (load_hams_shape _ _ _ _ _ _ _ _ _ Hs El) as Hs'.
    destruct (load_hams_values k _ _ _ _ _ _ _ (proj2 Hs) El) as [Hout Hin].
    match goal with
    | |- context [foldM ?F herm_circ ?s0] =>
        destruct (foldM F herm_circ s0) as [[[r2 sh2] q2]|] eqn:Ew;
        cbn [rbind]; [|discriminate]
    end.
    destruct (reversible_walk_values _ _ _ _ _ _ _ _ _ _ Ew Hs')
      as (Hs2 & Hrun & Hv2).
    intros E'. injection E' as <- <-.
    split; [exact Hs2|]. split.
    { unfold rewind in Hrew |- *. rewrite Nat.iter_succ, Hrew. exact Hrun. }
    intros j hj Hj Hh. unfold shown. rewrite Hv2.
    destruct (Z_lt_dec (Z.of_nat j) (Z.of_nat i * t)) as [Hlt|Hge].
    + rewrite Hout; [apply Hval; [lia|exact Hh]|].
      intros j' Hj' Heq. apply elem_of_chunk in Hj'; lia.
    + assert (Hmem : N.of_nat j ∈ js).
      { apply elem_of_chunk; lia. }
      pose proof (Hin (N.of_nat j) hj Hmem) as Hv.
      rewrite Nat2N.id in Hv. specialize (Hv Hh).
      exists q0. split; [|exact Hv].
      replace (j / Z.to_nat t)%nat with i; [exact Hrew|].
      apply (Nat.div_unique j (Z.to_nat t) i (j - Z.to_nat t * i)%nat); nia.
  - cbn [fst snd]. split.
    { split; [apply length_replicate|].
      apply Forall_replicate. apply length_replicate. }
    split; [reflexivity|].
    intros j hj Hj. lia.
Qed.

End LaterGroups.


Lemma noise_OneMulti_later_groups_witness :
  is_ok (@GetExpectationWithNoiseGradOneMulti R_CalcOps idle_policy
           plain_collaborators [tt; tt] [rx_theta] [rx_theta]
           (params_ rx_theta) {[ "theta" := 0 ]} 1 plus_state) = true
  /\
  match @ApplyCircuit R_CalcOps idle_policy plain_collaborators [rx_theta]
          (params_ rx_theta) (copy_state plus_state),
        @GetExpectationWithNoiseGradOneMulti R_CalcOps idle_policy
          plain_collaborators [tt; tt] [rx_theta] [rx_theta]
          (params_ rx_theta) {[ "theta" := 0 ]} 1 plus_state with
  | Ok (_, sim_qs), Ok f_and_g =>
      forall (j : nat) (hj : unit),
        [tt; tt] !! j = Some hj ->
        if (Z.of_nat j <? clamp_n_thread 1 (N.of_nat (length [tt; tt])))%Z
        then value_entry f_and_g j
             = Some (@GetExpectation R_CalcOps idle_policy (qs sim_qs) hj
                       (dim plus_state))
        else exists tail,
               value_entry f_and_g j
               = Some (@GetExpectation R_CalcOps idle_policy
                         (take (packed_len (dim plus_state)) (qs plus_state)
                          ++ tail)
                         hj (dim plus_state))
  | _, _ => True
  end.
Proof.
  split; [vm_compute; reflexivity|].
  apply (@noise_OneMulti_later_groups R_CalcOps idle_policy
           plain_collaborators [tt; tt] [rx_theta] [rx_theta]
           (params_ rx_theta) {[ "theta" := 0 ]} 1 plus_state).
  - lia.
  - reflexivity.
  - intros name idx H. apply lookup_singleton_Some in H as [_ <-].
    reflexivity.
Defined.

Lemma reversible_OneMulti_later_groups_witness :
  is_ok (@GetExpectationWithReversibleGradOneMulti R_CalcOps idle_policy
           plain_collaborators [tt; tt] [rx_theta] [rx_theta]
           (params_ rx_theta) {[ "theta" := 0 ]} 1 plus_state) = true
  /\
  match @ApplyCircuit R_CalcOps idle_policy plain_collaborators [rx_theta]
          (params_ rx_theta) (copy_state plus_state),
        @GetExpectationWithReversibleGradOneMulti R_CalcOps idle_policy
          plain_collaborators [tt; tt] [rx_theta] [rx_theta]
          (params_ rx_theta) {[ "theta" := 0 ]} 1 plus_state with
  | Ok (_, sim_qs), Ok f_and_g =>
      forall (j : nat) (hj : unit),
        [tt; tt] !! j = Some hj ->
        exists st,
          @rewind R_CalcOps idle_policy plain_collaborators
            (params_ rx_theta) [rx_theta] sim_qs
            (j / Z.to_nat (clamp_n_thread 1 (N.of_nat (length [tt; tt]))))
          = Ok st
          /\ value_entry f_and_g j
             = Some (@GetExpectation R_CalcOps idle_policy (qs st) hj
                       (dim plus_state))
  | _, _ => True
  end.
Proof.
  split; [vm_compute; reflexivity|].
  apply (@reversible_OneMulti_later_groups R_CalcOps idle_policy
           plain_collaborators [tt; tt] [rx_theta] [rx_theta]
           (params_ rx_theta) {[ "theta" := 0 ]} 1 plus_state).
  - lia.
  - reflexivity.
  - intros name idx H. apply lookup_singleton_Some in H as [_ <-].
    reflexivity.
Defined.

(** ** The sign of the gradient contributions *)

Section GradientSign.
Context {CO : CalcOps} {PB : PolicyBase} {CB : Collaborators}.

Lemma accumulate_spec (sign : real -> real) (p_map : gmap string N)
    (g : BasicGate) (gi : C)
    (step : string -> list C -> result (list C)) :
  (forall it fg,
     step it fg
     = do coeff <- map_at (data_ (params_ g)) it;
       do idx <- map_at p_map it;
       vec_update fg (u64 (1 + idx))
         (fun x => Cadd_real x (R_mul (R_mul R_two (Re gi)) (sign coeff)))) ->
  forall fg fg',
    foldM step (GetRequiresGradParameters (params_ g)) fg = Ok fg' ->
    fg' = spec_accumulate sign p_map g gi fg.
Proof.
  intros Hstep. unfold spec_accumulate.
  generalize (GetRequiresGradParameters (params_ g)). intros its.
  induction its as [|it its IH]; intros fg fg'; simpl.
  - intros H. now injection H.
  - rewrite Hstep. unfold map_at.
    destruct (data_ (params_ g) !! it) as [coeff|]; cbn [rbind];
      [|discriminate].
    destruct (p_map !! it) as [idx|]; cbn [rbind]; [|discriminate].
    unfold vec_update. fold (slot idx).
    destruct (fg !! slot idx); cbn [rbind]; [|discriminate].
    apply IH.
Qed.

Lemma grad_reversible_spec (p_map : gmap string N) (g : BasicGate) (gi : C)
    (fg fg' : list C) :
  grad_reversible p_map g gi fg = Ok fg' ->
  fg' = spec_accumulate R_opp p_map g gi fg.
Proof.
  apply (accumulate_spec R_opp p_map g gi). intros it fg0. reflexivity.
Qed.

Lemma grad_noise_spec (p_map : gmap string N) (g : BasicGate) (gi : C)
    (fg fg' : list C) :
  grad_noise p_map g gi fg = Ok fg' ->
  fg' = spec_accumulate (fun c => c) p_map g gi fg.
Proof.
  apply (accumulate_spec (fun c => c) p_map g gi). intros it fg0. reflexivity.
Qed.

Lemma reversible_walk_states (this : DensityMatrixState)
    (pr : ParameterResolver) (p_map : gmap string N) (gs : circuit_t) :
  forall (fg fg' : list C) (sh sh' sq sq' : DensityMatrixState),
    foldM (fun g '(f_and_g, sim_ham, sim_qs) =>
             do f_and_g <-
               (if differentiable g then
                  do gi <- ExpectDiffGate (qs sim_qs) (qs sim_ham) g (dim this);
                  grad_reversible p_map g gi f_and_g
                else Ok f_and_g);
             do sim_ham <- step_gate pr g sim_ham;
             do sim_qs <- step_gate pr g sim_qs;
             Ok (f_and_g, sim_ham, sim_qs))
          gs (fg, sh, sq) = Ok (fg', sh', sq') ->
    foldM (step_gate pr) gs sh = Ok sh' /\ foldM (step_gate pr) gs sq = Ok sq'.
Proof.
  induction gs as [|g gs IH]; intros fg fg' sh sh' sq sq' E.
  - simpl in E. injection E as _ <- <-. split; reflexivity.
  - cbn [foldM] in E |- *.
    destruct (if differentiable g then _ else _) as [fg1|]; cbn [rbind] in E;
      [|discriminate].
    destruct (step_gate pr g sh) as [sh1|]; cbn [rbind] in E |- *;
      [|discriminate].
    destruct (step_gate pr g sq) as [sq1|]; cbn [rbind] in E |- *;
      [|discriminate].
    exact (IH _ _ _ _ _ _ E).
Qed.

Lemma noise_walk_states (this : DensityMatrixState) (circ : circuit_t)
    (pr : ParameterResolver) (p_map : gmap string N) (hs : circuit_t) :
  forall (n n' : N) (fg fg' : list C) (sq sq' sh sh' : DensityMatrixState),
    foldM (noise_walk_OneOne this circ pr p_map) hs (n, fg, sq, sh)
    = Ok (n', fg', sq', sh') ->
    n' = Nat.iter (length hs) (fun n => sub64 n 1) n
    /\ foldM (step_gate pr) hs sh = Ok sh'
    /\ (rewound this sq -> rewound this sq').
Proof.
  induction hs as [|h hs IH]; intros n n' fg fg' sq sq' sh sh' E.
  - simpl in E. injection E as <- _ <- <-. auto.
  - cbn [foldM] in E |- *. unfold noise_walk_OneOne in E at 1.
    destruct (vec_get circ (sub64 n 1)) as [gn|]; cbn [rbind] in E;
      [|discriminate].
    destruct (if differentiable gn then _ else _) as [[fg1 sq1]|] eqn:Ed;
      cbn [rbind] in E; [|discriminate].
    destruct (step_gate pr h sh) as [sh1|]; cbn [rbind] in E |- *;
      [|discriminate].
    destruct (IH _ _ _ _ _ _ _ _ E) as (Hn & Hsh & Hrw).
    split; [|split; [exact Hsh|]].
    + rewrite Hn. cbn [length]. now rewrite Nat.iter_succ_r.
    + intros Hsq. apply Hrw.
      destruct (differentiable gn).
      * destruct (foldM (step_gate pr) _ sq) as [sq2|] eqn:Es;
          cbn [rbind] in Ed; [|discriminate].
        destruct (ExpectDiffGate _ _ gn _); cbn [rbind] in Ed; [|discriminate].
        destruct (grad_noise _ _ _ _); cbn [rbind] in Ed; [|discriminate].
        injection Ed as _ <-. apply State_CopyQS_rewound.
        apply steps_dim in Es. destruct Hsq as [Hd _]. congruence.
      * injection Ed as _ <-. exact Hsq.
Qed.

Lemma spec_accumulate_entry (sign : real -> real) (p_map : gmap string N)
    (g : BasicGate) (gi : C) (f_and_g : list C) :
  NoDup (GetRequiresGradParameters (params_ g)) ->
  (forall it, it ∈ GetRequiresGradParameters (params_ g) ->
     exists coeff idx, data_ (params_ g) !! it = Some coeff
                       /\ p_map !! it = Some idx
                       /\ (slot idx < length f_and_g)%nat) ->
  (forall it it' idx idx',
     it ∈ GetRequiresGradParameters (params_ g) ->
     it' ∈ GetRequiresGradParameters (params_ g) ->
     p_map !! it = Some idx -> p_map !! it' = Some idx' ->
     slot idx = slot idx' -> it = it') ->
  forall it coeff idx x,
    it ∈ GetRequiresGradParameters (params_ g) ->
    data_ (params_ g) !! it = Some coeff ->
    p_map !! it = Some idx ->
    f_and_g !! slot idx = Some x ->
    spec_accumulate sign p_map g gi f_and_g !! slot idx
    = Some (Cadd_real x (R_mul (R_mul R_two (Re gi)) (sign coeff))).
Proof.
  intros Hnd Hrange Hinj it coeff idx x Hit Hd Hp Hx.
  destruct (accumulate_fold (data_ (params_ g)) p_map
              (fun c => R_mul (R_mul R_two (Re gi)) (sign c))
              _ f_and_g Hnd Hrange Hinj) as (f' & Hrun & _ & Hin & _).
  apply (accumulate_spec sign p_map g gi) in Hrun;
    [|intros it0 fg0; reflexivity].
  rewrite <- Hrun, (Hin it coeff idx Hit Hd Hp), Hx. reflexivity.
Qed.

(** C4: the gradient vector either mode returns for a walk over one more
    gate is the vector for the walk without that gate, with the
    contribution of the gate the last iteration looks at added: for every
    parameter name of that gate that requires a gradient, the entry
    1 + p_map[name] grows by 2 * Re(gi) * (-coefficient) in the reversible
    mode and by 2 * Re(gi) * (+coefficient) in the noise mode.  In the
    reversible mode the gate is the last gate of [herm_circ] and gi is
    taken on the two states stepped through the gates before it; in the
    noise mode the gate is [circ[n]] for the counter n of that iteration
    and gi is taken after the gates 0..n of [circ] were applied again to
    the state brought back to this state's matrix.  A gate that fails the
    size test adds nothing.  The last part spells the contribution out
    entry by entry for distinct names mapped to distinct entries. *)
Theorem gradient_sign_convention (ham : ham_terms) (circ pre : circuit_t)
    (g h : BasicGate) (enc_data : list (list real)) (ans_data : list real)
    (enc_name ans_name : list string) (pr : ParameterResolver)
    (p_map : gmap string N) (this : DensityMatrixState) :
  match GetExpectationWithReversibleGradOneOne ham circ (pre ++ [g]) enc_data
          ans_data enc_name ans_name this with
  | Ok f_and_g' =>
      exists enc0 f_and_g res sim_qs0 sim_qs sim_ham,
        let pr := SetItems (SetItems empty_resolver enc_name enc0)
                           ans_name ans_data in
        enc_data !! 0%nat = Some enc0
        /\ GetExpectationWithReversibleGradOneOne ham circ pre enc_data
             ans_data enc_name ans_name this = Ok f_and_g
        /\ ApplyCircuit circ pr (copy_state this) = Ok (res, sim_qs0)
        /\ foldM (step_gate pr) pre sim_qs0 = Ok sim_qs
        /\ foldM (step_gate pr) pre (ham_state this ham) = Ok sim_ham
        /\ if differentiable g then
             exists gi,
               ExpectDiffGate (qs sim_qs) (qs sim_ham) g (dim this) = Ok gi
               /\ f_and_g'
                  = spec_accumulate R_opp (build_p_map enc_name ans_name)
                                    g gi f_and_g
           else f_and_g' = f_and_g
  | Err _ => True
  end
  /\ match GetExpectationWithNoiseGradOneOne ham circ (pre ++ [h]) pr p_map
             this with
     | Ok f_and_g' =>
         exists f_and_g gn sim_ham,
           GetExpectationWithNoiseGradOneOne ham circ pre pr p_map this
           = Ok f_and_g
           /\ vec_get circ (walk_counter circ (S (length pre))) = Ok gn
           /\ foldM (step_gate pr) pre (ham_state this ham) = Ok sim_ham
           /\ if differentiable gn then
                exists sim_qs sim_qs' gi,
                  rewound this sim_qs
                  /\ foldM (step_gate pr)
                       (take (S (N.to_nat
                                   (walk_counter circ (S (length pre)))))
                             circ) sim_qs = Ok sim_qs'
                  /\ ExpectDiffGate (qs sim_qs') (qs sim_ham) gn (dim this)
                     = Ok gi
                  /\ f_and_g' = spec_accumulate (fun c => c) p_map gn gi
                                                f_and_g
              else f_and_g' = f_and_g
     | Err _ => True
     end
  /\ (forall (sign : real -> real) (p_map : gmap string N) (g : BasicGate)
             (gi : C) (f_and_g : list C),
        NoDup (GetRequiresGradParameters (params_ g)) ->
        (forall it, it ∈ GetRequiresGradParameters (params_ g) ->
           exists coeff idx, data_ (params_ g) !! it = Some coeff
                             /\ p_map !! it = Some idx
                             /\ (slot idx < length f_and_g)%nat) ->
        (forall it it' idx idx',
           it ∈ GetRequiresGradParameters (params_ g) ->
           it' ∈ GetRequiresGradParameters (params_ g) ->
           p_map !! it = Some idx -> p_map !! it' = Some idx' ->
           slot idx = slot idx' -> it = it') ->
        forall it coeff idx x,
          it ∈ GetRequiresGradParameters (params_ g) ->
          data_ (params_ g) !! it = Some coeff ->
          p_map !! it = Some idx ->
          f_and_g !! slot idx = Some x ->
          spec_accumulate sign p_map g gi f_and_g !! slot idx
          = Some (Cadd_real x (R_mul (R_mul R_two (Re gi)) (sign coeff)))).
Proof.
  split; [|split; [|apply spec_accumulate_entry]].
  - unfold GetExpectationWithReversibleGradOneOne. cbv zeta.
    destruct (vec_get enc_data 0) as [enc0|] eqn:Ee; cbn [rbind]; [|exact I].
    set (prr := SetItems (SetItems empty_resolver enc_name enc0) ans_name
                         ans_data).
    destruct (ApplyCircuit circ prr (copy_state this)) as [[res sq0]|]
      eqn:Ec; cbn [rbind]; [|exact I].
    rewrite foldM_app.
    match goal with
    | |- context [foldM ?F pre ?s0] =>
        destruct (foldM F pre s0) as [[[fg sh] sq]|] eqn:Ew; cbn [rbind];
        [|exact I]
    end.
    destruct (reversible_walk_states _ _ _ _ _ _ _ _ _ _ Ew) as [Hsh Hsq].
    cbn [foldM].
    destruct (differentiable g) eqn:Ed; cbn [rbind].
    + destruct (ExpectDiffGate (qs sq) (qs sh) g (dim this)) as [gi|] eqn:Eg;
        cbn [rbind]; [|exact I].
      destruct (grad_reversible _ g gi fg) as [fg1|] eqn:Ea; cbn [rbind];
        [|exact I].
      destruct (step_gate prr g sh); cbn [rbind]; [|exact I].
      destruct (step_gate prr g sq); cbn [rbind]; [|exact I].
      exists enc0, fg, res, sq0, sq, sh. cbv zeta.
      split. { unfold vec_get in Ee. destruct (enc_data !! _); now inversion Ee. }
      split; [reflexivity|]. split; [exact Ec|].
      split; [exact Hsq|]. split; [exact Hsh|].
      exists gi. split; [exact Eg|]. now apply grad_reversible_spec.
    + destruct (step_gate prr g sh); cbn [rbind]; [|exact I].
      destruct (step_gate prr g sq); cbn [rbind]; [|exact I].
      exists enc0, fg, res, sq0, sq, sh. cbv zeta.
      split. { unfold vec_get in Ee. destruct (enc_data !! _); now inversion Ee. }
      split; [reflexivity|]. split; [exact Ec|].
      split; [exact Hsq|]. split; [exact Hsh|]. reflexivity.
  - unfold GetExpectationWithNoiseGradOneOne. cbv zeta.
    destruct (ApplyCircuit circ pr (copy_state this)) as [[res sq0]|] eqn:Ec;
      cbn [rbind]; [|exact I].
    rewrite foldM_app.
    match goal with
    | |- context [foldM ?F pre ?s0] =>
        destruct (foldM F pre s0) as [[[[n fg] sq] sh]|] eqn:Ew; cbn [rbind];
        [|exact I]
    end.
    destruct (noise_walk_states _ _ _ _ _ _ _ _ _ _ _ _ _ Ew)
      as (Hn & Hsh & Hrw).
    assert (Hsq : rewound this sq).
    { apply Hrw. apply State_CopyQS_rewound.
      destruct (ApplyCircuit_fold_shape circ pr _ _ _ _ Ec) as [(_ & Hd & _) _].
      exact Hd. }
    cbn [foldM]. unfold noise_walk_OneOne at 1.
    assert (Hc : sub64 n 1 = walk_counter circ (S (length pre))).
    { unfold walk_counter. rewrite Nat.iter_succ. now rewrite Hn. }
    rewrite Hc.
    destruct (vec_get circ (walk_counter circ (S (length pre)))) as [gn|]
      eqn:Egn; cbn [rbind]; [|exact I].
    destruct (differentiable gn) eqn:Ed; cbn [rbind].
    + destruct (foldM (step_gate pr) _ sq) as [sq'|] eqn:Es; cbn [rbind];
        [|exact I].
      destruct (ExpectDiffGate (qs sq') (qs sh) gn (dim this)) as [gi|] eqn:Eg;
        cbn [rbind]; [|exact I].
      destruct (grad_noise p_map gn gi fg) as [fg1|] eqn:Ea; cbn [rbind];
        [|exact I].
      destruct (step_gate pr h sh); cbn [rbind]; [|exact I].
      exists fg, gn, sh. split; [reflexivity|]. split; [reflexivity|].
      split; [exact Hsh|]. rewrite Ed.
      exists sq, sq', gi. split; [exact Hsq|]. split; [exact Es|].
      split; [exact Eg|]. now apply grad_noise_spec.
    + destruct (step_gate pr h sh); cbn [rbind]; [|exact I].
      exists fg, gn, sh. split; [reflexivity|]. split; [reflexivity|].
      split; [exact Hsh|]. now rewrite Ed.
Qed.

End GradientSign.

(** On the one-qubit state |+><+| with the gate RX(3 * theta) as [circ] and
    as [herm_circ], and every ExpectDiff kernel returning 1, the gradient
    entry of [theta] is -6 in the reversible mode and +6 in the noise
    mode. *)
Lemma gradient_sign_example :
  @GetExpectationWithReversibleGradOneOne R_CalcOps idle_policy
    plain_collaborators tt [rx_theta] [rx_theta] [[]] [1%R] [] ["theta"]
    plus_state
  = Ok [(0, 0); (-6, 0)]%R
  /\ @GetExpectationWithNoiseGradOneOne R_CalcOps idle_policy
       plain_collaborators tt [rx_theta] [rx_theta] (params_ rx_theta)
       {[ "theta" := 0 ]} plus_state
     = Ok [(0, 0); (6, 0)]%R.
Proof.
  split; vm_compute.
  - f_equal. f_equal. f_equal. f_equal. lra.
  - f_equal. f_equal. f_equal. f_equal. lra.
Qed.

(** ** Sampling with a column out of range *)


Section SamplingRange.
Context {CO : CalcOps} {PB : PolicyBase} {CB : Collaborators}.


End SamplingRange.


(** ** The batch functions *)

Lemma foldM_concat {A S} (f : A -> S -> result S) (ls : list (list A)) :
  forall s, foldM (fun l s => foldM f l s) ls s = foldM f (concat ls) s.
Proof.
  induction ls as [|l ls IH]; intros s; simpl; [reflexivity|].
  rewrite foldM_app. destruct (foldM f l s) as [s'|e]; simpl;
    [apply IH | reflexivity].
Qed.

Lemma task_range_seq (start end_ : N) :
  task_range start end_
  = map N.of_nat (seq (N.to_nat start) (N.to_nat (end_ - start))).
Proof.
  unfold task_range, N_range.
  rewrite <- (Nat.add_0_r (N.to_nat start)) at 1.
  rewrite <- fmap_add_seq.
  change (Nat.add (N.to_nat start) <$> seq 0 (N.to_nat (end_ - start)))
    with (map (Nat.add (N.to_nat start)) (seq 0 (N.to_nat (end_ - start)))).
  rewrite !map_map. apply map_ext. intros a. lia.
Qed.

Lemma batch_end_succ (offset left i : N) :
  batch_end offset left (N.succ i)
  = batch_end offset left i + offset + (if i <? left then 1 else 0).
Proof.
  unfold batch_end. rewrite N.mul_succ_l.
  destruct (i <? left) eqn:E; [apply N.ltb_lt in E | apply N.ltb_ge in E]; lia.
Qed.

Lemma batch_end_mono (offset left i j : N) :
  i <= j -> batch_end offset left i <= batch_end offset left j.
Proof.
  intros H. unfold batch_end.
  pose proof (N.mul_le_mono_r i j offset H). lia.
Qed.

Lemma tasks_from_cover (offset left : N) (len : nat) :
  forall a : nat,
    batch_end offset left (N.of_nat (a + len)) < 2 ^ 64 ->
    concat (map (fun '(start, end_) => task_range start end_)
                (tasks_from offset left (map N.of_nat (seq a len))
                            (batch_end offset left (N.of_nat a))))
    = map N.of_nat
        (seq (N.to_nat (batch_end offset left (N.of_nat a)))
             (N.to_nat (batch_end offset left (N.of_nat (a + len))
                        - batch_end offset left (N.of_nat a)))).
Proof.
  induction len as [|len IH]; intros a Hb.
  - rewrite Nat.add_0_r, N.sub_diag. reflexivity.
  - cbn [seq map tasks_from concat].
    set (E := batch_end offset left) in *.
    replace (a + S len)%nat with (S a + len)%nat in * by lia.
    assert (H1 : E (N.of_nat a) <= E (N.of_nat (S a)))
      by (apply batch_end_mono; lia).
    assert (H2 : E (N.of_nat (S a)) <= E (N.of_nat (S a + len)))
      by (apply batch_end_mono; lia).
    assert (Hnext : (if N.of_nat a <? left
                     then u64 (u64 (E (N.of_nat a) + offset) + 1)
                     else u64 (E (N.of_nat a) + offset))
                    = E (N.of_nat (S a))).
    { pose proof (batch_end_succ offset left (N.of_nat a)) as Hs.
      rewrite <- Nat2N.inj_succ in Hs. fold E in Hs.
      revert Hs. destruct (N.of_nat a <? left); intros Hs.
      all: rewrite (u64_small (E (N.of_nat a) + offset)) by lia.
      all: rewrite ?u64_small by lia; lia. }
    rewrite Hnext, task_range_seq.
    rewrite IH by exact Hb. rewrite <- map_app. f_equal.
    replace (N.to_nat (E (N.of_nat (S a + len)) - E (N.of_nat a)))
      with (N.to_nat (E (N.of_nat (S a)) - E (N.of_nat a))
            + N.to_nat (E (N.of_nat (S a + len)) - E (N.of_nat (S a))))%nat
      by lia.
    rewrite seq_app. f_equal. f_equal. lia.
Qed.

Lemma batch_tasks_cover (n_prs batch_threads : N) :
  0 < batch_threads -> n_prs < 2 ^ 64 ->
  concat (map (fun '(start, end_) => task_range start end_)
              (batch_tasks n_prs batch_threads))
  = N_range n_prs.
Proof.
  intros Hb Hn. unfold batch_tasks, N_range.
  pose proof (N.div_mod' n_prs batch_threads) as Hdm.
  pose proof (N.mod_lt n_prs batch_threads ltac:(lia)) as Hlt.
  set (offset := n_prs / batch_threads) in *.
  set (left := n_prs mod batch_threads) in *.
  assert (Hend : batch_end offset left (N.of_nat (0 + N.to_nat batch_threads))
                 = n_prs).
  { unfold batch_end. rewrite Nat.add_0_l, N2Nat.id. nia. }
  pose proof (tasks_from_cover offset left (N.to_nat batch_threads) 0
                ltac:(rewrite Hend; exact Hn)) as H.
  rewrite Hend in H.
  replace (batch_end offset left (N.of_nat 0)) with 0 in H
    by (unfold batch_end; lia).
  rewrite N.sub_0_r in H. exact H.
Qed.

Lemma foldM_map {A B S} (g : A -> B) (f : B -> S -> result S) (l : list A) :
  forall s, foldM f (map g l) s = foldM (fun a => f (g a)) l s.
Proof.
  induction l as [|a l IH]; intros s; simpl; [reflexivity|].
  destruct (f (g a) s); simpl; [apply IH | reflexivity].
Qed.

Lemma foldM_ext {A S} (f g : A -> S -> result S) (l : list A) :
  (forall a s, f a s = g a s) -> forall s, foldM f l s = foldM g l s.
Proof.
  intros H. induction l as [|a l IH]; intros s; simpl; [reflexivity|].
  rewrite H. destruct (g a s); simpl; [apply IH | reflexivity].
Qed.

Lemma foldM_rows {A B} (run_row : A -> result B) (data : list A)
    (step : N -> list B -> result (list B)) :
  (forall n out,
     step n out = do x <- vec_get data n;
                  do b <- run_row x;
                  vec_update out n (fun _ => b)) ->
  forall (rest pre : list A) (done zeros : list B),
    data = pre ++ rest -> length done = length pre ->
    length zeros = length rest ->
    foldM step (map N.of_nat (seq (length pre) (length rest))) (done ++ zeros)
    = do rows <- mapM run_row rest; Ok (done ++ rows).
Proof.
  intros Hstep. induction rest as [|x rest IH];
    intros pre done zeros Hdata Hdone Hzeros.
  - destruct zeros; [|discriminate]. reflexivity.
  - destruct zeros as [|z zeros]; [discriminate|].
    cbn [length seq map foldM mapM]. rewrite Hstep.
    unfold vec_get. rewrite Nat2N.id, Hdata, list_lookup_middle by reflexivity.
    cbn [rbind]. destruct (run_row x) as [b|e]; cbn [rbind]; [|reflexivity].
    unfold vec_update. rewrite Nat2N.id.
    rewrite list_lookup_middle by (symmetry; exact Hdone). cbn [rbind].
    rewrite <- Hdone, <- (Nat.add_0_r (length done)), alter_app_r.
    cbn [alter list_alter].
    specialize (IH (pre ++ [x]) (done ++ [b]) zeros).
    rewrite !length_app in IH. cbn [length] in IH.
    rewrite !Nat.add_1_r, <- !app_assoc in IH. cbn [app] in IH.
    rewrite Nat.add_0_r, Hdone, IH.
    + destruct (mapM run_row rest) as [rows|e]; cbn [rbind]; [|reflexivity].
      now rewrite <- app_assoc.
    + exact Hdata.
    + now rewrite Hdone.
    + now injection Hzeros.
Qed.

Section MultiProps.
Context {CO : CalcOps} {PB : PolicyBase} {CB : Collaborators}.

Lemma grad_MultiMulti_rows
    (one_multi : ParameterResolver -> gmap string N -> Z
                 -> result (list (list C)))
    (hams : list ham_terms) (enc_data : list (list real))
    (ans_data : list real) (enc_name ans_name : list string)
    (batch_threads mea_threads : N) :
  1 <= batch_threads < 2 ^ 60 ->
  N.of_nat (length enc_data) < 2 ^ 64 ->
  grad_MultiMulti one_multi hams enc_data ans_data enc_name ans_name
    batch_threads mea_threads
  = match mapM (fun enc_n =>
                  one_multi
                    (SetItems (SetItems empty_resolver enc_name enc_n)
                              ans_name ans_data)
                    (build_p_map enc_name ans_name)
                    (static_cast_int (Z.of_N mea_threads)))
               enc_data with
    | Ok rows => Returned rows
    | Err e => if (length enc_data =? 1)%nat then Raised e else Aborted e
    end.
Proof.
  intros Hb Hn. unfold grad_MultiMulti. cbv zeta.
  set (run_row := fun enc_n : list real => one_multi _ _ _).
  set (zero := replicate (length hams) _).
  destruct (N.of_nat (length enc_data) =? 1) eqn:E1.
  - apply N.eqb_eq in E1.
    destruct enc_data as [|x [|y l]]; cbn [length] in E1; try lia.
    change (vec_get [x] 0) with (Ok (A := list real) x). cbn [rbind mapM].
    fold (run_row x). destruct (run_row x) as [fg|e]; reflexivity.
  - apply N.eqb_neq in E1.
    assert (E2 : (length enc_data =? 1)%nat = false)
      by (apply Nat.eqb_neq; lia).
    rewrite E2.
    destruct (2 ^ 60 <=? batch_threads) eqn:E3;
      [apply N.leb_le in E3; lia|].
    destruct (batch_threads =? 0) eqn:E4; [apply N.eqb_eq in E4; lia|].
    match goal with
    | |- context [foldM _ (batch_tasks ?n ?b) ?out] =>
        match goal with
        | |- context [foldM ?run (task_range _ _)] =>
            assert (Hfold :
              foldM (fun '(start, end_) output =>
                       foldM run (task_range start end_) output)
                    (batch_tasks n b) out
              = foldM run (N_range n) out)
        end
    end.
    { rewrite <- (batch_tasks_cover _ batch_threads) by lia.
      rewrite <- foldM_concat, foldM_map.
      apply foldM_ext. intros [start end_] output. reflexivity. }
    rewrite Hfold. unfold N_range. rewrite Nat2N.id.
    pose proof (foldM_rows run_row enc_data _ (fun n out => eq_refl)
                  enc_data [] [] (replicate (length enc_data) zero)
                  eq_refl eq_refl (length_replicate _ _)) as Hrows.
    cbn [length app] in Hrows.
    etransitivity;
      [apply (f_equal (fun r => match r with
                                | Ok output => Returned output
                                | Err e => Aborted e
                                end)); exact Hrows|].
    destruct (mapM run_row enc_data) as [rows|e]; reflexivity.
Qed.

(** X24: each batch function returns, for every row of [enc_data] in
    order, what the multi-Hamiltonian function of its mode returns under
    the binding built from that row, the parameter map built from the
    names and [mea_threads] converted to [int]; the number of batch
    threads (at least one) changes nothing.  When a row fails, the failure
    reaches the caller if [enc_data] has exactly one row, and otherwise
    leaves a task. *)
Theorem MultiMulti_rows (hams : list ham_terms) (circ herm_circ : circuit_t)
    (enc_data : list (list real)) (ans_data : list real)
    (enc_name ans_name : list string) (batch_threads mea_threads : N)
    (this : DensityMatrixState)
    (Hbatch : 1 <= batch_threads < 2 ^ 60)
    (Hprs : N.of_nat (length enc_data) < 2 ^ 64) :
  let pr_of (enc_n : list real) :=
    SetItems (SetItems empty_resolver enc_name enc_n) ans_name ans_data in
  let p_map := build_p_map enc_name ans_name in
  let n_thread := static_cast_int (Z.of_N mea_threads) in
  let collect (rows : result (list (list (list C)))) :=
    match rows with
    | Ok rows => Returned rows
    | Err e => if (length enc_data =? 1)%nat then Raised e else Aborted e
    end in
  GetExpectationWithReversibleGradMultiMulti hams circ herm_circ enc_data
    ans_data enc_name ans_name batch_threads mea_threads this
  = collect (mapM (fun enc_n =>
                     GetExpectationWithReversibleGradOneMulti hams circ
                       herm_circ (pr_of enc_n) p_map n_thread this)
                  enc_data)
  /\ GetExpectationWithNoiseGradMultiMulti hams circ herm_circ enc_data
       ans_data enc_name ans_name batch_threads mea_threads this
     = collect (mapM (fun enc_n =>
                        GetExpectationWithNoiseGradOneMulti hams circ
                          herm_circ (pr_of enc_n) p_map n_thread this)
                     enc_data).
Proof.
  cbv zeta.
  unfold GetExpectationWithReversibleGradMultiMulti,
    GetExpectationWithNoiseGradMultiMulti.
  split; apply grad_MultiMulti_rows; assumption.
Qed.

End MultiProps.

Lemma MultiMulti_rows_witness :
  let enc_data : list (list (@real R_RingOps)) := [[]; []] in
  let pr_of (enc_n : list (@real R_RingOps)) :=
    @SetItems R_RingOps plain_collaborators
      (@SetItems R_RingOps plain_collaborators
         (@empty_resolver R_RingOps plain_collaborators) [] enc_n)
      ["theta"] [1%R] in
  let p_map := build_p_map [] ["theta"] in
  let n_thread := static_cast_int (Z.of_N 1) in
  let collect (rows : result (list (list (list (@C R_RingOps))))) :=
    match rows with
    | Ok rows => Returned rows
    | Err e => if (length enc_data =? 1)%nat then Raised e else Aborted e
    end in
  @GetExpectationWithReversibleGradMultiMulti R_CalcOps idle_policy
    plain_collaborators [tt] [rx_theta] [rx_theta] enc_data [1%R] []
    ["theta"] 4 1 plus_state
  = collect (mapM (fun enc_n =>
                     @GetExpectationWithReversibleGradOneMulti R_CalcOps
                       idle_policy plain_collaborators [tt] [rx_theta]
                       [rx_theta] (pr_of enc_n) p_map n_thread plus_state)
                  enc_data)
  /\ @GetExpectationWithNoiseGradMultiMulti R_CalcOps idle_policy
       plain_collaborators [tt] [rx_theta] [rx_theta] enc_data [1%R] []
       ["theta"] 4 1 plus_state
     = collect (mapM (fun enc_n =>
                        @GetExpectationWithNoiseGradOneMulti R_CalcOps
                          idle_policy plain_collaborators [tt] [rx_theta]
                          [rx_theta] (pr_of enc_n) p_map n_thread
                          plus_state)
                     enc_data).
Proof.
  intros enc_data pr_of p_map n_thread collect.
  apply (@MultiMulti_rows R_CalcOps idle_policy plain_collaborators).
  - split; [discriminate | reflexivity].
  - reflexivity.
Defined.
